(** * The offline mirroring engine of the FlipHTML5 downloader

    A shallow embedding of [tools/fliphtml5-downloader.js]: the URL
    resolver and classifier, the regex-driven extractors and rewriters, the
    JSON rewriter, the retry wrapper, the page-sequence prober and the
    bounded-concurrency download scheduler.

    JavaScript strings are embedded as lists of 8-bit code units. *)

From Stdlib Require Import String List Ascii Arith NArith Bool Lia PeanoNat.
From Stdlib Require DecimalString.
From Stdlib Require Import Permutation.
Import ListNotations.

#[local] Abbreviation length := Datatypes.length.
#[local] Open Scope list_scope.

Set Implicit Arguments.
Set Warnings "-register-all".

(* ================================================================== *)
(** * Strings *)
(* ================================================================== *)

Definition str := list ascii.

Definition lit (s : String.string) : str := String.list_ascii_of_string s.
Arguments lit s%_string.

(** The double quote character, code unit 34. *)
Definition dq : ascii := ascii_of_nat 34.

Fixpoint str_eqb (a b : str) : bool :=
  match a, b with
  | [], [] => true
  | x :: a', y :: b' => Ascii.eqb x y && str_eqb a' b'
  | _, _ => false
  end.

Definition str_dec (a b : str) : {a = b} + {a <> b} :=
  list_eq_dec ascii_dec a b.

(** [s.startsWith(p)] *)
Fixpoint startsWith (p s : str) : bool :=
  match p, s with
  | [], _ => true
  | x :: p', y :: s' => Ascii.eqb x y && startsWith p' s'
  | _ :: _, [] => false
  end.

(** [s.endsWith(p)] *)
Definition endsWith (p s : str) : bool := startsWith (rev p) (rev s).

(** [s.includes(p)] *)
Fixpoint includes (p s : str) : bool :=
  startsWith p s || match s with [] => false | _ :: s' => includes p s' end.

(** [s.slice(0, n)] *)
Definition slice0 (n : nat) (s : str) : str := firstn n s.

(** Template-literal rendering of a non-negative integer. *)
Definition nat_to_str (n : nat) : str :=
  lit (DecimalString.NilZero.string_of_uint (Nat.to_uint n)).

(* ================================================================== *)
(** * Regular expressions

    The subset of ECMAScript patterns the downloader uses: literals,
    character classes, concatenation, alternation, greedy [*], [+] and [?]
    over a single character class, and capture groups.  Matching is by
    backtracking; the alternatives are listed in the priority order of the
    ECMAScript matcher, so the head of the list is the match [exec]
    reports.  The character classes of these patterns hold no letter, so
    the [i] flag bears on the literals only. *)
(* ================================================================== *)

Module Regex.

Inductive t : Type :=
| Eps
| Chr (c : ascii)
| Cls (p : ascii -> bool)
| Cat (a b : t)
| Alt (a b : t)
| Star (p : ascii -> bool)
| Plus (p : ascii -> bool)
| Opt (p : ascii -> bool)
| Grp (n : nat) (a : t).

Definition captures := list (nat * str).

(** Canonicalize of the [i] flag, on the code units that can equal an
    ASCII pattern character: ASCII lower case letters fold to upper case,
    every other code unit stays itself. *)
Definition canon (c : ascii) : ascii :=
  let n := nat_of_ascii c in
  if (97 <=? n) && (n <=? 122) then ascii_of_nat (n - 32) else c.

Definition chr_match (icase : bool) (c x : ascii) : bool :=
  if icase then Ascii.eqb (canon c) (canon x) else Ascii.eqb c x.

(** The remainders after a greedy run of class characters, longest run
    first. *)
Fixpoint star (p : ascii -> bool) (s : str) : list str :=
  match s with
  | [] => [[]]
  | c :: s' => if p c then star p s' ++ [s] else [s]
  end.

Definition plus (p : ascii -> bool) (s : str) : list str :=
  match s with
  | [] => []
  | c :: s' => if p c then star p s' else []
  end.

Definition opt (p : ascii -> bool) (s : str) : list str :=
  match s with
  | [] => [[]]
  | c :: s' => if p c then [s'; s] else [s]
  end.

(** The text consumed between [s] and its suffix [rest]. *)
Definition consumed (s rest : str) : str :=
  firstn (length s - length rest) s.

(** [run icase r s caps]: every way [r] matches a prefix of [s], as the
    remaining input and the captures, in priority order. *)
Fixpoint run (icase : bool) (r : t) (s : str) (caps : captures)
  : list (str * captures) :=
  match r with
  | Eps => [(s, caps)]
  | Chr c =>
      match s with
      | x :: s' => if chr_match icase c x then [(s', caps)] else []
      | [] => []
      end
  | Cls p =>
      match s with
      | x :: s' => if p x then [(s', caps)] else []
      | [] => []
      end
  | Cat a b =>
      flat_map (fun '(s1, c1) => run icase b s1 c1) (run icase a s caps)
  | Alt a b => run icase a s caps ++ run icase b s caps
  | Star p => map (fun s' => (s', caps)) (star p s)
  | Plus p => map (fun s' => (s', caps)) (plus p s)
  | Opt p => map (fun s' => (s', caps)) (opt p s)
  | Grp n a =>
      map (fun '(s1, c1) => (s1, (n, consumed s s1) :: c1)) (run icase a s caps)
  end.

(** Literal text, as a concatenation of [Chr]. *)
Fixpoint word (w : str) : t :=
  match w with
  | [] => Eps
  | [c] => Chr c
  | c :: w' => Cat (Chr c) (word w')
  end.

(** [(?:a|b|...)] *)
Fixpoint alts (l : list t) : t :=
  match l with
  | [] => Eps
  | [a] => a
  | a :: l' => Alt a (alts l')
  end.

(** [a b c ...] *)
Fixpoint cats (l : list t) : t :=
  match l with
  | [] => Eps
  | [a] => a
  | a :: l' => Cat a (cats l')
  end.

(** A compiled pattern with its flags.  Every pattern of the downloader
    carries [g]. *)
Record regexp := { source : t; ignoreCase : bool }.

(** One attempt at the current position: the first alternative. *)
Definition attempt (re : regexp) (s : str) : option (str * captures) :=
  hd_error (run (ignoreCase re) (source re) s []).

(** The value of capture group [n]; a group that took no part is the
    empty string here. *)
Fixpoint group (n : nat) (caps : captures) : str :=
  match caps with
  | [] => []
  | (k, v) :: rest => if Nat.eqb k n then v else group n rest
  end.

(** A subject string cut by a global scan: the code units no match
    covers, and the matches, left to right. *)
Inductive seg : Type :=
| Gap (c : ascii)
| Hit (whole : str) (caps : captures).

(** The scan of a global pattern from the start of [s]: the leftmost
    match, then on from its end.  An empty match is reported and the scan
    moves one code unit on, as [String.prototype.replace] does. *)
Fixpoint scan_fuel (fuel : nat) (re : regexp) (s : str) : list seg :=
  match fuel with
  | O => []
  | S fuel' =>
      let skip :=
        match s with
        | [] => []
        | c :: s' => Gap c :: scan_fuel fuel' re s'
        end in
      match attempt re s with
      | None => skip
      | Some (rest, caps) =>
          match consumed s rest with
          | [] => Hit [] caps :: skip
          | w => Hit w caps :: scan_fuel fuel' re rest
          end
      end
  end.

Definition scan (re : regexp) (s : str) : list seg :=
  scan_fuel (S (length s)) re s.

Definition seg_text (x : seg) : str :=
  match x with Gap c => [c] | Hit w _ => w end.

(** The matches of the [while ((m = re.exec(s)) !== null)] loop. *)
Fixpoint hits (l : list seg) : list (str * captures) :=
  match l with
  | [] => []
  | Gap _ :: l' => hits l'
  | Hit w caps :: l' => (w, caps) :: hits l'
  end.

Definition matchAll (re : regexp) (s : str) : list (str * captures) :=
  hits (scan re s).

(** [s.replace(re, f)] for a global [re] and a replacer function. *)
Definition replace (re : regexp) (f : str -> captures -> str) (s : str) : str :=
  concat (map (fun x => match x with
                        | Gap c => [c]
                        | Hit w caps => f w caps
                        end) (scan re s)).

(** ** Character classes of the downloader's patterns *)

Definition only (c : ascii) : ascii -> bool := Ascii.eqb c.
Definition none_of (l : list ascii) (x : ascii) : bool :=
  negb (existsb (Ascii.eqb x) l).
Definition one_of (l : list ascii) (x : ascii) : bool :=
  existsb (Ascii.eqb x) l.

(** [\s] on 8-bit code units: TAB, LF, VT, FF, CR, SP and NBSP. *)
Definition white (x : ascii) : bool :=
  let n := nat_of_ascii x in
  ((9 <=? n) && (n <=? 13)) || (n =? 32) || (n =? 160).

Definition quote : ascii -> bool := one_of [dq; "'"%char].
Definition not_quote : ascii -> bool := none_of [dq; "'"%char].

End Regex.

(* ================================================================== *)
(** * Node's [path] module (POSIX flavour) and [Buffer] base64

    The downloader calls [path.extname], [path.basename], [path.dirname]
    and [path.join]; they are rendered here by what Node's POSIX
    implementation computes, component by component. *)
(* ================================================================== *)

Fixpoint drop_while (p : ascii -> bool) (s : str) : str :=
  match s with
  | [] => []
  | c :: s' => if p c then drop_while p s' else s
  end.

Fixpoint take_while (p : ascii -> bool) (s : str) : str :=
  match s with
  | [] => []
  | c :: s' => if p c then c :: take_while p s' else []
  end.

Module Path.

Definition is_slash (c : ascii) : bool := Ascii.eqb c "/"%char.
Definition not_slash (c : ascii) : bool := negb (is_slash c).
Definition is_dot (c : ascii) : bool := Ascii.eqb c "."%char.
Definition not_dot (c : ascii) : bool := negb (is_dot c).

(** The trailing run of slashes of a path. *)
Definition trailing (p : str) : str := take_while is_slash (rev p).

(** The last component, reversed: what the right-to-left loops of
    [basename] and [extname] walk over once the trailing slashes are
    skipped, up to the next slash. *)
Definition last_rev (p : str) : str :=
  take_while not_slash (drop_while is_slash (rev p)).

Definition last_component (p : str) : str := rev (last_rev p).

(** [path.extname(p)]: from the last dot of the last component on; empty
    when there is no dot, when the dot opens the component, or when the
    component is [..]. *)
Definition extname (p : str) : str :=
  let rc := last_rev p in
  let post := take_while not_dot rc in
  match drop_while not_dot rc with
  | [] => []
  | _dot :: pre =>
      match pre, post with
      | [], _ => []
      | ["."%char], [] => []
      | _, _ => rev (post ++ ["."%char])
      end
  end.

(** The right-to-left comparison of the component with the suffix in
    [basename]. *)
Inductive suffix_scan : Type :=
| Mismatch
| Matched (rest_rev : str)
| Exhausted.

Fixpoint scan_suffix (rc rs : str) : suffix_scan :=
  match rs, rc with
  | [], _ => Matched rc
  | _ :: _, [] => Exhausted
  | x :: rs', y :: rc' => if Ascii.eqb x y then scan_suffix rc' rs' else Mismatch
  end.

(** [path.basename(p, suffix)] *)
Definition basename (p suffix : str) : str :=
  let comp := last_component p in
  match suffix with
  | [] => comp
  | _ :: _ =>
      if length p <? length suffix then comp
      else if str_eqb suffix p then []
      else
        match scan_suffix (last_rev p) (rev suffix) with
        | Mismatch => comp
        | Matched [] => comp
        | Matched rest => rev rest
        | Exhausted => comp ++ trailing p
        end
  end.

(** [path.dirname(p)] *)
Definition dirname (p : str) : str :=
  match p with
  | [] => lit "."
  | c0 :: _ =>
      let hasRoot := is_slash c0 in
      let upto := drop_while not_slash (drop_while is_slash (rev p)) in
      match upto with
      | [] | [_] => if hasRoot then lit "/" else lit "."
      | _slash :: before =>
          if hasRoot && (length before =? 1) then lit "//" else rev before
      end
  end.

(** The components between slashes. *)
Fixpoint split_slash_aux (cur : str) (s : str) : list str :=
  match s with
  | [] => [rev cur]
  | c :: s' =>
      if is_slash c then rev cur :: split_slash_aux [] s'
      else split_slash_aux (c :: cur) s'
  end.

Definition split_slash (s : str) : list str := split_slash_aux [] s.

Fixpoint join_slash (l : list str) : str :=
  match l with
  | [] => []
  | [a] => a
  | a :: l' => a ++ "/"%char :: join_slash l'
  end.

(** One component pushed on the stack of kept components (last first), as
    [normalizeString] does at each separator. *)
Definition push_component (allowAboveRoot : bool) (stack : list str) (c : str)
  : list str :=
  if str_eqb c [] || str_eqb c (lit ".") then stack
  else if str_eqb c (lit "..") then
    match stack with
    | [] => if allowAboveRoot then [c] else []
    | top :: below =>
        if str_eqb top (lit "..")
        then (if allowAboveRoot then c :: stack else stack)
        else below
    end
  else c :: stack.

Definition normalizeString (p : str) (allowAboveRoot : bool) : str :=
  join_slash (rev (fold_left (push_component allowAboveRoot) (split_slash p) [])).

(** [path.normalize(p)] *)
Definition normalize (p : str) : str :=
  match p with
  | [] => lit "."
  | c0 :: _ =>
      let isAbsolute := is_slash c0 in
      let trailingSeparator :=
        match rev p with c :: _ => is_slash c | [] => false end in
      let q := normalizeString p (negb isAbsolute) in
      match q with
      | [] =>
          if isAbsolute then lit "/"
          else if trailingSeparator then lit "./" else lit "."
      | _ =>
          let q' := if trailingSeparator then q ++ lit "/" else q in
          if isAbsolute then "/"%char :: q' else q'
      end
  end.

(** [path.join(...args)] *)
Definition join (args : list str) : str :=
  match filter (fun a => negb (str_eqb a [])) args with
  | [] => lit "."
  | parts => normalize (join_slash parts)
  end.

(** ** Plain file names *)

(** No slash occurs in the text. *)
Definition slashless (s : str) : Prop := Forall (fun c => is_slash c = false) s.

(** What [path.join] puts before a plain file name. *)
Definition join_prefix (l : list str) : str :=
  match l with
  | [] => []
  | _ => join_slash l ++ ["/"%char]
  end.

(** A plain file name: not empty, no slash, and neither [.] nor [..]. *)
Definition plain_name (name : str) : Prop :=
  name <> [] /\ slashless name
  /\ str_eqb name (lit ".") = false /\ str_eqb name (lit "..") = false.

(** What [path.join] puts before a plain file name under [dir]. *)
Definition dir_prefix (dir : str) : str :=
  match dir with
  | [] => []
  | c0 :: _ =>
      (if is_slash c0 then ["/"%char] else [])
      ++ join_prefix
           (rev (fold_left (push_component (negb (is_slash c0)))
                   (split_slash dir) []))
  end.

Definition ends_with_slash (p : str) : bool :=
  match rev p with c :: _ => is_slash c | [] => false end.

End Path.

Module Base64.

(** [Buffer.from(s)]: the UTF-8 bytes of the code units. *)
Definition utf8 (s : str) : list nat :=
  flat_map (fun c => let n := nat_of_ascii c in
                     if n <? 128 then [n] else [192 + n / 64; 128 + n mod 64]) s.

Definition alphabet : str :=
  lit "ABCDEFGHIJKLMNOPQRSTUVWXYZabcdefghijklmnopqrstuvwxyz0123456789+/".

Definition digit (n : nat) : ascii := nth n alphabet "="%char.

Fixpoint encode_fuel (fuel : nat) (bytes : list nat) : str :=
  match fuel with
  | O => []
  | S fuel' =>
      match bytes with
      | [] => []
      | [a] => [digit (a / 4); digit ((a mod 4) * 16); "="%char; "="%char]
      | [a; b] =>
          [digit (a / 4); digit ((a mod 4) * 16 + b / 16);
           digit ((b mod 16) * 4); "="%char]
      | a :: b :: c :: rest =>
          digit (a / 4) :: digit ((a mod 4) * 16 + b / 16)
          :: digit ((b mod 16) * 4 + c / 64) :: digit (c mod 64)
          :: encode_fuel fuel' rest
      end
  end.

(** [buf.toString('base64')] *)
Definition encode (bytes : list nat) : str := encode_fuel (S (length bytes)) bytes.

End Base64.

(* ================================================================== *)
(** * The runtime: URL objects and JSON values

    [new URL(...)] and [JSON.parse] belong to the JavaScript runtime, not
    to the downloader.  They are the fields of a class, so every function
    below is stated for any runtime; [None] stands for a thrown exception.
    A reference instance for the concrete examples follows further down. *)
(* ================================================================== *)

Record URL : Type := {
  protocol : str;
  host : str;
  pathname : str;
  search : str;
  hash : str;
  href : str
}.

(** A JSON value.  A number keeps its numeral; the fields of an object are
    in property order. *)
Inductive JSON : Type :=
| JNull
| JBool (b : bool)
| JNumber (numeral : str)
| JString (s : str)
| JArray (items : list JSON)
| JObject (fields : list (str * JSON)).

Class Runtime : Type := {
  (** [new URL(input)] and [new URL(input, base)] *)
  new_URL : str -> option str -> option URL;
  (** [JSON.parse(text)] *)
  JSON_parse : str -> option JSON;
  (** What [JSON.stringify] prints for the number a numeral denotes. *)
  Number_toString : str -> str
}.

(** A value that is [null] or a string, and its truthiness. *)
Definition falsy (v : option str) : bool :=
  match v with
  | None | Some [] => true
  | Some (_ :: _) => false
  end.

(** Sets of nullable strings, as a JavaScript [Set]: insertion order,
    no duplicates. *)
Definition nstr := option str.

Definition nstr_eqb (a b : nstr) : bool :=
  match a, b with
  | None, None => true
  | Some x, Some y => str_eqb x y
  | _, _ => false
  end.

Definition set_has (x : nstr) (l : list nstr) : bool := existsb (nstr_eqb x) l.

Definition set_add (l : list nstr) (x : nstr) : list nstr :=
  if set_has x l then l else l ++ [x].

(* ================================================================== *)
(** * The resolver and the classifier *)
(* ================================================================== *)

Section Classifier.

Context {rt : Runtime}.

(** [resolveUrl(assetUrl, baseUrl)] *)
Definition resolveUrl (assetUrl baseUrl : str) : nstr :=
  if startsWith (lit "data:") assetUrl || startsWith (lit "#") assetUrl then None
  else
    match new_URL assetUrl (Some baseUrl) with
    | Some u => Some (href u)
    | None => None
    end.

(** An ASCII letter, a digit or the underscore. *)
Definition word_char (c : ascii) : bool :=
  let n := nat_of_ascii c in
  ((65 <=? n) && (n <=? 90)) || ((97 <=? n) && (n <=? 122))
  || ((48 <=? n) && (n <=? 57)) || (n =? 95).

(** [Buffer.from(search).toString('base64').slice(0, 8).replace(/[/+=]/g, '_')] *)
Definition queryHash (search : str) : str :=
  map (fun c => if Regex.one_of ["/"; "+"; "="]%char c then "_"%char else c)
      (slice0 8 (Base64.encode (Base64.utf8 search))).

(** The file name [`${base}_${hash}${ext}`] under [dir]. *)
Definition hashedPath (localPath search : str) : str :=
  let ext := Path.extname localPath in
  let base := Path.basename localPath ext in
  let dir := Path.dirname localPath in
  let hash := queryHash search in
  Path.join [dir; base ++ lit "_" ++ hash ++ ext].

(** [getLocalPath(assetUrl, baseUrl)] *)
Definition getLocalPath (assetUrl baseUrl : str) : nstr :=
  match new_URL assetUrl None with
  | None => None
  | Some urlObj =>
      match new_URL baseUrl None with
      | None => None
      | Some baseUrlObj =>
          if str_eqb (host urlObj) (host baseUrlObj) then
            let localPath := drop_while Path.is_slash (pathname urlObj) in
            match search urlObj with
            | [] => Some localPath
            | _ :: _ => Some (hashedPath localPath (search urlObj))
            end
          else
            Some (drop_while Path.is_slash
                    (lit "external/" ++ host urlObj ++ pathname urlObj))
      end
  end.

(** ** The rewriter for HTML and CSS *)

(** [/((?:src|href|data-src|data-original)\s*=\s*[\x22'])([^\x22']+)([\x22'])/gi],
    the double quote written [\x22] in these comments, and a star that
    would meet a closing parenthesis written [{0,}]. *)
Definition htmlUrlPattern : Regex.regexp :=
  {| Regex.source :=
       Regex.cats
         [ Regex.Grp 1 (Regex.cats
             [ Regex.alts [ Regex.word (lit "src"); Regex.word (lit "href");
                            Regex.word (lit "data-src");
                            Regex.word (lit "data-original") ];
               Regex.Star Regex.white; Regex.Chr "=";
               Regex.Star Regex.white; Regex.Cls Regex.quote ]);
           Regex.Grp 2 (Regex.Plus Regex.not_quote);
           Regex.Grp 3 (Regex.Cls Regex.quote) ];
     Regex.ignoreCase := true |}.

Definition not_quote_paren : ascii -> bool :=
  Regex.none_of [dq; "'"; ")"]%char.

(** [/url\([\x22']?([^\x22')]+)[\x22']?\)/gi] *)
Definition cssUrlPattern : Regex.regexp :=
  {| Regex.source :=
       Regex.cats
         [ Regex.word (lit "url("); Regex.Opt Regex.quote;
           Regex.Grp 1 (Regex.Plus not_quote_paren);
           Regex.Opt Regex.quote; Regex.Chr ")" ];
     Regex.ignoreCase := true |}.

(** The replacer of the HTML pass. *)
Definition rewriteHtmlMatch (baseUrl : str) (whole : str) (caps : Regex.captures)
  : str :=
  let prefix := Regex.group 1 caps in
  let urlValue := Regex.group 2 caps in
  let suffix := Regex.group 3 caps in
  let absoluteUrl := resolveUrl urlValue baseUrl in
  match absoluteUrl with
  | None | Some [] => whole
  | Some a =>
      match getLocalPath a baseUrl with
      | None | Some [] => whole
      | Some localPath => prefix ++ localPath ++ suffix
      end
  end.

(** The replacer of the CSS pass. *)
Definition rewriteCssMatch (baseUrl : str) (whole : str) (caps : Regex.captures)
  : str :=
  let urlValue := Regex.group 1 caps in
  if startsWith (lit "data:") urlValue then whole
  else
    match resolveUrl urlValue baseUrl with
    | None | Some [] => whole
    | Some a =>
        match getLocalPath a baseUrl with
        | None | Some [] => whole
        | Some localPath => lit "url(" ++ [dq] ++ localPath ++ [dq] ++ lit ")"
        end
    end.

(** [rewriteUrls(content, baseUrl, isHtml)] *)
Definition rewriteUrls (content baseUrl : str) (isHtml : bool) : str :=
  if isHtml
  then Regex.replace htmlUrlPattern (rewriteHtmlMatch baseUrl) content
  else Regex.replace cssUrlPattern (rewriteCssMatch baseUrl) content.

(** ** The pieces of a pass *)

(** The text the HTML pass puts where the scan found a piece. *)
Definition html_piece (baseUrl : str) (x : Regex.seg) : str :=
  match x with
  | Regex.Gap c => [c]
  | Regex.Hit whole caps => rewriteHtmlMatch baseUrl whole caps
  end.

(** The pattern of a pass. *)
Definition urlPattern (isHtml : bool) : Regex.regexp :=
  if isHtml then htmlUrlPattern else cssUrlPattern.

(** A matched reference the pass does not change: one it leaves alone, or
    one whose value already is the local path of its own resolution (and,
    in a style sheet, is written in the form the pass writes). *)
Definition stable_ref (isHtml : bool) (baseUrl : str) (m : str * Regex.captures) : bool :=
  let '(whole, caps) := m in
  let urlValue := Regex.group (if isHtml then 2 else 1) caps in
  if negb isHtml && startsWith (lit "data:") urlValue then true
  else
    match resolveUrl urlValue baseUrl with
    | None | Some [] => true
    | Some a =>
        match getLocalPath a baseUrl with
        | None | Some [] => true
        | Some localPath =>
            str_eqb localPath urlValue
            && (isHtml
                || str_eqb whole (lit "url(" ++ [dq] ++ urlValue ++ [dq] ++ lit ")"))
        end
    end.

End Classifier.

(* ================================================================== *)
(** * The extractors *)
(* ================================================================== *)

Section Extractors.

Context {rt : Runtime}.

Import Regex.

Definition gi (r : Regex.t) : regexp := {| source := r; ignoreCase := true |}.

Definition not_gt : ascii -> bool := none_of [">"%char].

(** [\.(?:e1|e2|...)] *)
Definition dot_ext (exts : list Regex.t) : Regex.t := Cat (Chr ".") (alts exts).

Definition w (s : String.string) : Regex.t := word (lit s).

(** [/<link[^>]+href=[\x22']([^\x22']+\.css[^\x22']{0,})[\x22'][^>]*>/gi] *)
Definition cssRegex : regexp :=
  gi (cats [ w "<link"; Plus not_gt; w "href="; Cls quote;
             Grp 1 (cats [Plus not_quote; w ".css"; Star not_quote]);
             Cls quote; Star not_gt; Chr ">" ]).

(** [/<script[^>]+src=[\x22']([^\x22']+\.js[^\x22']{0,})[\x22'][^>]*>/gi] *)
Definition jsRegex : regexp :=
  gi (cats [ w "<script"; Plus not_gt; w "src="; Cls quote;
             Grp 1 (cats [Plus not_quote; w ".js"; Star not_quote]);
             Cls quote; Star not_gt; Chr ">" ]).

(** [/(?:src|href|data-src|data-original)=[\x22']([^\x22']+\.(?:png|jpg|jpeg|gif|svg|webp|ico)[^\x22']{0,})[\x22']/gi] *)
Definition imgRegex : regexp :=
  gi (cats [ alts [w "src"; w "href"; w "data-src"; w "data-original"];
             Chr "="; Cls quote;
             Grp 1 (cats [ Plus not_quote;
                           dot_ext [w "png"; w "jpg"; w "jpeg"; w "gif";
                                    w "svg"; w "webp"; w "ico"];
                           Star not_quote ]);
             Cls quote ]).

(** [/url\([\x22']?([^\x22')]+\.(?:png|jpg|jpeg|gif|svg|webp))[\x22']?\)/gi] *)
Definition bgRegex : regexp :=
  gi (cats [ w "url("; Opt quote;
             Grp 1 (cats [ Plus not_quote_paren;
                           dot_ext [w "png"; w "jpg"; w "jpeg"; w "gif";
                                    w "svg"; w "webp"] ]);
             Opt quote; Chr ")" ]).

(** [/url\([\x22']?([^\x22')]+\.(?:woff2?|ttf|otf|eot))[\x22']?\)/gi] *)
Definition fontRegex : regexp :=
  gi (cats [ w "url("; Opt quote;
             Grp 1 (cats [ Plus not_quote_paren;
                           dot_ext [ Cat (w "woff") (Opt (only "2"));
                                     w "ttf"; w "otf"; w "eot" ] ]);
             Opt quote; Chr ")" ]).

(** [/[\x22']([^\x22']+\.(?:e1|...)[^\x22']{0,})[\x22']/gi], the shape of the
    JSON, XML, SWF, audio and video patterns. *)
Definition quotedWithExt (exts : list Regex.t) : regexp :=
  gi (cats [ Cls quote;
             Grp 1 (cats [Plus not_quote; dot_ext exts; Star not_quote]);
             Cls quote ]).

Definition jsonRegex : regexp := quotedWithExt [w "json"].
Definition xmlRegex : regexp := quotedWithExt [w "xml"].
Definition swfRegex : regexp := quotedWithExt [w "swf"].
Definition audioRegex : regexp := quotedWithExt [w "mp3"; w "wav"; w "ogg"; w "m4a"].
Definition videoRegex : regexp := quotedWithExt [w "mp4"; w "webm"; w "ogv"].

(** One [while ((match = re.exec(text)) !== null) assets.add(resolveUrl(match[1], baseUrl))]
    loop, with the guard the JSON loop puts on [match[1]]. *)
Definition collect (re : regexp) (keep : str -> bool) (text baseUrl : str)
  (assets : list nstr) : list nstr :=
  fold_left
    (fun acc '(_, caps) =>
       let m1 := group 1 caps in
       if keep m1 then set_add acc (resolveUrl m1 baseUrl) else acc)
    (matchAll re text) assets.

Definition always (_ : str) : bool := true.

(** [extractAssets(html, baseUrl)] *)
Definition extractAssets (html baseUrl : str) : list nstr :=
  let assets := [] in
  let assets := collect cssRegex always html baseUrl assets in
  let assets := collect jsRegex always html baseUrl assets in
  let assets := collect imgRegex always html baseUrl assets in
  let assets := collect bgRegex always html baseUrl assets in
  let assets := collect fontRegex always html baseUrl assets in
  let assets :=
    collect jsonRegex
      (fun m1 => includes (lit "/") m1 || includes (lit "config") m1
                 || includes (lit "book") m1)
      html baseUrl assets in
  let assets := collect xmlRegex always html baseUrl assets in
  let assets := collect swfRegex always html baseUrl assets in
  let assets := collect audioRegex always html baseUrl assets in
  let assets := collect videoRegex always html baseUrl assets in
  assets.

(** [/@import\s+[\x22']([^\x22']+)[\x22']/gi] *)
Definition importRegex : regexp :=
  gi (cats [ w "@import"; Plus white; Cls quote;
             Grp 1 (Plus not_quote); Cls quote ]).

(** [extractCssAssets(css, baseUrl)] *)
Definition extractCssAssets (css baseUrl : str) : list nstr :=
  let assets := [] in
  let assets :=
    collect cssUrlPattern (fun assetUrl => negb (startsWith (lit "data:") assetUrl))
      css baseUrl assets in
  let assets := collect importRegex always css baseUrl assets in
  assets.

End Extractors.

(* ================================================================== *)
(** * The JSON rewriter *)
(* ================================================================== *)

(** ** Plain objects: property order and assignment *)

Definition is_digit (c : ascii) : bool :=
  let n := nat_of_ascii c in (48 <=? n) && (n <=? 57).

Definition digits_value (s : str) : N :=
  fold_left (fun acc c => (acc * 10 + N.of_nat (nat_of_ascii c - 48))%N) s 0%N.

(** The array index a property key denotes, if it is a canonical numeric
    string below [2^32 - 1]; such keys are enumerated first, ascending. *)
Definition array_index (k : str) : option N :=
  match k with
  | [] => None
  | c :: rest =>
      if forallb is_digit k
         && (negb (Ascii.eqb c "0"%char) || str_eqb rest [])
         && (length k <=? 10)
         && (digits_value k <? 4294967295)%N
      then Some (digits_value k) else None
  end.

Definition obj_has (fields : list (str * JSON)) (k : str) : bool :=
  existsb (fun '(k', _) => str_eqb k' k) fields.

Fixpoint obj_replace (fields : list (str * JSON)) (k : str) (v : JSON) :=
  match fields with
  | [] => []
  | (k', v') :: rest =>
      if str_eqb k' k then (k', v) :: rest else (k', v') :: obj_replace rest k v
  end.

(** A new index key goes before the first string key or larger index. *)
Fixpoint obj_insert_index (fields : list (str * JSON)) (n : N) (k : str) (v : JSON) :=
  match fields with
  | [] => [(k, v)]
  | (k', v') :: rest =>
      match array_index k' with
      | Some n' =>
          if (n <? n')%N then (k, v) :: fields
          else (k', v') :: obj_insert_index rest n k v
      | None => (k, v) :: fields
      end
  end.

(** Defining the own property [k] of an object. *)
Definition obj_define (fields : list (str * JSON)) (k : str) (v : JSON) :=
  if obj_has fields k then obj_replace fields k v
  else
    match array_index k with
    | Some n => obj_insert_index fields n k v
    | None => fields ++ [(k, v)]
    end.

(** [result[key] = value] on an object made by [{}]: the key [__proto__]
    reaches the prototype setter and defines no own property. *)
Definition obj_assign (fields : list (str * JSON)) (k : str) (v : JSON) :=
  if str_eqb k (lit "__proto__") then fields else obj_define fields k v.

(** ** [JSON.stringify(value, null, 2)] *)

Definition hex_digit (n : nat) : ascii := nth n (lit "0123456789abcdef") "0"%char.

(** QuoteJSONString, one code unit. *)
Definition quote_unit (c : ascii) : str :=
  let n := nat_of_ascii c in
  if n =? 8 then lit "\b"
  else if n =? 9 then lit "\t"
  else if n =? 10 then lit "\n"
  else if n =? 12 then lit "\f"
  else if n =? 13 then lit "\r"
  else if n =? 34 then ["\"%char; dq]
  else if n =? 92 then lit "\\"
  else if n <? 32 then lit "\u00" ++ [hex_digit (n / 16); hex_digit (n mod 16)]
  else [c].

Definition quoteJSON (s : str) : str := dq :: flat_map quote_unit s ++ [dq].

Definition newline : ascii := ascii_of_nat 10.

Fixpoint str_join (sep : str) (l : list str) : str :=
  match l with
  | [] => []
  | [a] => a
  | a :: l' => a ++ sep ++ str_join sep l'
  end.

Section JsonRewriter.

Context {rt : Runtime}.

Fixpoint stringify_at (indent : str) (v : JSON) : str :=
  let stepback := indent in
  let indent' := indent ++ lit "  " in
  let separator := lit "," ++ [newline] ++ indent' in
  match v with
  | JNull => lit "null"
  | JBool true => lit "true"
  | JBool false => lit "false"
  | JNumber n => Number_toString n
  | JString s => quoteJSON s
  | JArray [] => lit "[]"
  | JArray items =>
      lit "[" ++ [newline] ++ indent'
      ++ str_join separator (map (stringify_at indent') items)
      ++ [newline] ++ stepback ++ lit "]"
  | JObject [] => lit "{}"
  | JObject fields =>
      lit "{" ++ [newline] ++ indent'
      ++ str_join separator
           (map (fun '(k, x) => quoteJSON k ++ lit ": " ++ stringify_at indent' x)
                fields)
      ++ [newline] ++ stepback ++ lit "}"
  end.

Definition stringify2 (v : JSON) : str := stringify_at [] v.

(** [rewriteValue] of [rewriteJsonUrls], at a value that is neither an
    array nor an object. *)
Definition rewriteValue (bookBaseUrl : str) (value : JSON) : JSON :=
  match value with
  | JString s =>
      if startsWith (lit "http://") s || startsWith (lit "https://") s then
        match getLocalPath s bookBaseUrl with
        | Some (c :: p) => JString (c :: p)
        | None | Some [] => value
        end
      else value
  | _ => value
  end.

Fixpoint rewriteObject (bookBaseUrl : str) (obj : JSON) : JSON :=
  match obj with
  | JArray items => JArray (map (rewriteObject bookBaseUrl) items)
  | JObject fields =>
      JObject (fold_left
                 (fun result '(key, value) =>
                    obj_assign result key (rewriteObject bookBaseUrl value))
                 fields [])
  | _ => rewriteValue bookBaseUrl obj
  end.

(** [rewriteJsonUrls(content, baseUrl, bookInfo)], with [bookInfo.baseUrl]
    for the record; the second parameter is unused. *)
Definition rewriteJsonUrls (content baseUrl bookBaseUrl : str) : str :=
  match JSON_parse content with
  | Some json => stringify2 (rewriteObject bookBaseUrl json)
  | None => content
  end.

End JsonRewriter.

(** ** Values the pass leaves as they are *)

(** A string value the pass has no reason to touch. *)
Definition not_http (s : str) : bool :=
  negb (startsWith (lit "http://") s || startsWith (lit "https://") s).

(** Rebuilding an object by assigning its fields, in order, to [{}]. *)
Definition rebuild (fields : list (str * JSON)) : list (str * JSON) :=
  fold_left (fun result '(key, value) => obj_assign result key value) fields [].

(** No string is an absolute http(s) URL, and every object is in the
    property order assignment gives it. *)
Fixpoint settled (v : JSON) : Prop :=
  match v with
  | JString s => not_http s = true
  | JArray items => fold_right (fun x acc => settled x /\ acc) True items
  | JObject fields =>
      rebuild fields = fields
      /\ fold_right (fun '(_, x) acc => settled x /\ acc) True fields
  | _ => True
  end.

(* ================================================================== *)
(** * The network and the disk

    A [fetchUrl] call is an event of the environment: the network answers
    the [n]-th call of a run with a response or with the message of the
    error the promise is rejected with.  The disk is the set of paths that
    exist; every write succeeds. *)
(* ================================================================== *)

Record Config : Type := {
  maxRetries : nat;
  retryDelay : N;     (** milliseconds *)
  timeout : N;
  concurrentDownloads : nat
}.

Definition CONFIG : Config :=
  {| maxRetries := 3; retryDelay := 1000%N; timeout := 30000%N;
     concurrentDownloads := 5 |}.

Record Response : Type := { data : str; contentType : str }.

Definition Net : Type := nat -> str -> Response + str.

Record World : Type := {
  requests : list str;   (** the URLs given to [fetchUrl], oldest first *)
  delays : list N;       (** the timeouts awaited between attempts *)
  disk : list str        (** the paths that exist *)
}.

(** Sending a request: its number, and the world with the request logged. *)
Definition issue (targetUrl : str) (w : World) : nat * World :=
  (length (requests w),
   {| requests := requests w ++ [targetUrl]; delays := delays w; disk := disk w |}).

(** [await fetchUrl(targetUrl)] *)
Definition fetchUrl (net : Net) (targetUrl : str) (w : World)
  : (Response + str) * World :=
  let '(call, w1) := issue targetUrl w in (net call targetUrl, w1).

Definition sleep (ms : N) (w : World) : World :=
  {| requests := requests w; delays := delays w ++ [ms]; disk := disk w |}.

Definition existsSync (p : str) (w : World) : bool :=
  existsb (str_eqb p) (disk w).

Definition touch (p : str) (w : World) : World :=
  if existsSync p w then w
  else {| requests := requests w; delays := delays w; disk := disk w ++ [p] |}.

(** A directory and the directories above it. *)
Fixpoint ancestors (fuel : nat) (d : str) : list str :=
  match fuel with
  | O => [d]
  | S fuel' =>
      let up := Path.dirname d in
      if str_eqb up d then [d] else ancestors fuel' up ++ [d]
  end.

(** [ensureDir(dirPath)]: [mkdirSync] with [recursive: true]. *)
Definition ensureDir (dirPath : str) (w : World) : World :=
  if existsSync dirPath w then w
  else fold_left (fun w' d => touch d w') (ancestors (length dirPath) dirPath) w.

(** [fs.writeFileSync(p, data)] *)
Definition writeFileSync (p : str) (w : World) : World := touch p w.

(** Every path of the first world exists in the second. *)
Definition grows (w w' : World) : Prop :=
  forall p, existsSync p w = true -> existsSync p w' = true.

(** How an awaited call ends. *)
Inductive Completion (A : Type) : Type :=
| Returned (v : A)
| Thrown (message : str).

Arguments Returned {A} v.
Arguments Thrown {A} message.

Section Retry.

Variable cfg : Config.
Variable net : Net.

(** The [for] loop of [fetchWithRetry] from iteration [i] on; [left] is
    [retries - i], the iterations the test [i < retries] still admits.
    Leaving the loop returns [undefined], here [None]. *)
Fixpoint retry_from (retries i left : nat) (targetUrl : str) (w : World)
  : Completion (option Response) * World :=
  match left with
  | O => (Returned None, w)
  | S left' =>
      let '(outcome, w1) := fetchUrl net targetUrl w in
      match outcome with
      | inl response => (Returned (Some response), w1)
      | inr error =>
          if i =? retries - 1 then (Thrown error, w1)
          else retry_from retries (i + 1) left' targetUrl
                 (sleep (retryDelay cfg * N.of_nat (i + 1))%N w1)
      end
  end.

(** [fetchWithRetry(targetUrl, options, retries)] *)
Definition fetchWithRetry (targetUrl : str) (retries : nat) (w : World)
  : Completion (option Response) * World :=
  retry_from retries 0 retries targetUrl w.

(** The delay awaited after the [k]-th failed attempt, counting from 1. *)
Definition backoff (k : nat) : N := (retryDelay cfg * N.of_nat k)%N.

End Retry.

(** A delay sequence grows exponentially when each delay is a fixed
    multiple, larger than one, of the delay before it. *)
Definition exponential (ds : list N) : Prop :=
  exists b, (1 < b)%N /\
    forall k, S k < length ds -> nth (S k) ds 0%N = (b * nth k ds 0%N)%N.

(* ================================================================== *)
(** * The page-sequence prober *)
(* ================================================================== *)

Section Prober.

Context {rt : Runtime}.
Variable cfg : Config.
Variable net : Net.

(** The [patterns] array of [downloadBookPages] for one page number. *)
Definition patterns (baseUrl : str) (pageNum : nat) : list str :=
  let n := nat_to_str pageNum in
  [ baseUrl ++ lit "files/mobile/" ++ n ++ lit ".jpg";
    baseUrl ++ lit "files/mobile/" ++ n ++ lit ".png";
    baseUrl ++ lit "files/large/" ++ n ++ lit ".jpg";
    baseUrl ++ lit "files/thumb/" ++ n ++ lit ".jpg";
    baseUrl ++ lit "mobile/" ++ n ++ lit ".jpg";
    baseUrl ++ n ++ lit ".jpg" ].

(** The body of the [try] for one pattern: [Some w'] when it reaches
    [break], [None] with the world the [catch] is entered in otherwise.
    [path.join(outputDir, null)] throws. *)
Definition try_pattern (baseUrl outputDir pattern : str) (w : World)
  : bool * World :=
  match fetchWithRetry cfg net pattern 1 w with
  | (Returned (Some response), w1) =>
      match getLocalPath pattern baseUrl with
      | Some localPath =>
          let fullPath := Path.join [outputDir; localPath] in
          (true, writeFileSync fullPath (ensureDir (Path.dirname fullPath) w1))
      | None => (false, w1)
      end
  | (Returned None, w1) => (false, w1)
  | (Thrown _, w1) => (false, w1)
  end.

(** The [for (const pattern of patterns)] loop: the pattern that was
    downloaded, if one was. *)
Fixpoint try_patterns (baseUrl outputDir : str) (ps : list str) (w : World)
  : option str * World :=
  match ps with
  | [] => (None, w)
  | pattern :: rest =>
      match try_pattern baseUrl outputDir pattern w with
      | (true, w1) => (Some pattern, w1)
      | (false, w1) => try_patterns baseUrl outputDir rest w1
      end
  end.

Definition maxPages : nat := 500.

(** The [while (pageNum <= maxPages)] loop; [left] is
    [maxPages + 1 - pageNum]. *)
Fixpoint probe_from (baseUrl outputDir : str) (pageNum left : nat)
  (downloadedPages : list str) (w : World) : list str * World :=
  match left with
  | O => (downloadedPages, w)
  | S left' =>
      match try_patterns baseUrl outputDir (patterns baseUrl pageNum) w with
      | (Some pattern, w1) =>
          probe_from baseUrl outputDir (pageNum + 1) left'
            (downloadedPages ++ [pattern]) w1
      | (None, w1) => (downloadedPages, w1)
      end
  end.

(** [downloadBookPages(bookInfo, outputDir)], with [bookInfo.baseUrl]
    for the record. *)
Definition downloadBookPages (baseUrl outputDir : str) (w : World)
  : list str * World :=
  let pagesDir := Path.join [outputDir; lit "files"; lit "mobile"] in
  probe_from baseUrl outputDir 1 maxPages [] (ensureDir pagesDir w).

End Prober.

(** ** An origin that does not change *)

Section SteadyOrigin.

Context {rt : Runtime}.

(** What the origin answers for a URL, whenever it is asked. *)
Variable origin : str -> Response + str.
Variable baseUrl : str.

(** The network of an origin that answers a URL the same way each time. *)
Definition steady : Net := fun _ u => origin u.

(** The origin serves the URL. *)
Definition served (u : str) : bool :=
  match origin u with inl _ => true | inr _ => false end.

(** The classifier gives the URL a local path. *)
Definition classifiable (u : str) : bool :=
  match getLocalPath u baseUrl with Some _ => true | None => false end.

(** The templates requested for one page: those before the first one the
    origin serves, and that one. *)
Fixpoint tried (ps : list str) : list str :=
  match ps with
  | [] => []
  | p :: rest => if served p then [p] else p :: tried rest
  end.

(** The first template the origin serves. *)
Definition first_served (ps : list str) : str :=
  match find served ps with Some p => p | None => [] end.

End SteadyOrigin.

(* ================================================================== *)
(** * Downloading one asset *)
(* ================================================================== *)

Inductive Status : Type := Downloaded | Cached | Failed.

(** The object [downloadAsset] resolves to. *)
Record Result : Type := {
  r_url : nstr;
  r_localPath : option str;
  r_status : Status;
  r_error : option str;
  r_additionalAssets : option (list nstr)
}.

(** The text a nullable string contributes where a string is expected. *)
Definition url_text (a : nstr) : str :=
  match a with Some u => u | None => lit "null" end.

(** Reading [response.data] when [response] is [undefined]. *)
Definition undefined_data : str :=
  lit "Cannot read properties of undefined (reading 'data')".

Section DownloadAsset.

Context {rt : Runtime}.
Variable cfg : Config.
Variable net : Net.
Variables outputDir baseUrl : str.

(** Where the synchronous head of [downloadAsset] leaves the call: already
    resolved, or about to fetch. *)
Inductive Begin : Type :=
| Finished (result : option Result)
| Fetch (localPath fullPath : str).

Definition downloadAsset_begin (assetUrl : nstr) (w : World) : Begin :=
  match getLocalPath (url_text assetUrl) baseUrl with
  | None | Some [] => Finished None
  | Some localPath =>
      let fullPath := Path.join [outputDir; localPath] in
      if existsSync fullPath w then
        Finished (Some {| r_url := assetUrl; r_localPath := Some localPath;
                          r_status := Cached; r_error := None;
                          r_additionalAssets := None |})
      else Fetch localPath fullPath
  end.

(** The rest of the [try] block once the response is there. *)
Definition downloadAsset_store (assetUrl : nstr) (localPath fullPath : str)
  (response : Response) (w : World) : Result * World :=
  let w1 := writeFileSync fullPath (ensureDir (Path.dirname fullPath) w) in
  if endsWith (lit ".css") localPath then
    let cssAssets := extractCssAssets (data response) (url_text assetUrl) in
    ({| r_url := assetUrl; r_localPath := Some localPath;
        r_status := Downloaded; r_error := None;
        r_additionalAssets := Some cssAssets |}, w1)
  else
    ({| r_url := assetUrl; r_localPath := Some localPath;
        r_status := Downloaded; r_error := None;
        r_additionalAssets := None |}, w1).

(** The [catch] of [downloadAsset]. *)
Definition downloadAsset_failed (assetUrl : nstr) (message : str) : Result :=
  {| r_url := assetUrl; r_localPath := None; r_status := Failed;
     r_error := Some message; r_additionalAssets := None |}.

(** [await downloadAsset(assetUrl, outputDir, baseUrl, downloaded)], run
    on its own; the fourth parameter is unused. *)
Definition downloadAsset (assetUrl : nstr) (w : World) : option Result * World :=
  match downloadAsset_begin assetUrl w with
  | Finished result => (result, w)
  | Fetch localPath fullPath =>
      match fetchWithRetry cfg net (url_text assetUrl) (maxRetries cfg) w with
      | (Returned (Some response), w1) =>
          let '(result, w2) :=
            downloadAsset_store assetUrl localPath fullPath response w1 in
          (Some result, w2)
      | (Returned None, w1) =>
          (Some (downloadAsset_failed assetUrl undefined_data), w1)
      | (Thrown message, w1) =>
          (Some (downloadAsset_failed assetUrl message), w1)
      end
  end.

End DownloadAsset.

(* ================================================================== *)
(** * The download scheduler

    [downloadAssetsWithConcurrency] runs on one thread: the inner [while]
    loop admits assets without interruption, and while the outer loop
    awaits [Promise.race(inProgress)] the event loop delivers fetch
    completions and timer expiries to the calls in flight and runs their
    [then] callbacks.  The machine below has these as its events and lets
    them come in any order, which covers every order the event loop can
    produce. *)
(* ================================================================== *)

(** Where a [downloadAsset] call in flight stands. *)
Inductive Phase : Type :=
| Fetching (localPath fullPath : str) (i call : nat)
    (** attempt [i] of [fetchWithRetry] is the request number [call] *)
| Sleeping (localPath fullPath : str) (i : nat)
    (** the timeout after the failed attempt [i] is pending *)
| Settled (result : option Result).
    (** resolved; the [then] callback has not run yet *)

(** A promise of [inProgress]. *)
Record Task : Type := { t_id : nat; t_url : nstr; t_phase : Phase }.

Record Sched : Type := {
  queue : list nstr;
  inProgress : list Task;
  downloaded : list nstr;
  results : list Result;
  started : list nstr;  (** the argument of every [downloadAsset] call so far *)
  world : World
}.

Inductive Event : Type :=
| Fill                  (** one iteration of the inner [while] loop *)
| FetchDone (id : nat)  (** the request of call [id] is answered *)
| TimerDone (id : nat)  (** the timeout of call [id] expires *)
| Then (id : nat).      (** the [then] callback of call [id] runs *)

Section Scheduler.

Context {rt : Runtime}.
Variable cfg : Config.
Variable net : Net.
Variables outputDir baseUrl : str.

Definition init (assets : list nstr) (w : World) : Sched :=
  {| queue := assets; inProgress := []; downloaded := []; results := [];
     started := []; world := w |}.

(** Entering iteration [i] of the retry loop of a call. *)
Definition enter_attempt (assetUrl : nstr) (localPath fullPath : str) (i : nat)
  (w : World) : Phase * World :=
  if i <? maxRetries cfg then
    let '(call, w1) := issue (url_text assetUrl) w in
    (Fetching localPath fullPath i call, w1)
  else (Settled (Some (downloadAsset_failed assetUrl undefined_data)), w).

(** [downloadAsset(asset, ...)] up to its first suspension. *)
Definition start_call (asset : nstr) (w : World) : Phase * World :=
  match downloadAsset_begin outputDir baseUrl asset w with
  | Finished result => (Settled result, w)
  | Fetch localPath fullPath => enter_attempt asset localPath fullPath 0 w
  end.

Definition truthy (a : nstr) : bool := negb (falsy a).

(** The body of the [then] callback after [inProgress.delete(promise)]. *)
Definition on_result (result : option Result) (s : Sched) : Sched :=
  match result with
  | None => s
  | Some r =>
      let more :=
        match r_additionalAssets r with
        | Some l => filter (fun a => truthy a && negb (set_has a (downloaded s))) l
        | None => []
        end in
      {| queue := queue s ++ more; inProgress := inProgress s;
         downloaded := downloaded s; results := results s ++ [r];
         started := started s; world := world s |}
  end.

Definition find_task (id : nat) (l : list Task) : option Task :=
  find (fun t => t_id t =? id) l.

Definition set_phase (id : nat) (ph : Phase) (l : list Task) : list Task :=
  map (fun t => if t_id t =? id
                then {| t_id := id; t_url := t_url t; t_phase := ph |} else t) l.

Definition remove_task (id : nat) (l : list Task) : list Task :=
  filter (fun t => negb (t_id t =? id)) l.

Definition update (s : Sched) (id : nat) (ph : Phase) (w : World) : Sched :=
  {| queue := queue s; inProgress := set_phase id ph (inProgress s);
     downloaded := downloaded s; results := results s;
     started := started s; world := w |}.

(** One event; [None] when the event cannot happen in the state. *)
Definition step (s : Sched) (e : Event) : option Sched :=
  match e with
  | Fill =>
      match queue s with
      | [] => None
      | asset :: rest =>
          if length (inProgress s) <? concurrentDownloads cfg then
            if set_has asset (downloaded s) then
              Some {| queue := rest; inProgress := inProgress s;
                      downloaded := downloaded s; results := results s;
                      started := started s; world := world s |}
            else
              let '(ph, w1) := start_call asset (world s) in
              let promise :=
                {| t_id := length (started s); t_url := asset; t_phase := ph |} in
              Some {| queue := rest; inProgress := inProgress s ++ [promise];
                      downloaded := set_add (downloaded s) asset;
                      results := results s;
                      started := started s ++ [asset]; world := w1 |}
          else None
      end
  | FetchDone id =>
      match find_task id (inProgress s) with
      | Some {| t_url := asset; t_phase := Fetching localPath fullPath i call |} =>
          match net call (url_text asset) with
          | inl response =>
              let '(r, w1) :=
                downloadAsset_store asset localPath fullPath response (world s) in
              Some (update s id (Settled (Some r)) w1)
          | inr message =>
              if i =? maxRetries cfg - 1 then
                Some (update s id
                        (Settled (Some (downloadAsset_failed asset message)))
                        (world s))
              else
                Some (update s id (Sleeping localPath fullPath i)
                        (sleep (retryDelay cfg * N.of_nat (i + 1))%N (world s)))
          end
      | _ => None
      end
  | TimerDone id =>
      match find_task id (inProgress s) with
      | Some {| t_url := asset; t_phase := Sleeping localPath fullPath i |} =>
          let '(ph, w1) := enter_attempt asset localPath fullPath (i + 1) (world s) in
          Some (update s id ph w1)
      | _ => None
      end
  | Then id =>
      match find_task id (inProgress s) with
      | Some {| t_phase := Settled result |} =>
          Some (on_result result
                  {| queue := queue s; inProgress := remove_task id (inProgress s);
                     downloaded := downloaded s; results := results s;
                     started := started s; world := world s |})
      | _ => None
      end
  end.

Fixpoint run (s : Sched) (evs : list Event) : option Sched :=
  match evs with
  | [] => Some s
  | e :: rest =>
      match step s e with
      | Some s' => run s' rest
      | None => None
      end
  end.

(** The test of the outer [while] loop fails. *)
Definition final (s : Sched) : Prop := queue s = [] /\ inProgress s = [].

(** The fetches in flight. *)
Definition is_fetching (t : Task) : bool :=
  match t_phase t with Fetching _ _ _ _ => true | _ => false end.

Definition in_flight (s : Sched) : nat := length (filter is_fetching (inProgress s)).

(** ** The loop of [downloadAssetsWithConcurrency] *)

(** The inner [while] loop: iterations until the queue is empty or
    [inProgress] is full; [n] is the length of the queue on entry. *)
Fixpoint fill (n : nat) (s : Sched) : Sched :=
  match n with
  | O => s
  | S n' =>
      match step s Fill with
      | Some s' => fill n' s'
      | None => s
      end
  end.

Definition awaited (e : Event) : bool :=
  match e with Fill => false | _ => true end.

Definition is_then (e : Event) : bool :=
  match e with Then _ => true | _ => false end.

(** [queue.length > 0 || inProgress.size > 0] *)
Definition loop_test (s : Sched) : bool :=
  negb (length (queue s) =? 0) || negb (length (inProgress s) =? 0).

(** The outer [while] loop.  [rounds] is the schedule of the environment:
    for each [await Promise.race(inProgress)], the events delivered until
    the loop resumes, among them the [then] callback of at least one call.
    [None] when the schedule ends before the loop does, when it names an
    event that cannot happen, or when the loop spins with nothing to
    await. *)
Fixpoint main_loop (rounds : list (list Event)) (s : Sched) : option Sched :=
  if loop_test s then
    let s1 := fill (length (queue s)) s in
    match inProgress s1 with
    | [] => if loop_test s1 then None else Some s1
    | _ :: _ =>
        match rounds with
        | [] => None
        | evs :: rest =>
            if forallb awaited evs && existsb is_then evs then
              match run s1 evs with
              | Some s2 => main_loop rest s2
              | None => None
              end
            else None
        end
    end
  else Some s.

(** [downloadAssetsWithConcurrency(assets, outputDir, baseUrl)] under a
    schedule: the results, and the world it leaves. *)
Definition downloadAssetsWithConcurrency (assets : list nstr)
  (rounds : list (list Event)) (w : World) : option (list Result * World) :=
  match main_loop rounds (init assets w) with
  | Some s => Some (results s, world s)
  | None => None
  end.

(** ** The invariant of the scheduler *)

(** A call in flight was started for its URL, and a settled call carries
    the result for that URL. *)
Definition task_wf (log : list nstr) (t : Task) : Prop :=
  nth_error log (t_id t) = Some (t_url t)
  /\ match t_phase t with
     | Settled (Some r) => r_url r = t_url t
     | _ => True
     end.

(** The URLs with an outcome or a call in flight. *)
Definition accounted (s : Sched) : list nstr :=
  map r_url (results s) ++ map t_url (inProgress s).

(** What every state of a run from the frontier [assets] satisfies. *)
Record Inv (assets : list nstr) (s : Sched) : Prop := {
  inv_cap : length (inProgress s) <= concurrentDownloads cfg;
  inv_started : NoDup (started s);
  inv_downloaded : forall u, In u (downloaded s) <-> In u (started s);
  inv_frontier : forall u, In u assets -> In u (queue s) \/ In u (started s);
  inv_discovered :
    forall r l a, In r (results s) -> r_additionalAssets r = Some l ->
      In a l -> truthy a = true -> In a (queue s) \/ In a (started s);
  inv_ids : NoDup (map t_id (inProgress s));
  inv_tasks : Forall (task_wf (started s)) (inProgress s);
  inv_accounted : NoDup (accounted s);
  inv_known : incl (accounted s) (started s)
}.

(** The phase a call for [asset] may take. *)
Definition phase_for (asset : nstr) (ph : Phase) : Prop :=
  match ph with
  | Settled (Some r) => r_url r = asset
  | _ => True
  end.

End Scheduler.

(** Equality of nullable strings is decidable. *)
Definition nstr_dec (a b : nstr) : {a = b} + {a <> b}.
Proof. decide equality. apply str_dec. Defined.

(* ================================================================== *)
(** * Cache hits and files on disk *)
(* ================================================================== *)

(** The result of a cache hit. *)
Definition cached_result (assetUrl : nstr) (localPath : str) : Result :=
  {| r_url := assetUrl; r_localPath := Some localPath; r_status := Cached;
     r_error := None; r_additionalAssets := None |}.

(** A result that is absent, or a cache hit. *)
Definition quiet (result : option Result) : Prop :=
  match result with
  | None => True
  | Some r => r_status r = Cached /\ r_additionalAssets r = None
  end.

(** The scheduler over a frontier of assets that all settle at once. *)
Record Idle (assets : list nstr) (w0 : World) (s : Sched) : Prop := {
  idle_world : world s = w0;
  idle_queue : incl (queue s) assets;
  idle_tasks :
    Forall (fun t => exists result, t_phase t = Settled result /\ quiet result)
      (inProgress s);
  idle_results : Forall (fun r => quiet (Some r)) (results s)
}.

Section OnDisk.

Context {rt : Runtime}.
Variables outputDir baseUrl : str.

(** [downloadAsset] resolves before it fetches anything. *)
Definition settles_at_once (asset : nstr) (w : World) : bool :=
  match downloadAsset_begin outputDir baseUrl asset w with Finished _ => true | Fetch _ _ => false end.

(** The asset has the non-empty local path [lp]. *)
Definition classified (asset : nstr) (lp : str) : Prop :=
  getLocalPath (url_text asset) baseUrl = Some lp /\ lp <> [].

(** The asset has no local path, or an empty one. *)
Definition unclassified (asset : nstr) : Prop :=
  falsy (getLocalPath (url_text asset) baseUrl) = true.

(** A result that is not a failure has its file on disk. *)
Definition stored (w : World) (r : Result) : Prop :=
  r_status r = Failed
  \/ exists lp, classified (r_url r) lp
                /\ existsSync (Path.join [outputDir; lp]) w = true.

(** What a call in flight for [asset] carries, by phase. *)
Definition phase_stored (w : World) (asset : nstr) (ph : Phase) : Prop :=
  match ph with
  | Fetching lp fp _ _ | Sleeping lp fp _ =>
      classified asset lp /\ fp = Path.join [outputDir; lp]
  | Settled (Some r) => r_url r = asset /\ stored w r
  | Settled None => unclassified asset
  end.

(** What every state of a run satisfies about files and outcomes. *)
Record Kept (s : Sched) : Prop := {
  kept_tasks :
    Forall (fun t => phase_stored (world s) (t_url t) (t_phase t)) (inProgress s);
  kept_results : Forall (stored (world s)) (results s);
  kept_started :
    forall u, In u (started s) -> unclassified u \/ In u (accounted s)
}.

End OnDisk.

(* ================================================================== *)
(** * The book URL *)
(* ================================================================== *)

(** The object [parseFlipHTML5Url] returns. *)
Record BookInfo : Type := {
  b_host : str;
  b_protocol : str;
  bookId1 : str;
  bookId2 : str;
  b_baseUrl : str
}.

(** How [parseFlipHTML5Url] ends: with the book, with the [TypeError] of
    [new URL], or with the [Error] it throws itself. *)
Inductive Parsed : Type :=
| Book (info : BookInfo)
| InvalidURL
| InvalidFormat (message : str).

Section BookUrl.

Context {rt : Runtime}.

(** [pathname.split('/').filter(p => p)] *)
Definition path_parts (pathname : str) : list str :=
  filter (fun p => negb (str_eqb p [])) (Path.split_slash pathname).

(** [parseFlipHTML5Url(bookUrl)] *)
Definition parseFlipHTML5Url (bookUrl : str) : Parsed :=
  match new_URL bookUrl None with
  | None => InvalidURL
  | Some urlObj =>
      match path_parts (pathname urlObj) with
      | p0 :: p1 :: _ =>
          Book {| b_host := host urlObj;
                  b_protocol := protocol urlObj;
                  bookId1 := p0;
                  bookId2 := p1;
                  b_baseUrl := protocol urlObj ++ lit "//" ++ host urlObj
                               ++ lit "/" ++ p0 ++ lit "/" ++ p1 ++ lit "/" |}
      | _ => InvalidFormat (lit "Invalid FlipHTML5 URL format: " ++ bookUrl)
      end
  end.

End BookUrl.

(* ================================================================== *)
(** * The configuration files of a book *)
(* ================================================================== *)

Section ConfigExtractor.

Context {rt : Runtime}.

Import Regex.

Definition not_dq : ascii -> bool := none_of [dq].

(** [/\x22([^\x22]+\.(?:e1|e2|...))\x22/gi] *)
Definition quotedPath (exts : list Regex.t) : regexp :=
  gi (cats [ Chr dq; Grp 1 (cats [Plus not_dq; dot_ext exts]); Chr dq ]).

(** [/\x22([^\x22]+\/dir\/[^\x22]+)\x22/gi] *)
Definition quotedUnder (dir : String.string) : regexp :=
  gi (cats [ Chr dq;
             Grp 1 (cats [ Plus not_dq; word (lit "/" ++ lit dir ++ lit "/");
                           Plus not_dq ]);
             Chr dq ]).

(** The [pathPatterns] of [extractBookConfigAssets]. *)
Definition pathPatterns : list regexp :=
  [ quotedPath [w "jpg"; w "jpeg"; w "png"; w "gif"; w "svg"; w "webp"];
    quotedPath [w "mp3"; w "mp4"; w "webm"; w "ogg"];
    quotedPath [w "json"; w "xml"];
    quotedUnder "files";
    quotedUnder "mobile";
    quotedUnder "large" ].

(** The body of the [while] loop, for [assetPath = match[1]]. *)
Definition addConfigPath (baseUrl : str) (assets : list nstr) (assetPath : str)
  : list nstr :=
  if negb (startsWith (lit "data:") assetPath)
     && negb (startsWith (lit "http") assetPath) then
    match resolveUrl assetPath baseUrl with
    | Some (c :: resolved) => set_add assets (Some (c :: resolved))
    | Some [] | None => assets
    end
  else if startsWith (lit "http") assetPath then set_add assets (Some assetPath)
  else assets.

(** The [while ((match = pattern.exec(content)) !== null)] loop of one
    pattern. *)
Definition collectConfig (content baseUrl : str) (assets : list nstr)
  (pattern : regexp) : list nstr :=
  fold_left (fun acc '(_, caps) => addConfigPath baseUrl acc (group 1 caps))
    (matchAll pattern content) assets.

(** [extractBookConfigAssets(content, baseUrl)]; the arrays
    [configPatterns] and [basePathPatterns] are built and never read. *)
Definition extractBookConfigAssets (content baseUrl : str) : list nstr :=
  fold_left (collectConfig content baseUrl) pathPatterns [].

End ConfigExtractor.

Section ConfigFiles.

Context {rt : Runtime}.
Variable cfg : Config.
Variable net : Net.

(** The [configPaths] of [downloadFlipbookConfigs]. *)
Definition configPaths : list str :=
  [ lit "bookConfig.js"; lit "config.js"; lit "book.json"; lit "config.json";
    lit "setting.json"; lit "pages.json"; lit "spine.json"; lit "manifest.json";
    lit "files/config.json"; lit "files/setting.json"; lit "mobile/config.json" ].

(** One iteration of the [for] loop: the [try] block up to the point it
    ends or throws.  [new URL] may throw, the single attempt of
    [fetchWithRetry] may throw, and [path.join(outputDir, null)] throws. *)
Definition try_config (baseUrl outputDir : str) (state : list nstr * World)
  (configPath : str) : list nstr * World :=
  let '(configAssets, w0) := state in
  match new_URL configPath (Some baseUrl) with
  | None => (configAssets, w0)
  | Some u =>
      let configUrl := href u in
      match fetchWithRetry cfg net configUrl 1 w0 with
      | (Returned (Some response), w1) =>
          match getLocalPath configUrl baseUrl with
          | Some localPath =>
              let fullPath := Path.join [outputDir; localPath] in
              let w2 := writeFileSync fullPath (ensureDir (Path.dirname fullPath) w1) in
              let assets := extractBookConfigAssets (data response) configUrl in
              (fold_left set_add assets configAssets, w2)
          | None => (configAssets, w1)
          end
      | (Returned None, w1) => (configAssets, w1)
      | (Thrown _, w1) => (configAssets, w1)
      end
  end.

(** [downloadFlipbookConfigs(bookInfo, outputDir)], with [bookInfo.baseUrl]
    for the record. *)
Definition downloadFlipbookConfigs (baseUrl outputDir : str) (w : World)
  : list nstr * World :=
  fold_left (try_config baseUrl outputDir) configPaths ([], w).

(** The URLs of the candidates [new URL] accepts, in order. *)
Definition configUrls (baseUrl : str) : list str :=
  flat_map (fun configPath =>
              match new_URL configPath (Some baseUrl) with
              | Some u => [href u]
              | None => []
              end) configPaths.

End ConfigFiles.

(* ================================================================== *)
(** * The rewriter for JavaScript files *)
(* ================================================================== *)

Section JsRewriter.

Context {rt : Runtime}.

Import Regex.

(** [[^\x22'\s]] *)
Definition not_quote_space (x : ascii) : bool := not_quote x && negb (white x).

(** [.] without the [s] flag: any code unit but a line terminator. *)
Definition any_char (x : ascii) : bool :=
  let n := nat_of_ascii x in negb ((n =? 10) || (n =? 13)).

(** The syntax characters of a pattern. *)
Definition syntax_char : ascii -> bool :=
  one_of ["^"; "$"; "\"; "."; "*"; "+"; "?"; "("; ")"; "["; "]"; "{"; "}"; "|"]%char.

(** What [bookInfo.host] spells where the template literal puts it into
    the source of [new RegExp]: a dot is the wildcard, and a code unit that
    is no syntax character stands for itself.  [None] for a host that holds
    another syntax character: the pattern the constructor makes of it, or
    the [SyntaxError] it throws, is outside this development. *)
Fixpoint hostSource (host : str) : option Regex.t :=
  match host with
  | [] => Some Eps
  | c :: rest =>
      match hostSource rest with
      | None => None
      | Some r =>
          if Ascii.eqb c "."%char then Some (Cat (Cls any_char) r)
          else if syntax_char c then None
          else Some (Cat (Chr c) r)
      end
  end.

(** [https?:\/\/] *)
Definition httpScheme : Regex.t :=
  Cat (w "http") (Cat (Opt (chr_match true "s")) (w "://")).

(** [\/[^\x22'\s]+] *)
Definition urlTail : Regex.t := Cat (Chr "/") (Plus not_quote_space).

(** The [domainPatterns] of [rewriteJsUrls]:
    [new RegExp(`https?://${bookInfo.host}/[^\x22'\\s]+`, 'gi')],
    [/https?:\/\/(?:online\.)?fliphtml5\.com\/[^\x22'\s]+/gi] and
    [/https?:\/\/cdn\.fliphtml5\.com\/[^\x22'\s]+/gi]. *)
Definition domainPatterns (host : str) : option (list regexp) :=
  match hostSource host with
  | None => None
  | Some h =>
      Some [ gi (Cat httpScheme (Cat h urlTail));
             gi (Cat httpScheme
                   (Cat (Alt (w "online.") Eps) (Cat (w "fliphtml5.com") urlTail)));
             gi (Cat httpScheme (Cat (w "cdn.fliphtml5.com") urlTail)) ]
  end.

(** The replacer: [localPath || match]. *)
Definition rewriteJsMatch (bookBaseUrl : str) (whole : str) (_ : captures) : str :=
  match getLocalPath whole bookBaseUrl with
  | Some (c :: localPath) => c :: localPath
  | Some [] | None => whole
  end.

(** [rewriteJsUrls(content, baseUrl, bookInfo)], with [bookInfo.host] and
    [bookInfo.baseUrl] for the record; the second parameter is unused. *)
Definition rewriteJsUrls (content baseUrl host bookBaseUrl : str) : option str :=
  match domainPatterns host with
  | None => None
  | Some patterns =>
      Some (fold_left
              (fun rewritten pattern =>
                 replace pattern (rewriteJsMatch bookBaseUrl) rewritten)
              patterns content)
  end.

End JsRewriter.

(* ================================================================== *)
(** * The report *)
(* ================================================================== *)

Definition status_eqb (a b : Status) : bool :=
  match a, b with
  | Downloaded, Downloaded | Cached, Cached | Failed, Failed => true
  | _, _ => false
  end.

(** The [stats] object of [downloadFlipHTML5Book]. *)
Record Stats : Type := {
  st_downloaded : nat;
  st_cached : nat;
  st_failed : nat;
  st_pages : nat;
  st_files : list str
}.

(** [results.filter(r => r.status === status).length] *)
Definition count_status (status : Status) (results : list Result) : nat :=
  length (filter (fun r => status_eqb (r_status r) status) results).

(** [results.filter(r => r.localPath).map(r => r.localPath)] *)
Definition listed_files (results : list Result) : list str :=
  map (fun r => match r_localPath r with Some p => p | None => [] end)
      (filter (fun r => truthy (r_localPath r)) results).

Definition stats (results : list Result) (pageImages : list str) : Stats :=
  {| st_downloaded := count_status Downloaded results;
     st_cached := count_status Cached results;
     st_failed := count_status Failed results;
     st_pages := length pageImages;
     st_files := listed_files results |}.

Section Shapes.

Context {rt : Runtime}.
Variable baseUrl : str.

(** A failure carries no local path; any other result carries the local
    path of its URL, which is not empty. *)
Definition shaped (r : Result) : Prop :=
  match r_status r with
  | Failed => r_localPath r = None
  | Downloaded | Cached =>
      r_localPath r = getLocalPath (url_text (r_url r)) baseUrl
      /\ truthy (r_localPath r) = true
  end.

Definition phase_shaped (asset : nstr) (ph : Phase) : Prop :=
  match ph with
  | Fetching lp _ _ _ | Sleeping lp _ _ =>
      getLocalPath (url_text asset) baseUrl = Some lp /\ lp <> []
  | Settled (Some r) => shaped r
  | Settled None => True
  end.

Record Shaped (s : Sched) : Prop := {
  shaped_tasks :
    Forall (fun t => phase_shaped (t_url t) (t_phase t)) (inProgress s);
  shaped_results : Forall shaped (results s)
}.

End Shapes.

(** ** The request budget of the scheduler *)

Section RequestBudget.

Variable cfg : Config.

(** The attempts a call in flight has not used yet. *)
Definition slack (t : Task) : nat :=
  match t_phase t with
  | Fetching _ _ i _ | Sleeping _ _ i => maxRetries cfg - S i
  | Settled _ => 0
  end.

(** Since the world [w0], the requests sent and the attempts the calls in
    flight have left are within [maxRetries] per call started, and every
    request sent is for a URL given to [downloadAsset]. *)
Record Budget (w0 : World) (s : Sched) : Prop := {
  budget_total :
    length (requests (world s)) + list_sum (map slack (inProgress s))
    <= length (requests w0) + maxRetries cfg * length (started s);
  budget_urls :
    exists new,
      requests (world s) = requests w0 ++ new
      /\ incl new (map url_text (started s))
}.

End RequestBudget.

(** ** Where the URLs of the scheduler come from *)

(** A URL of the frontier, or a truthy URL in the list a result reports. *)
Definition sourced (assets : list nstr) (results : list Result) (u : nstr) : Prop :=
  In u assets
  \/ exists r l, In r results /\ r_additionalAssets r = Some l
                 /\ In u l /\ truthy u = true.

Record Sourced (assets : list nstr) (s : Sched) : Prop := {
  sourced_queue : forall u, In u (queue s) -> sourced assets (results s) u;
  sourced_started : forall u, In u (started s) -> sourced assets (results s) u
}.

(** ** Failures against an origin that does not change *)

Section Honest.

Variable origin : str -> Response + str.

(** The origin rejects the request for the URL. *)
Definition rejected (u : nstr) : Prop :=
  exists message, origin (url_text u) = inr message.

(** A result that is a failure is for a URL the origin rejects. *)
Definition honest (r : Result) : Prop := r_status r = Failed -> rejected (r_url r).

Definition phase_honest (asset : nstr) (ph : Phase) : Prop :=
  match ph with
  | Fetching _ _ _ _ => True
  | Sleeping _ _ _ => rejected asset
  | Settled (Some r) => honest r
  | Settled None => True
  end.

Record Honest (s : Sched) : Prop := {
  honest_tasks :
    Forall (fun t => phase_honest (t_url t) (t_phase t)) (inProgress s);
  honest_results : Forall honest (results s)
}.

End Honest.

(** Every object of the value has distinct keys, none of them
    [__proto__]. *)
Fixpoint plain_keys (v : JSON) : Prop :=
  match v with
  | JArray items => fold_right (fun x acc => plain_keys x /\ acc) True items
  | JObject fields =>
      NoDup (map fst fields)
      /\ ~ In (lit "__proto__") (map fst fields)
      /\ fold_right (fun '(_, x) acc => plain_keys x /\ acc) True fields
  | _ => True
  end.

(* ================================================================== *)
(** * A reference runtime

    The instance the concrete examples run on.  Its URL parser follows the
    WHATWG URL Standard on [http] and [https] URLs of printable ASCII that
    need no percent-encoding, host rewriting or port elision, and treats
    any other scheme as one with an opaque path.  Its JSON parser follows
    ECMA-404; code units above 255 are outside the embedding. *)
(* ================================================================== *)

Module Reference.

Definition lower (c : ascii) : ascii :=
  let n := nat_of_ascii c in
  if (65 <=? n) && (n <=? 90) then ascii_of_nat (n + 32) else c.

Definition is_alpha (c : ascii) : bool :=
  let n := nat_of_ascii (lower c) in (97 <=? n) && (n <=? 122).

Definition is_scheme_char (c : ascii) : bool :=
  is_alpha c || is_digit c || Regex.one_of ["+"; "-"; "."]%char c.

(** The scheme of an absolute reference, lower-cased, and what follows
    the colon. *)
Definition take_scheme (s : str) : option (str * str) :=
  match s with
  | c :: _ =>
      if is_alpha c then
        match drop_while is_scheme_char s with
        | ":"%char :: rest => Some (map lower (take_while is_scheme_char s), rest)
        | _ => None
        end
      else None
  | [] => None
  end.

Definition is_special (scheme : str) : bool :=
  str_eqb scheme (lit "http") || str_eqb scheme (lit "https").

(** A parsed URL: the path of a special URL is its list of segments. *)
Record parts : Type := {
  p_scheme : str;
  p_host : str;
  p_opaque : bool;
  p_path : list str;
  p_query : option str;
  p_fragment : option str
}.

(** Path state: [.] and [..] segments are resolved as they are read. *)
Fixpoint shorten (stack : list str) (segs : list str) : list str :=
  match segs with
  | [] => stack
  | seg :: rest =>
      let last := match rest with [] => true | _ => false end in
      if str_eqb seg (lit "..") then
        shorten (if last then [] :: tl stack else tl stack) rest
      else if str_eqb seg (lit ".") then
        shorten (if last then [] :: stack else stack) rest
      else shorten (seg :: stack) rest
  end.

Definition not_query_or_hash (c : ascii) : bool := Regex.none_of ["?"; "#"]%char c.
Definition not_hash (c : ascii) : bool := Regex.none_of ["#"]%char c.
Definition not_path_end (c : ascii) : bool := Regex.none_of ["/"; "?"; "#"]%char c.

(** The query and the fragment of what follows a path. *)
Definition tail_query (s : str) : option str :=
  match s with
  | "?"%char :: q => Some (take_while not_hash q)
  | _ => None
  end.

Definition tail_fragment (s : str) : option str :=
  match drop_while not_hash s with
  | "#"%char :: f => Some f
  | _ => None
  end.

(** The segments of a path string that starts at its first slash. *)
Definition path_segments (p : str) : list str :=
  match p with
  | "/"%char :: p' => Path.split_slash p'
  | _ => Path.split_slash p
  end.

Definition parse_after_scheme (scheme rest : str) : option parts :=
  if is_special scheme then
    let authority_on := drop_while Path.is_slash rest in
    let host := map lower (take_while not_path_end authority_on) in
    let after_host := drop_while not_path_end authority_on in
    let path := take_while not_query_or_hash after_host in
    let after_path := drop_while not_query_or_hash after_host in
    match host with
    | [] => None
    | _ =>
        Some {| p_scheme := scheme; p_host := host; p_opaque := false;
                p_path := rev (shorten [] (path_segments path));
                p_query := tail_query after_path;
                p_fragment := tail_fragment after_path |}
    end
  else
    let path := take_while not_query_or_hash rest in
    let after_path := drop_while not_query_or_hash rest in
    Some {| p_scheme := scheme; p_host := []; p_opaque := true;
            p_path := [path];
            p_query := tail_query after_path;
            p_fragment := tail_fragment after_path |}.

Definition parse_absolute (s : str) : option parts :=
  match take_scheme s with
  | Some (scheme, rest) => parse_after_scheme scheme rest
  | None => None
  end.

(** A reference without a scheme, against a special base. *)
Definition parse_relative (s : str) (b : parts) : option parts :=
  if p_opaque b then
    match s with
    | "#"%char :: f =>
        Some {| p_scheme := p_scheme b; p_host := p_host b; p_opaque := true;
                p_path := p_path b; p_query := p_query b; p_fragment := Some f |}
    | _ => None
    end
  else
    match s with
    | "/"%char :: "/"%char :: _ => parse_after_scheme (p_scheme b) s
    | _ =>
        let path := take_while not_query_or_hash s in
        let after_path := drop_while not_query_or_hash s in
        let segs :=
          match path with
          | [] => p_path b
          | "/"%char :: _ => rev (shorten [] (path_segments path))
          | _ => rev (shorten (tl (rev (p_path b))) (Path.split_slash path))
          end in
        let query :=
          match path, after_path with
          | [], [] => p_query b
          | [], "#"%char :: _ => p_query b
          | _, _ => tail_query after_path
          end in
        Some {| p_scheme := p_scheme b; p_host := p_host b; p_opaque := false;
                p_path := segs; p_query := query;
                p_fragment := tail_fragment after_path |}
    end.

Definition with_mark (mark : ascii) (o : option str) : str :=
  match o with Some x => mark :: x | None => [] end.

Definition nonempty_with_mark (mark : ascii) (o : option str) : str :=
  match o with Some (c :: x) => mark :: c :: x | _ => [] end.

Definition path_string (u : parts) : str :=
  if p_opaque u then concat (p_path u)
  else "/"%char :: Path.join_slash (p_path u).

Definition to_URL (u : parts) : URL :=
  let authority := if p_opaque u then [] else lit "//" ++ p_host u in
  {| protocol := p_scheme u ++ lit ":";
     host := p_host u;
     pathname := path_string u;
     search := nonempty_with_mark "?" (p_query u);
     hash := nonempty_with_mark "#" (p_fragment u);
     href := p_scheme u ++ lit ":" ++ authority ++ path_string u
             ++ with_mark "?" (p_query u) ++ with_mark "#" (p_fragment u) |}.

Definition new_URL (input : str) (base : option str) : option URL :=
  match base with
  | None => option_map to_URL (parse_absolute input)
  | Some b =>
      match parse_absolute b with
      | None => None
      | Some pb =>
          match take_scheme input with
          | Some (scheme, rest) => option_map to_URL (parse_after_scheme scheme rest)
          | None => option_map to_URL (parse_relative input pb)
          end
      end
  end.

(** ** JSON text *)

Definition is_ws (c : ascii) : bool :=
  let n := nat_of_ascii c in (n =? 32) || (n =? 9) || (n =? 10) || (n =? 13).

Definition skip_ws (s : str) : str := drop_while is_ws s.

Definition hex_value (c : ascii) : option nat :=
  let n := nat_of_ascii (lower c) in
  if is_digit c then Some (n - 48)
  else if (97 <=? n) && (n <=? 102) then Some (n - 87)
  else None.

Definition simple_escape (e : ascii) : option ascii :=
  if Ascii.eqb e dq then Some dq
  else if Ascii.eqb e "\"%char then Some "\"%char
  else if Ascii.eqb e "/"%char then Some "/"%char
  else if Ascii.eqb e "b"%char then Some (ascii_of_nat 8)
  else if Ascii.eqb e "f"%char then Some (ascii_of_nat 12)
  else if Ascii.eqb e "n"%char then Some (ascii_of_nat 10)
  else if Ascii.eqb e "r"%char then Some (ascii_of_nat 13)
  else if Ascii.eqb e "t"%char then Some (ascii_of_nat 9)
  else None.

(** The characters of a string after its opening quote. *)
Fixpoint string_body (s : str) (acc : str) : option (str * str) :=
  match s with
  | [] => None
  | c :: s' =>
      if Ascii.eqb c dq then Some (rev acc, s')
      else if Ascii.eqb c "\"%char then
        match s' with
        | "u"%char :: h1 :: h2 :: h3 :: h4 :: s'' =>
            match hex_value h1, hex_value h2, hex_value h3, hex_value h4 with
            | Some 0, Some 0, Some a, Some b =>
                string_body s'' (ascii_of_nat (16 * a + b) :: acc)
            | _, _, _, _ => None
            end
        | e :: s'' =>
            match simple_escape e with
            | Some x => string_body s'' (x :: acc)
            | None => None
            end
        | [] => None
        end
      else if nat_of_ascii c <? 32 then None
      else string_body s' (c :: acc)
  end.

(** A run of one or more digits. *)
Definition digits1 (s : str) : option (str * str) :=
  match take_while is_digit s with
  | [] => None
  | d => Some (d, drop_while is_digit s)
  end.

(** The numeral at the head of the text. *)
Definition numeral (s : str) : option (str * str) :=
  let '(sign, s0) :=
    match s with "-"%char :: r => (lit "-", r) | _ => ([], s) end in
  let int_part :=
    match s0 with
    | "0"%char :: r => Some (lit "0", r)
    | _ => digits1 s0
    end in
  match int_part with
  | None => None
  | Some (i, s1) =>
      let frac :=
        match s1 with
        | "."%char :: r =>
            match digits1 r with
            | Some (d, r') => Some ("."%char :: d, r')
            | None => None
            end
        | _ => Some ([], s1)
        end in
      match frac with
      | None => None
      | Some (f, s2) =>
          match s2 with
          | e :: r =>
              if Ascii.eqb (lower e) "e"%char then
                let '(esign, r1) :=
                  match r with
                  | "+"%char :: r' => (lit "+", r')
                  | "-"%char :: r' => (lit "-", r')
                  | _ => ([], r)
                  end in
                match digits1 r1 with
                | Some (d, r2) => Some (sign ++ i ++ f ++ e :: esign ++ d, r2)
                | None => None
                end
              else Some (sign ++ i ++ f, s2)
          | [] => Some (sign ++ i ++ f, s2)
          end
      end
  end.

Definition keyword (kw : String.string) (v : JSON) (s : str) : option (JSON * str) :=
  if startsWith (lit kw) s then Some (v, skipn (length (lit kw)) s) else None.

Fixpoint value (fuel : nat) (s : str) : option (JSON * str) :=
  match fuel with
  | O => None
  | S fuel' =>
      match skip_ws s with
      | [] => None
      | c :: r =>
          if Ascii.eqb c dq then
            match string_body r [] with
            | Some (x, r') => Some (JString x, r')
            | None => None
            end
          else if Ascii.eqb c "["%char then
            match skip_ws r with
            | "]"%char :: r' => Some (JArray [], r')
            | _ => elements fuel' r []
            end
          else if Ascii.eqb c "{"%char then
            match skip_ws r with
            | "}"%char :: r' => Some (JObject [], r')
            | _ => members fuel' r []
            end
          else if Ascii.eqb c "n"%char then keyword "null" JNull (c :: r)
          else if Ascii.eqb c "t"%char then keyword "true" (JBool true) (c :: r)
          else if Ascii.eqb c "f"%char then keyword "false" (JBool false) (c :: r)
          else
            match numeral (c :: r) with
            | Some (n, r') => Some (JNumber n, r')
            | None => None
            end
      end
  end
with elements (fuel : nat) (s : str) (acc : list JSON) : option (JSON * str) :=
  match fuel with
  | O => None
  | S fuel' =>
      match value fuel' s with
      | Some (v, r) =>
          match skip_ws r with
          | ","%char :: r' => elements fuel' r' (v :: acc)
          | "]"%char :: r' => Some (JArray (rev (v :: acc)), r')
          | _ => None
          end
      | None => None
      end
  end
with members (fuel : nat) (s : str) (acc : list (str * JSON)) : option (JSON * str) :=
  match fuel with
  | O => None
  | S fuel' =>
      match skip_ws s with
      | c :: r =>
          if Ascii.eqb c dq then
            match string_body r [] with
            | Some (k, r1) =>
                match skip_ws r1 with
                | ":"%char :: r2 =>
                    match value fuel' r2 with
                    | Some (v, r3) =>
                        match skip_ws r3 with
                        | ","%char :: r4 => members fuel' r4 (obj_define acc k v)
                        | "}"%char :: r4 => Some (JObject (obj_define acc k v), r4)
                        | _ => None
                        end
                    | None => None
                    end
                | _ => None
                end
            | None => None
            end
          else None
      | [] => None
      end
  end.

Definition JSON_parse (text : str) : option JSON :=
  match value (2 * length text + 2) text with
  | Some (v, r) => match skip_ws r with [] => Some v | _ => None end
  | None => None
  end.

(** Exact on the integer numerals of magnitude below [2^53]. *)
Definition Number_toString (n : str) : str :=
  if str_eqb n (lit "-0") then lit "0" else n.

End Reference.

#[export] Instance node : Runtime :=
  {| new_URL := Reference.new_URL;
     JSON_parse := Reference.JSON_parse;
     Number_toString := Reference.Number_toString |}.

(* ================================================================== *)
(** * Scenarios *)
(* ================================================================== *)

Definition example_base : str := lit "https://site.example/a/b/".

(** An object literal with one field, as compact JSON text. *)
Definition compact_field (key value : String.string) : str :=
  lit "{" ++ [dq] ++ lit key ++ [dq] ++ lit ":" ++ lit value ++ lit "}".

(** An origin that refuses every request. *)
Definition unreachable : Net := fun _ _ => inr (lit "ECONNREFUSED").

Definition empty_world : World := {| requests := []; delays := []; disk := [] |}.

(** An origin that serves five pages, under different templates, and
    nothing else. *)
Definition five_pages : list str :=
  [ lit "https://site.example/a/b/files/mobile/1.jpg";
    lit "https://site.example/a/b/files/mobile/2.png";
    lit "https://site.example/a/b/files/large/3.jpg";
    lit "https://site.example/a/b/mobile/4.jpg";
    lit "https://site.example/a/b/5.jpg" ].

Definition five_page_origin (u : str) : Response + str :=
  if existsb (str_eqb u) five_pages
  then inl {| data := lit "image"; contentType := lit "image/jpeg" |}
  else inr (lit "HTTP 404: " ++ u).

(** A run with a cap of two calls over a frontier of three URLs: a style
    sheet that refers to an image of the frontier and to one more image. *)
Definition demo_config : Config :=
  {| maxRetries := 3; retryDelay := 1000%N; timeout := 30000%N;
     concurrentDownloads := 2 |}.

Definition demo_css : nstr := Some (lit "https://site.example/a/b/css/s.css").
Definition demo_img1 : nstr := Some (lit "https://site.example/a/b/img/1.png").
Definition demo_img2 : nstr := Some (lit "https://site.example/a/b/img/2.png").
Definition demo_img3 : nstr := Some (lit "https://site.example/a/b/img/3.png").

Definition demo_assets : list nstr := [demo_css; demo_img1; demo_img2].

Definition demo_net : Net := fun _ u =>
  if endsWith (lit ".css") u
  then inl {| data := lit "a{background:url(../img/1.png)} b{background:url(../img/3.png)}";
              contentType := lit "text/css" |}
  else inl {| data := lit "image"; contentType := lit "image/png" |}.

Definition demo_events : list Event :=
  [ Fill; Fill; FetchDone 0; Then 0; Fill; FetchDone 1; Then 1; Fill;
    FetchDone 3; FetchDone 2; Then 3; Then 2 ].

(** The same run, as the schedule of the loop: what each await delivers. *)
Definition demo_rounds : list (list Event) :=
  [ [FetchDone 0; Then 0]; [FetchDone 1; Then 1];
    [FetchDone 3; Then 3]; [FetchDone 2; Then 2] ].

(** The callbacks of three calls that settled at once. *)
Definition cached_events : list Event := [Fill; Fill; Then 0; Then 1; Fill; Then 2].

(** A state no scenario ends in. *)
Definition stuck : Sched := init [] empty_world.

(** The state the run of [demo_events] ends in. *)
Definition demo_first : Sched :=
  Eval vm_compute in
    match run demo_config demo_net (lit "out") example_base
            (init demo_assets empty_world) demo_events with
    | Some s => s
    | None => stuck
    end.

(** The state the loop ends in under [demo_rounds]. *)
Definition demo_last : Sched :=
  Eval vm_compute in
    match main_loop demo_config demo_net (lit "out") example_base demo_rounds
            (init demo_assets empty_world) with
    | Some s => s
    | None => stuck
    end.

(** The state a second run, against the folder of the first, ends in. *)
Definition demo_second : Sched :=
  Eval vm_compute in
    match run demo_config demo_net (lit "out") example_base
            (init demo_assets (world demo_first)) cached_events with
    | Some s => s
    | None => stuck
    end.

(** The events of one call whose three attempts all fail. *)
Definition failing_events : list Event :=
  [Fill; FetchDone 0; TimerDone 0; FetchDone 0; TimerDone 0; FetchDone 0; Then 0].

(** The state the failing run ends in. *)
Definition failing_first : Sched :=
  Eval vm_compute in
    match run CONFIG unreachable (lit "out") example_base
            (init [demo_img1] empty_world) failing_events with
    | Some s => s
    | None => stuck
    end.

(** The state a second failing run ends in. *)
Definition failing_second : Sched :=
  Eval vm_compute in
    match run CONFIG unreachable (lit "out") example_base
            (init [demo_img1] (world failing_first)) failing_events with
    | Some s => s
    | None => stuck
    end.

(** A network that rejects the first two requests of a run and answers
    every later one. *)
Definition flaky : Net := fun call _ =>
  if call <? 2 then inr (lit "ECONNRESET")
  else inl {| data := lit "image"; contentType := lit "image/png" |}.

(** An origin that serves every JPEG it is asked for. *)
Definition every_page_origin (u : str) : Response + str :=
  if endsWith (lit ".jpg") u
  then inl {| data := lit "image"; contentType := lit "image/jpeg" |}
  else inr (lit "HTTP 404: " ++ u).

(** A configuration file that lists a page of the book and a page on
    another host. *)
Definition config_text : str :=
  lit "{" ++ [dq] ++ lit "pages" ++ [dq] ++ lit ":["
  ++ [dq] ++ lit "files/mobile/1.jpg" ++ [dq] ++ lit ","
  ++ [dq] ++ lit "https://cdn.example/2.jpg" ++ [dq] ++ lit "]}".

(** An origin that serves [config.json] and nothing else. *)
Definition config_origin (u : str) : Response + str :=
  if str_eqb u (lit "https://site.example/a/b/config.json")
  then inl {| data := config_text; contentType := lit "application/json" |}
  else inr (lit "HTTP 404: " ++ u).

(** An origin that serves nothing. *)
Definition empty_origin (u : str) : Response + str := inr (lit "HTTP 404: " ++ u).

(** An object with a [__proto__] member, as compact JSON text. *)
Definition proto_text : str :=
  lit "{" ++ [dq] ++ lit "__proto__" ++ [dq] ++ lit ":1,"
  ++ [dq] ++ lit "a" ++ [dq] ++ lit ":2}".

(** A style sheet whose references are a data URI and a fragment. *)
Definition inert_css : str :=
  lit "a{background:url(data:image/png;base64,AAAA)} b{clip-path:url(#clip)}".

(** A disk that already holds the first page of a book and one of its
    configuration files. *)
Definition stale_world : World :=
  writeFileSync (lit "out/files/large/1.jpg")
    (writeFileSync (lit "out/config.json") empty_world).

(* ================================================================== *)
(** * Properties *)
(* ================================================================== *)

Lemma str_eqb_spec (a b : str) : reflect (a = b) (str_eqb a b).
Proof.
  revert b; induction a as [|x a IH]; intros [|y b]; simpl;
    try (constructor; congruence).
  destruct (Ascii.eqb_spec x y) as [->|N]; simpl.
  - destruct (IH b) as [->|N]; constructor; congruence.
  - constructor; congruence.
Qed.

Lemma str_eqb_refl (a : str) : str_eqb a a = true.
Proof. destruct (str_eqb_spec a a); congruence. Qed.

Lemma str_eqb_eq (a b : str) : str_eqb a b = true <-> a = b.
Proof. destruct (str_eqb_spec a b); split; congruence. Qed.

(* ------------------------------------------------------------------ *)
(** ** The regular expression matcher *)
(* ------------------------------------------------------------------ *)

Module RegexFacts.

Import Regex.

Lemma star_suffix (p : ascii -> bool) (s r : str) :
  In r (star p s) -> exists w, s = w ++ r.
Proof.
  revert r; induction s as [|c s IH]; intros r H; simpl in H.
  - destruct H as [<-|[]]. now exists [].
  - destruct (p c).
    + apply in_app_or in H as [H|[<-|[]]].
      * destruct (IH _ H) as [w ->]. now exists (c :: w).
      * now exists [].
    + destruct H as [<-|[]]. now exists [].
Qed.

Lemma plus_suffix (p : ascii -> bool) (s r : str) :
  In r (plus p s) -> exists c w, s = c :: w ++ r /\ p c = true.
Proof.
  destruct s as [|c s]; simpl; [tauto|].
  destruct (p c) eqn:E; [|simpl; tauto].
  intros H. destruct (star_suffix _ _ _ H) as [w ->]. now exists c, w.
Qed.

Lemma opt_suffix (p : ascii -> bool) (s r : str) :
  In r (opt p s) -> exists w, s = w ++ r.
Proof.
  destruct s as [|c s]; simpl.
  - intros [<-|[]]. now exists [].
  - destruct (p c); simpl; intros H.
    + destruct H as [<-|[<-|[]]]; [now exists [c] | now exists []].
    + destruct H as [<-|[]]. now exists [].
Qed.

(** Whatever a pattern leaves over is a suffix of its input. *)
Lemma run_suffix (icase : bool) (r : Regex.t) :
  forall s caps rest caps',
    In (rest, caps') (run icase r s caps) -> exists w, s = w ++ rest.
Proof.
  induction r as [ |c|p|a IHa b IHb|a IHa b IHb|p|p|p|n a IHa];
    intros s caps rest caps' H; simpl in H.
  - destruct H as [E|[]]. injection E as <- <-. now exists [].
  - destruct s as [|x s]; [contradiction|].
    destruct (chr_match icase c x); [|contradiction].
    destruct H as [E|[]]. injection E as <- <-. now exists [x].
  - destruct s as [|x s]; [contradiction|].
    destruct (p x); [|contradiction].
    destruct H as [E|[]]. injection E as <- <-. now exists [x].
  - apply in_flat_map in H as [[s1 c1] [H1 H2]].
    destruct (IHa _ _ _ _ H1) as [w1 ->].
    destruct (IHb _ _ _ _ H2) as [w2 ->].
    exists (w1 ++ w2). now rewrite app_assoc.
  - apply in_app_or in H as [H|H]; eauto.
  - apply in_map_iff in H as [r' [E H]]. injection E as <- <-.
    eauto using star_suffix.
  - apply in_map_iff in H as [r' [E H]]. injection E as <- <-.
    destruct (plus_suffix _ _ _ H) as (c & w & -> & _). now exists (c :: w).
  - apply in_map_iff in H as [r' [E H]]. injection E as <- <-.
    eauto using opt_suffix.
  - apply in_map_iff in H as [[s1 c1] [E H]]. injection E as <- <-.
    eauto.
Qed.

Lemma consumed_app (w rest : str) : consumed (w ++ rest) rest = w.
Proof.
  unfold consumed. rewrite length_app, Nat.add_sub.
  rewrite firstn_app, firstn_all, Nat.sub_diag. simpl. apply app_nil_r.
Qed.

Lemma attempt_suffix (re : regexp) (s rest : str) (caps : captures) :
  attempt re s = Some (rest, caps) -> s = consumed s rest ++ rest.
Proof.
  unfold attempt. intros H.
  destruct (run (ignoreCase re) (source re) s []) as [|x l] eqn:E; [discriminate|].
  injection H as ->.
  destruct (run_suffix (ignoreCase re) (source re) s [] rest caps) as [w Hw].
  { rewrite E. now left. }
  rewrite Hw at 1. rewrite Hw at 1. now rewrite consumed_app.
Qed.

(** A scan cuts its subject: the pieces, in order, make up the subject. *)
Lemma scan_fuel_text (re : regexp) :
  forall fuel s, length s < fuel ->
    concat (map seg_text (scan_fuel fuel re s)) = s.
Proof.
  induction fuel as [|fuel IH]; intros s Hlen; [lia|].
  assert (Hskip : concat (map seg_text
            match s with
            | [] => []
            | c :: s' => Gap c :: scan_fuel fuel re s'
            end) = s).
  { destruct s as [|c s']; [reflexivity|]. simpl.
    rewrite IH; [reflexivity | simpl in Hlen; lia]. }
  simpl. destruct (attempt re s) as [[rest caps]|] eqn:E; [|exact Hskip].
  pose proof (attempt_suffix _ _ E) as Hs.
  destruct (consumed s rest) as [|c w] eqn:Ec.
  - simpl. exact Hskip.
  - simpl. rewrite IH.
    + symmetry. exact Hs.
    + rewrite Hs in Hlen. simpl in Hlen. rewrite length_app in Hlen. lia.
Qed.

Lemma scan_text (re : regexp) (s : str) :
  concat (map seg_text (scan re s)) = s.
Proof. apply scan_fuel_text. lia. Qed.

Lemma hits_In (l : list seg) (w : str) (caps : captures) :
  In (w, caps) (hits l) <-> In (Hit w caps) l.
Proof.
  induction l as [|[c|w' caps'] l IH]; simpl.
  - tauto.
  - rewrite IH. split; [auto|]. intros [H|H]; [discriminate|exact H].
  - rewrite IH. split; intros [H|H]; auto; left; congruence.
Qed.

(** A replacer that returns the match it is given leaves the subject as
    it is. *)
Lemma replace_same (re : regexp) (f : str -> captures -> str) (s : str) :
  (forall w caps, In (w, caps) (matchAll re s) -> f w caps = w) ->
  replace re f s = s.
Proof.
  intros H. unfold replace. rewrite <- (scan_text re s) at 2.
  f_equal. apply map_ext_in. intros [c|w caps] Hin; simpl; [reflexivity|].
  apply H. unfold matchAll. now apply hits_In.
Qed.

End RegexFacts.

(* ------------------------------------------------------------------ *)
(** ** The HTML pass of the rewriter fails open *)
(* ------------------------------------------------------------------ *)

Section RewriterFacts.

Context {rt : Runtime}.

Lemma rewriteHtmlMatch_cases (baseUrl whole : str) (caps : Regex.captures) :
  rewriteHtmlMatch baseUrl whole caps = whole
  \/ exists a localPath,
       resolveUrl (Regex.group 2 caps) baseUrl = Some a /\
       getLocalPath a baseUrl = Some localPath /\
       rewriteHtmlMatch baseUrl whole caps
         = Regex.group 1 caps ++ localPath ++ Regex.group 3 caps.
Proof.
  unfold rewriteHtmlMatch.
  destruct (resolveUrl (Regex.group 2 caps) baseUrl) as [[|c a]|]; auto.
  destruct (getLocalPath (c :: a) baseUrl) as [[|d p]|] eqn:E; auto.
  right. exists (c :: a), (d :: p). auto.
Qed.

(** C7.  The HTML pass cuts the content into the text no match covers and
    the matched attributes, and puts the pieces back in order.  A matched
    attribute whose value does not resolve to an absolute URL, or whose
    absolute URL does not classify to a local path (either step returns
    null), is put back as the very text that was matched; a piece that
    differs from the matched text comes from a value for which both steps
    succeeded, and is the matched prefix, the local path and the matched
    closing quote. *)
Theorem rewriteUrls_html_fail_open (content baseUrl : str) :
  rewriteUrls content baseUrl true
    = concat (map (html_piece baseUrl) (Regex.scan htmlUrlPattern content))
  /\ content
    = concat (map Regex.seg_text (Regex.scan htmlUrlPattern content))
  /\ forall whole caps,
       In (Regex.Hit whole caps) (Regex.scan htmlUrlPattern content) ->
       let urlValue := Regex.group 2 caps in
       ((resolveUrl urlValue baseUrl = None
         \/ (exists a, resolveUrl urlValue baseUrl = Some a
                       /\ getLocalPath a baseUrl = None))
        -> rewriteHtmlMatch baseUrl whole caps = whole)
       /\ (rewriteHtmlMatch baseUrl whole caps <> whole ->
           exists a localPath,
             resolveUrl urlValue baseUrl = Some a
             /\ getLocalPath a baseUrl = Some localPath
             /\ rewriteHtmlMatch baseUrl whole caps
                = Regex.group 1 caps ++ localPath ++ Regex.group 3 caps).
Proof.
  split; [reflexivity|]. split; [symmetry; apply RegexFacts.scan_text|].
  intros whole caps _ urlValue. split.
  - unfold rewriteHtmlMatch. fold urlValue.
    intros [E|[a [E1 E2]]].
    + now rewrite E.
    + rewrite E1. destruct a; [reflexivity|]. now rewrite E2.
  - intros Hne.
    destruct (rewriteHtmlMatch_cases baseUrl whole caps) as [E|H]; [contradiction|].
    exact H.
Qed.

End RewriterFacts.

Lemma rewriteUrls_html_fail_open_witness :
  rewriteUrls (lit "<a href='#top'><img src='pic.png'>") example_base true
  = lit "<a href='#top'><img src='a/b/pic.png'>".
Proof.
  rewrite (proj1 (@rewriteUrls_html_fail_open node _ _)).
  vm_compute. reflexivity.
Defined.

(* ------------------------------------------------------------------ *)
(** ** The JSON pass *)
(* ------------------------------------------------------------------ *)

Section JsonFacts.

Context {rt : Runtime}.

(** C8.  When [JSON.parse] rejects the content, [rewriteJsonUrls] returns
    the content itself, code unit for code unit.  The function is total:
    the exception of the parser is caught and nothing else is raised. *)
Theorem rewriteJsonUrls_unparseable (content baseUrl bookBaseUrl : str) :
  JSON_parse content = None ->
  rewriteJsonUrls content baseUrl bookBaseUrl = content.
Proof. intros H. unfold rewriteJsonUrls. now rewrite H. Qed.

Lemma rewriteObject_settled (bookBaseUrl : str) :
  forall v, settled v -> rewriteObject bookBaseUrl v = v.
Proof.
  fix IH 1. intros [ |b|n|s|items|fields] H;
    cbn [rewriteObject settled] in *; try reflexivity.
  - unfold rewriteValue. unfold not_http in H. apply negb_true_iff in H.
    now rewrite H.
  - f_equal. induction items as [|x items IHl]; simpl; [reflexivity|].
    destruct H as [Hx Hl]. rewrite (IH x Hx). f_equal. exact (IHl Hl).
  - destruct H as [Hr Hall]. f_equal.
    rewrite <- Hr at 2. unfold rebuild. clear Hr.
    generalize (@nil (str * JSON)).
    induction fields as [|[k x] fields IHl]; intros acc; simpl; [reflexivity|].
    destruct Hall as [Hx Hl]. rewrite (IH x Hx). apply IHl. exact Hl.
Qed.


End JsonFacts.

Lemma rewriteJsonUrls_unparseable_witness :
  rewriteJsonUrls (lit "{a:1}") (lit "https://h/a/b/x.json") (lit "https://h/a/b/")
  = lit "{a:1}".
Proof. apply rewriteJsonUrls_unparseable. vm_compute. reflexivity. Defined.



(* ------------------------------------------------------------------ *)
(** ** The retry wrapper *)
(* ------------------------------------------------------------------ *)

Section RetryFacts.

Variable cfg : Config.
Variable net : Net.

#[local] Abbreviation backoff := (backoff cfg).

Lemma retry_from_trace (retries : nat) (targetUrl : str) :
  forall left i w, i + left = retries ->
    exists m,
      m <= left - 1
      /\ delays (snd (retry_from cfg net retries i left targetUrl w))
         = delays w ++ map backoff (seq (i + 1) m)
      /\ requests (snd (retry_from cfg net retries i left targetUrl w))
         = requests w ++ repeat targetUrl (if left =? 0 then 0 else S m)
      /\ disk (snd (retry_from cfg net retries i left targetUrl w)) = disk w.
Proof.
  induction left as [|left IH]; intros i w Hsum.
  - exists 0. simpl. now rewrite !app_nil_r.
  - simpl. destruct (net (length (requests w)) targetUrl) as [response|message].
    + exists 0. simpl. rewrite app_nil_r. repeat split; auto; lia.
    + destruct (i =? retries - 1) eqn:Elast.
      * exists 0. simpl. rewrite app_nil_r. repeat split; auto; lia.
      * apply Nat.eqb_neq in Elast.
        destruct left as [|left']; [lia|].
        destruct (IH (i + 1)
                    (sleep (retryDelay cfg * N.of_nat (i + 1))
                       {| requests := requests w ++ [targetUrl];
                          delays := delays w; disk := disk w |}))
          as (m & Hm & Hd & Hr & Hk); [lia|].
        exists (S m). split; [lia|]. rewrite Hd, Hr, Hk. simpl.
        rewrite <- !app_assoc. simpl.
        replace (i + 1 + 1) with (S (i + 1)) by lia.
        repeat split; reflexivity.
Qed.


End RetryFacts.


(* ------------------------------------------------------------------ *)
(** ** The extractors *)
(* ------------------------------------------------------------------ *)

Section ExtractorFacts.

Context {rt : Runtime}.

Lemma nstr_eqb_eq (a b : nstr) : nstr_eqb a b = true <-> a = b.
Proof.
  destruct a as [x|], b as [y|]; simpl; try (split; congruence).
  rewrite str_eqb_eq. split; congruence.
Qed.

Lemma set_has_In (x : nstr) (l : list nstr) : set_has x l = true <-> In x l.
Proof.
  unfold set_has. rewrite existsb_exists. split.
  - intros (y & Hy & E). apply nstr_eqb_eq in E. now subst.
  - intros H. exists x. split; [exact H|]. now apply nstr_eqb_eq.
Qed.

Lemma set_add_NoDup (l : list nstr) (x : nstr) : NoDup l -> NoDup (set_add l x).
Proof.
  intros H. unfold set_add. destruct (set_has x l) eqn:E; [exact H|].
  apply NoDup_app; [exact H | repeat constructor; simpl; tauto |].
  intros y Hy [<-|[]]. apply set_has_In in Hy. congruence.
Qed.

Lemma set_add_In (l : list nstr) (x y : nstr) :
  In y (set_add l x) <-> In y l \/ y = x.
Proof.
  unfold set_add. destruct (set_has x l) eqn:E.
  - apply set_has_In in E. split; [auto|]. intros [H| ->]; auto.
  - rewrite in_app_iff. simpl. intuition congruence.
Qed.

Lemma collect_NoDup (re : Regex.regexp) (keep : str -> bool) (text baseUrl : str)
  (assets : list nstr) :
  NoDup assets -> NoDup (collect re keep text baseUrl assets).
Proof.
  unfold collect. generalize (Regex.matchAll re text). intros l.
  revert assets. induction l as [|[w caps] l IH]; intros assets H; simpl; [exact H|].
  apply IH. destruct (keep (Regex.group 1 caps)); [now apply set_add_NoDup | exact H].
Qed.

(** The extractors return no reference twice. *)
Lemma extractAssets_NoDup (html baseUrl : str) : NoDup (extractAssets html baseUrl).
Proof. unfold extractAssets. repeat apply collect_NoDup. constructor. Qed.

Lemma extractCssAssets_NoDup (css baseUrl : str) :
  NoDup (extractCssAssets css baseUrl).
Proof. unfold extractCssAssets. repeat apply collect_NoDup. constructor. Qed.

(** C9.  On a style sheet with a [url(#...)] reference, and on an image
    whose [src] is a fragment, the extractors return a list whose one entry
    is [null], not an absolute URL string: [resolveUrl] answers [null] and
    the extractor adds it to the set unfiltered.  The extractors are total
    functions, so nothing is thrown, and they return no entry twice. *)
Theorem extractors_return_null :
  extractCssAssets (lit "a{clip-path:url(#clip)}")
    (lit "https://site.example/a/b/c.css") = [None]
  /\ extractAssets (lit "<img src='#a.png'>") (lit "https://site.example/a/b/")
     = [None]
  /\ (forall html baseUrl, NoDup (extractAssets html baseUrl))
  /\ (forall css baseUrl, NoDup (extractCssAssets css baseUrl)).
Proof.
  split; [vm_compute; reflexivity|]. split; [vm_compute; reflexivity|].
  split; [apply extractAssets_NoDup | apply extractCssAssets_NoDup].
Qed.

End ExtractorFacts.

(* ------------------------------------------------------------------ *)
(** ** Paths and the query hash *)
(* ------------------------------------------------------------------ *)

Module PathFacts.

Import Path.

Lemma take_drop_while (p : ascii -> bool) (s : str) :
  take_while p s ++ drop_while p s = s.
Proof.
  induction s as [|c s IH]; simpl; [reflexivity|].
  destruct (p c); simpl; [now rewrite IH | reflexivity].
Qed.

Lemma take_while_all (p : ascii -> bool) (s : str) :
  Forall (fun c => p c = true) (take_while p s).
Proof.
  induction s as [|c s IH]; simpl; [constructor|].
  destruct (p c) eqn:E; constructor; assumption.
Qed.

Lemma drop_while_head (p : ascii -> bool) (s : str) (c : ascii) (r : str) :
  drop_while p s = c :: r -> p c = false.
Proof.
  induction s as [|x s IH]; simpl; [discriminate|].
  destruct (p x) eqn:E; [exact IH|]. intros H. injection H as <- <-. exact E.
Qed.

Lemma last_rev_slashless (p : str) : slashless (last_rev p).
Proof.
  unfold last_rev, slashless.
  eapply Forall_impl; [|apply take_while_all].
  intros c H. unfold not_slash in H. now apply negb_true_iff in H.
Qed.

Lemma slashless_rev (s : str) : slashless s -> slashless (rev s).
Proof. unfold slashless. apply Forall_rev. Qed.

Lemma slashless_app (a b : str) : slashless a -> slashless b -> slashless (a ++ b).
Proof. unfold slashless. intros. apply Forall_app. auto. Qed.

Lemma scan_suffix_app (a r : str) : scan_suffix (a ++ r) a = Matched r.
Proof.
  induction a as [|x a IH]; simpl.
  - now destruct r.
  - now rewrite Ascii.eqb_refl.
Qed.

(** The extension is empty, or the last component splits into a
    non-empty stem and the extension. *)
Lemma extname_split (p : str) :
  extname p = []
  \/ exists pre, pre <> [] /\ last_rev p = rev (extname p) ++ pre.
Proof.
  unfold extname.
  pose proof (take_drop_while not_dot (last_rev p)) as Hsplit.
  destruct (drop_while not_dot (last_rev p)) as [|d pre] eqn:Ed; [now left|].
  assert (Hd : d = "."%char).
  { apply drop_while_head in Ed. unfold not_dot, is_dot in Ed.
    apply negb_false_iff in Ed. apply Ascii.eqb_eq in Ed. congruence. }
  subst d.
  destruct pre as [|x pre]; [now left|].
  assert (Hgo : exists pre', pre' <> [] /\
            last_rev p
            = rev (rev (take_while not_dot (last_rev p) ++ ["."%char])) ++ pre').
  { exists (x :: pre). split; [discriminate|].
    rewrite rev_involutive, <- app_assoc. simpl. now rewrite Hsplit. }
  destruct (take_while not_dot (last_rev p)) as [|y post] eqn:Ep.
  - destruct pre as [|z pre].
    + destruct (Ascii.eqb_spec x "."%char) as [->|N]; [now left|].
      right. destruct x as [[] [] [] [] [] [] [] []]; try exact Hgo; congruence.
    + right. destruct x as [[] [] [] [] [] [] [] []]; exact Hgo.
  - right.
    destruct pre as [|z pre];
      [destruct x as [[] [] [] [] [] [] [] []]|
       destruct x as [[] [] [] [] [] [] [] []]]; exact Hgo.
Qed.

Lemma extname_slashless (p : str) : slashless (extname p).
Proof.
  destruct (extname_split p) as [E|(pre & _ & E)].
  - rewrite E. constructor.
  - pose proof (last_rev_slashless p) as H. rewrite E in H.
    apply Forall_app in H as [H _].
    apply slashless_rev in H. now rewrite rev_involutive in H.
Qed.

Lemma basename_extname_slashless (p : str) : slashless (basename p (extname p)).
Proof.
  assert (Hcomp : slashless (last_component p)).
  { apply slashless_rev, last_rev_slashless. }
  unfold basename.
  destruct (extname_split p) as [E|(pre & Hpre & E)].
  - now rewrite E.
  - destruct (extname p) as [|c e] eqn:Ee; [exact Hcomp|].
    destruct (length p <? length (c :: e)); [exact Hcomp|].
    destruct (str_eqb (c :: e) p); [constructor|].
    rewrite E. rewrite scan_suffix_app.
    destruct pre as [|x pre]; [congruence|].
    apply slashless_rev.
    pose proof (last_rev_slashless p) as H. rewrite E in H.
    now apply Forall_app in H as [_ H].
Qed.

Lemma dirname_nonempty (p : str) : dirname p <> [].
Proof.
  unfold dirname. destruct p as [|c0 p]; [discriminate|].
  destruct (drop_while not_slash (drop_while is_slash (rev (c0 :: p))))
    as [|s [|b before]].
  - destruct (is_slash c0); discriminate.
  - destruct (is_slash c0); discriminate.
  - destruct (is_slash c0 && (length (b :: before) =? 1)); [discriminate|].
    simpl. intros H. apply app_eq_nil in H as [_ H]. discriminate.
Qed.

End PathFacts.

Module JoinFacts.

Import Path PathFacts.

Lemma split_slash_aux_slashless (name cur : str) :
  slashless name -> split_slash_aux cur name = [rev cur ++ name].
Proof.
  intros H. revert cur. induction H as [|c name Hc _ IH]; intros cur; simpl.
  - now rewrite app_nil_r.
  - rewrite Hc, IH. simpl. now rewrite <- app_assoc.
Qed.

Lemma split_slash_aux_snoc (dir name cur : str) :
  slashless name ->
  split_slash_aux cur (dir ++ "/"%char :: name)
  = split_slash_aux cur dir ++ [name].
Proof.
  intros H. revert cur. induction dir as [|c dir IH]; intros cur; simpl.
  - now rewrite split_slash_aux_slashless.
  - destruct (is_slash c); simpl; now rewrite IH.
Qed.

Lemma join_slash_snoc (l : list str) (name : str) :
  join_slash (l ++ [name]) = join_prefix l ++ name.
Proof.
  induction l as [|a l IH]; [reflexivity|].
  destruct l as [|b l]; simpl in *.
  - now rewrite <- app_assoc.
  - rewrite IH. now rewrite <- !app_assoc.
Qed.

Lemma push_plain (allow : bool) (stack : list str) (name : str) :
  plain_name name -> push_component allow stack name = name :: stack.
Proof.
  intros (Hne & _ & Hd & Hdd). unfold push_component.
  destruct name as [|c name]; [congruence|].
  now rewrite Hd, Hdd.
Qed.

Lemma ends_with_slash_snoc (dir name : str) :
  name <> [] -> slashless name -> ends_with_slash (dir ++ name) = false.
Proof.
  intros Hne H. unfold ends_with_slash. rewrite rev_app_distr.
  apply slashless_rev in H.
  destruct (rev name) as [|c r] eqn:E.
  - apply (f_equal (@rev ascii)) in E. rewrite rev_involutive in E. contradiction.
  - simpl. now inversion H.
Qed.

Lemma normalize_cons (c0 : ascii) (rest : str) :
  normalize (c0 :: rest)
  = match normalizeString (c0 :: rest) (negb (is_slash c0)) with
    | [] =>
        if is_slash c0 then lit "/"
        else if ends_with_slash (c0 :: rest) then lit "./" else lit "."
    | x :: q =>
        (if is_slash c0 then ["/"%char] else [])
        ++ (if ends_with_slash (c0 :: rest) then (x :: q) ++ lit "/" else x :: q)
    end.
Proof.
  cbv beta iota zeta delta [normalize]. fold (ends_with_slash (c0 :: rest)).
  destruct (normalizeString (c0 :: rest) (negb (is_slash c0))); [reflexivity|].
  destruct (is_slash c0); reflexivity.
Qed.

Lemma normalizeString_snoc (dir name : str) (allow : bool) :
  plain_name name ->
  normalizeString (dir ++ "/"%char :: name) allow
  = join_prefix (rev (fold_left (push_component allow) (split_slash dir) []))
    ++ name.
Proof.
  intros Hname. pose proof Hname as (_ & Hsl & _).
  unfold normalizeString, split_slash.
  rewrite split_slash_aux_snoc by exact Hsl.
  rewrite fold_left_app.
  cbn [fold_left]. rewrite push_plain by exact Hname.
  cbn [rev]. apply join_slash_snoc.
Qed.

(** Joining a directory and a plain file name puts the name, untouched,
    after a prefix that depends on the directory alone. *)
Lemma join_dir_name (dir name : str) :
  dir <> [] -> plain_name name ->
  join [dir; name] = dir_prefix dir ++ name.
Proof.
  intros Hdir Hname. pose proof Hname as (Hne & Hsl & _).
  destruct dir as [|c0 dir]; [congruence|].
  destruct name as [|n0 name]; [congruence|].
  cbv beta iota zeta delta [join filter str_eqb negb join_slash].
  change ((c0 :: dir) ++ "/"%char :: n0 :: name)
    with (c0 :: (dir ++ "/"%char :: n0 :: name)).
  rewrite normalize_cons.
  change (c0 :: (dir ++ "/"%char :: n0 :: name))
    with ((c0 :: dir) ++ "/"%char :: n0 :: name).
  replace (ends_with_slash ((c0 :: dir) ++ "/"%char :: n0 :: name)) with false.
  2:{ symmetry.
      replace ((c0 :: dir) ++ "/"%char :: n0 :: name)
        with (((c0 :: dir) ++ ["/"%char]) ++ n0 :: name)
        by now rewrite <- app_assoc.
      now apply ends_with_slash_snoc. }
  rewrite normalizeString_snoc by exact Hname.
  unfold dir_prefix.
  destruct (join_prefix _ ++ n0 :: name) as [|x q] eqn:Eq.
  { apply app_eq_nil in Eq as [_ Eq]. discriminate. }
  rewrite <- Eq. now rewrite <- app_assoc.
Qed.

End JoinFacts.

(* ------------------------------------------------------------------ *)
(** ** Classification of URLs that carry a query string *)
(* ------------------------------------------------------------------ *)

Section ClassifierFacts.

Context {rt : Runtime}.

Import Path PathFacts JoinFacts.

Lemma queryHash_slashless (search : str) : slashless (queryHash search).
Proof.
  unfold queryHash, slashless. apply Forall_map.
  apply Forall_forall. intros c _.
  destruct (Regex.one_of ["/"%char; "+"%char; "="%char] c) eqn:E; [reflexivity|].
  unfold Regex.one_of in E. simpl in E.
  apply orb_false_iff in E as [E _].
  unfold is_slash. exact E.
Qed.

Lemma underscore_name_plain (a b : str) :
  slashless a -> slashless b -> plain_name (a ++ "_"%char :: b).
Proof.
  intros Ha Hb.
  assert (Hin : In "_"%char (a ++ "_"%char :: b)).
  { apply in_or_app. right. now left. }
  repeat split.
  - intros E. rewrite E in Hin. destruct Hin.
  - apply slashless_app; [exact Ha|]. constructor; [reflexivity | exact Hb].
  - destruct (str_eqb_spec (a ++ "_"%char :: b) (lit ".")) as [E|]; [|reflexivity].
    rewrite E in Hin. simpl in Hin. destruct Hin as [H|[]]. discriminate.
  - destruct (str_eqb_spec (a ++ "_"%char :: b) (lit "..")) as [E|]; [|reflexivity].
    rewrite E in Hin. simpl in Hin. destruct Hin as [H|[H|[]]]; discriminate.
Qed.

(** The hashed path is a prefix fixed by the path, then the stem, an
    underscore, the hash and the extension. *)
Lemma hashedPath_shape (localPath search : str) :
  hashedPath localPath search
  = dir_prefix (dirname localPath)
    ++ basename localPath (extname localPath)
    ++ lit "_" ++ queryHash search ++ extname localPath.
Proof.
  unfold hashedPath. rewrite join_dir_name.
  - reflexivity.
  - apply dirname_nonempty.
  - apply underscore_name_plain.
    + apply basename_extname_slashless.
    + apply slashless_app; [apply queryHash_slashless | apply extname_slashless].
Qed.

Lemma hashedPath_inj (localPath s1 s2 : str) :
  hashedPath localPath s1 = hashedPath localPath s2 <-> queryHash s1 = queryHash s2.
Proof.
  rewrite !hashedPath_shape. split.
  - intros H. apply app_inv_head in H. apply app_inv_head in H.
    apply app_inv_head in H. now apply app_inv_tail in H.
  - now intros ->.
Qed.

(** The first eight base64 digits are those of the first six bytes. *)
Lemma encode_prefix (bytes : list nat) :
  firstn 8 (Base64.encode bytes) = firstn 8 (Base64.encode (firstn 6 bytes)).
Proof.
  destruct bytes as [|a [|b [|c [|d [|e [|f [|g rest]]]]]]]; reflexivity.
Qed.

Lemma queryHash_prefix (s t : str) :
  firstn 6 (Base64.utf8 s) = firstn 6 (Base64.utf8 t) -> queryHash s = queryHash t.
Proof.
  intros H. unfold queryHash, slice0.
  rewrite (encode_prefix (Base64.utf8 s)), (encode_prefix (Base64.utf8 t)).
  now rewrite H.
Qed.


End ClassifierFacts.



Example getLocalPath_collision_value :
  getLocalPath (lit "https://site.example/a/b/file.js?version=1") example_base
  = Some (lit "a/b/file_P3ZlcnNp.js")
  /\ getLocalPath (lit "https://site.example/a/b/file.js?version=2") example_base
     = Some (lit "a/b/file_P3ZlcnNp.js").
Proof. split; vm_compute; reflexivity. Qed.

(* ------------------------------------------------------------------ *)
(** ** A second pass of the rewriter *)
(* ------------------------------------------------------------------ *)

Module CaptureFacts.

Import Regex RegexFacts.

Lemma run_Cat_inv (icase : bool) (a b : Regex.t) (s rest : str) (c0 caps : captures) :
  In (rest, caps) (run icase (Cat a b) s c0) ->
  exists s1 c1, In (s1, c1) (run icase a s c0) /\ In (rest, caps) (run icase b s1 c1).
Proof.
  simpl. intros H. apply in_flat_map in H as [[s1 c1] [H1 H2]]. eauto.
Qed.

Lemma run_Grp_inv (icase : bool) (n : nat) (a : Regex.t) (s rest : str)
  (c0 caps : captures) :
  In (rest, caps) (run icase (Grp n a) s c0) ->
  exists c1, In (rest, c1) (run icase a s c0) /\ caps = (n, consumed s rest) :: c1.
Proof.
  simpl. intros H. apply in_map_iff in H as [[s1 c1] [E H]].
  injection E as <- <-. eauto.
Qed.

Lemma run_Plus_caps (icase : bool) (p : ascii -> bool) (s rest : str)
  (c0 caps : captures) :
  In (rest, caps) (run icase (Plus p) s c0) -> caps = c0.
Proof.
  simpl. intros H. apply in_map_iff in H as [r [E _]]. congruence.
Qed.

Lemma run_Cls_caps (icase : bool) (p : ascii -> bool) (s rest : str)
  (c0 caps : captures) :
  In (rest, caps) (run icase (Cls p) s c0) -> caps = c0.
Proof.
  intros H. simpl in H. destruct s as [|x s]; [destruct H|].
  destruct (p x); [|destruct H]. destruct H as [E|[]]. congruence.
Qed.

Lemma consumed_of_suffix (icase : bool) (r : Regex.t) (s rest : str)
  (c0 caps : captures) :
  In (rest, caps) (run icase r s c0) -> s = consumed s rest ++ rest.
Proof.
  intros H. destruct (run_suffix _ _ _ _ _ _ H) as [w Hw].
  rewrite Hw at 1. rewrite Hw at 1. now rewrite consumed_app.
Qed.

(** Every hit of a scan is the text one attempt consumed. *)
Lemma scan_fuel_hit (re : regexp) (w : str) (caps : captures) :
  forall fuel s, In (Hit w caps) (scan_fuel fuel re s) ->
    exists s' rest, attempt re s' = Some (rest, caps) /\ w = consumed s' rest.
Proof.
  induction fuel as [|fuel IH]; intros s H; [destruct H|].
  assert (Hskip : In (Hit w caps)
            match s with
            | [] => []
            | c :: s' => Gap c :: scan_fuel fuel re s'
            end -> exists s' rest,
              attempt re s' = Some (rest, caps) /\ w = consumed s' rest).
  { destruct s as [|c s']; [intros []|]. intros [E|Hin]; [discriminate|]. eauto. }
  simpl in H. destruct (attempt re s) as [[rest caps']|] eqn:E; [|auto].
  destruct (consumed s rest) as [|c w'] eqn:Ec.
  - destruct H as [Eh|H]; [|auto].
    injection Eh as <- <-. exists s, rest. now rewrite Ec.
  - destruct H as [Eh|H]; [|eauto].
    injection Eh as <- <-. exists s, rest. now rewrite Ec.
Qed.

End CaptureFacts.

Section SecondPass.

Context {rt : Runtime}.

Import Regex RegexFacts CaptureFacts.

(** A match of the HTML pattern is its three groups, one after the other. *)
Lemma html_match_groups (s rest : str) (caps : captures) :
  attempt htmlUrlPattern s = Some (rest, caps) ->
  consumed s rest = group 1 caps ++ group 2 caps ++ group 3 caps.
Proof.
  unfold attempt. intros H.
  destruct (run (ignoreCase htmlUrlPattern) (source htmlUrlPattern) s [])
    as [|x l] eqn:E; [discriminate|].
  injection H as ->.
  assert (Hin : In (rest, caps)
                  (run (ignoreCase htmlUrlPattern) (source htmlUrlPattern) s []))
    by (rewrite E; now left).
  clear E. unfold htmlUrlPattern in Hin.
  cbn [source ignoreCase cats] in Hin.
  apply run_Cat_inv in Hin as (s1 & c1 & H1 & Hin).
  apply run_Cat_inv in Hin as (s2 & c2 & H2 & H3).
  pose proof (consumed_of_suffix _ _ _ _ _ _ H1) as E1.
  pose proof (consumed_of_suffix _ _ _ _ _ _ H2) as E2.
  pose proof (consumed_of_suffix _ _ _ _ _ _ H3) as E3.
  apply run_Grp_inv in H1 as (c1' & _ & ->).
  apply run_Grp_inv in H2 as (c2' & H2 & ->).
  apply run_Grp_inv in H3 as (c3' & H3 & ->).
  apply run_Plus_caps in H2 as ->.
  apply run_Cls_caps in H3 as ->.
  cbn [group Nat.eqb].
  remember (consumed s s1) as w1 eqn:W1.
  remember (consumed s1 s2) as w2 eqn:W2.
  remember (consumed s2 rest) as w3 eqn:W3.
  clear W1 W2 W3. subst s2 s1 s.
  rewrite !app_assoc. apply consumed_app.
Qed.


End SecondPass.



(* ------------------------------------------------------------------ *)
(** ** The page-sequence prober *)
(* ------------------------------------------------------------------ *)

Section WorldFacts.

Lemma touch_requests (p : str) (w : World) : requests (touch p w) = requests w.
Proof. unfold touch. now destruct (existsSync p w). Qed.

Lemma touch_delays (p : str) (w : World) : delays (touch p w) = delays w.
Proof. unfold touch. now destruct (existsSync p w). Qed.

Lemma fold_touch_requests (l : list str) (w : World) :
  requests (fold_left (fun w' d => touch d w') l w) = requests w.
Proof.
  revert w. induction l as [|d l IH]; intros w; simpl; [reflexivity|].
  now rewrite IH, touch_requests.
Qed.

Lemma fold_touch_delays (l : list str) (w : World) :
  delays (fold_left (fun w' d => touch d w') l w) = delays w.
Proof.
  revert w. induction l as [|d l IH]; intros w; simpl; [reflexivity|].
  now rewrite IH, touch_delays.
Qed.

Lemma ensureDir_requests (d : str) (w : World) : requests (ensureDir d w) = requests w.
Proof.
  unfold ensureDir. destruct (existsSync d w); [reflexivity|].
  apply fold_touch_requests.
Qed.

Lemma ensureDir_delays (d : str) (w : World) : delays (ensureDir d w) = delays w.
Proof.
  unfold ensureDir. destruct (existsSync d w); [reflexivity|].
  apply fold_touch_delays.
Qed.

End WorldFacts.

Section ProberFacts.

Context {rt : Runtime}.
Variable cfg : Config.

Variable origin : str -> Response + str.
Variables baseUrl outputDir : str.

#[local] Abbreviation steady := (steady origin).
#[local] Abbreviation served := (served origin).
#[local] Abbreviation classifiable := (classifiable baseUrl).
#[local] Abbreviation tried := (tried origin).
#[local] Abbreviation first_served := (first_served origin).

Lemma try_pattern_spec (p : str) (w : World) :
  classifiable p = true ->
  fst (try_pattern cfg steady baseUrl outputDir p w) = served p
  /\ requests (snd (try_pattern cfg steady baseUrl outputDir p w))
     = requests w ++ [p]
  /\ delays (snd (try_pattern cfg steady baseUrl outputDir p w)) = delays w.
Proof.
  unfold classifiable, try_pattern, fetchWithRetry, served. intros Hc.
  cbn [retry_from fetchUrl issue]. unfold steady.
  destruct (origin p) as [response|message].
  - destruct (getLocalPath p baseUrl) as [localPath|]; [|discriminate].
    cbn [fst snd]. split; [reflexivity|]. unfold writeFileSync.
    now rewrite touch_requests, ensureDir_requests, touch_delays, ensureDir_delays.
  - cbn [Nat.eqb Nat.sub fst snd]. auto.
Qed.

Lemma try_patterns_spec (ps : list str) :
  forall w, forallb classifiable ps = true ->
    fst (try_patterns cfg steady baseUrl outputDir ps w) = find served ps
    /\ requests (snd (try_patterns cfg steady baseUrl outputDir ps w))
       = requests w ++ tried ps
    /\ delays (snd (try_patterns cfg steady baseUrl outputDir ps w)) = delays w.
Proof.
  induction ps as [|p ps IH]; intros w Hc; simpl.
  - now rewrite app_nil_r.
  - simpl in Hc. apply andb_true_iff in Hc as [Hp Hps].
    destruct (try_pattern_spec p w Hp) as (Hf & Hr & Hd).
    destruct (try_pattern cfg steady baseUrl outputDir p w) as [found w1].
    cbn [fst snd] in Hf, Hr, Hd. subst found.
    destruct (served p).
    + cbn [fst snd]. auto.
    + destruct (IH w1 Hps) as (Hf' & Hr' & Hd'). rewrite Hf', Hr', Hr, Hd', Hd.
      now rewrite <- app_assoc.
Qed.

Lemma existsb_find (ps : list str) :
  existsb served ps = true -> exists p, find served ps = Some p.
Proof.
  induction ps as [|p ps IH]; simpl; [discriminate|].
  destruct (served p); [eauto | exact IH].
Qed.

Lemma existsb_find_none (ps : list str) :
  existsb served ps = false -> find served ps = None /\ tried ps = ps.
Proof.
  induction ps as [|p ps IH]; simpl; [auto|].
  destruct (served p); [discriminate|]. intros H.
  destruct (IH H) as [-> ->]. auto.
Qed.

Lemma probe_from_spec :
  forall N pageNum left pages w,
    N < left ->
    forallb (fun i => existsb served (patterns baseUrl i)) (seq pageNum N) = true ->
    existsb served (patterns baseUrl (pageNum + N)) = false ->
    forallb (fun i => forallb classifiable (patterns baseUrl i))
      (seq pageNum (S N)) = true ->
    fst (probe_from cfg steady baseUrl outputDir pageNum left pages w)
    = pages ++ map (fun i => first_served (patterns baseUrl i)) (seq pageNum N)
    /\ requests (snd (probe_from cfg steady baseUrl outputDir pageNum left pages w))
       = requests w
         ++ flat_map (fun i => tried (patterns baseUrl i)) (seq pageNum N)
         ++ patterns baseUrl (pageNum + N)
    /\ delays (snd (probe_from cfg steady baseUrl outputDir pageNum left pages w))
       = delays w.
Proof.
  induction N as [|N IH]; intros pageNum left pages w Hlt Hs Hm Hc;
    (destruct left as [|left]; [lia|]);
    cbn [probe_from];
    cbn [seq forallb] in Hc; apply andb_true_iff in Hc as [Hc0 Hc].
  - rewrite Nat.add_0_r in Hm.
    destruct (try_patterns_spec (patterns baseUrl pageNum) w Hc0) as (Hf & Hr & Hd).
    destruct (try_patterns cfg steady baseUrl outputDir (patterns baseUrl pageNum) w)
      as [found w1].
    cbn [fst snd] in Hf, Hr, Hd.
    destruct (existsb_find_none _ Hm) as [Hn Ht].
    rewrite Hn in Hf. subst found. cbn [fst snd seq map flat_map app].
    rewrite Hr, Ht, app_nil_r, Nat.add_0_r. auto.
  - cbn [seq forallb] in Hs. apply andb_true_iff in Hs as [Hs0 Hs].
    destruct (try_patterns_spec (patterns baseUrl pageNum) w Hc0) as (Hf & Hr & Hd).
    destruct (try_patterns cfg steady baseUrl outputDir (patterns baseUrl pageNum) w)
      as [found w1].
    cbn [fst snd] in Hf, Hr, Hd.
    destruct (existsb_find _ Hs0) as [p Hp].
    rewrite Hp in Hf. subst found.
    replace (pageNum + S N) with (S pageNum + N) in * by lia.
    replace (pageNum + 1) with (S pageNum) by lia.
    destruct (IH (S pageNum) left (pages ++ [p]) w1) as (Hf' & Hr' & Hd');
      try assumption; [lia|].
    rewrite Hf', Hr', Hr, Hd', Hd.
    cbn [seq map flat_map]. unfold first_served at 2. rewrite Hp.
    rewrite <- !app_assoc. auto.
Qed.


End ProberFacts.


(* ------------------------------------------------------------------ *)
(** ** The download scheduler *)
(* ------------------------------------------------------------------ *)

Section TaskFacts.

Lemma set_phase_length (id : nat) (ph : Phase) (l : list Task) :
  length (set_phase id ph l) = length l.
Proof. apply length_map. Qed.

Lemma set_phase_ids (id : nat) (ph : Phase) (l : list Task) :
  map t_id (set_phase id ph l) = map t_id l.
Proof.
  unfold set_phase. rewrite map_map. apply map_ext. intros t.
  destruct (t_id t =? id) eqn:E; [|reflexivity].
  apply Nat.eqb_eq in E. now subst.
Qed.

Lemma set_phase_urls (id : nat) (ph : Phase) (l : list Task) :
  map t_url (set_phase id ph l) = map t_url l.
Proof.
  unfold set_phase. rewrite map_map. apply map_ext. intros t.
  now destruct (t_id t =? id).
Qed.

Lemma find_task_In (id : nat) (l : list Task) (t : Task) :
  find_task id l = Some t -> In t l /\ t_id t = id.
Proof.
  unfold find_task. intros H. apply find_some in H as [H E].
  apply Nat.eqb_eq in E. auto.
Qed.

Lemma remove_task_In (id : nat) (l : list Task) (t : Task) :
  In t (remove_task id l) -> In t l.
Proof. unfold remove_task. intros H. now apply filter_In in H. Qed.

(** With distinct ids, removing a call takes exactly that call out. *)
Lemma remove_task_split (id : nat) (l : list Task) (t : Task) :
  NoDup (map t_id l) -> find_task id l = Some t ->
  exists l1 l2, l = l1 ++ t :: l2 /\ remove_task id l = l1 ++ l2.
Proof.
  induction l as [|x l IH]; intros Hnd Hf; [discriminate|].
  simpl in Hnd. inversion Hnd as [|? ? Hnotin Hnd']; subst.
  unfold find_task in Hf. simpl in Hf. simpl.
  destruct (t_id x =? id) eqn:E.
  - injection Hf as <-. simpl. exists [], l. split; [reflexivity|].
    apply Nat.eqb_eq in E. simpl.
    unfold remove_task. apply forallb_filter_id. apply forallb_forall. intros y Hy.
    apply negb_true_iff. apply Nat.eqb_neq. intros Ey.
    apply Hnotin. rewrite E, <- Ey. now apply in_map.
  - destruct (IH Hnd' Hf) as (l1 & l2 & -> & Hr).
    exists (x :: l1), l2. simpl. split; [reflexivity|]. now rewrite Hr.
Qed.

End TaskFacts.

Section SchedulerFacts.

Context {rt : Runtime}.
Variable cfg : Config.
Variable net : Net.
Variables outputDir baseUrl : str.

#[local] Abbreviation step_ := (step cfg net outputDir baseUrl).
#[local] Abbreviation run_ := (run cfg net outputDir baseUrl).
#[local] Abbreviation start_ := (start_call cfg outputDir baseUrl).
#[local] Abbreviation Inv := (Inv cfg).

Lemma Inv_init (assets : list nstr) (w : World) : Inv assets (init assets w).
Proof.
  constructor; simpl; try constructor; try tauto; auto.
  - lia.
  - intros u H. destruct H.
Qed.

Lemma enter_attempt_phase (asset : nstr) (lp fp : str) (i : nat) (w : World) :
  phase_for asset (fst (enter_attempt cfg asset lp fp i w)).
Proof.
  unfold enter_attempt. destruct (i <? maxRetries cfg); simpl; auto.
Qed.

Lemma start_call_phase (asset : nstr) (w : World) :
  phase_for asset (fst (start_ asset w)).
Proof.
  cbv beta zeta delta [start_call downloadAsset_begin].
  destruct (getLocalPath (url_text asset) baseUrl) as [[|c lp]|];
    try exact I.
  match goal with |- context [existsSync ?p w] => destruct (existsSync p w) end.
  - exact eq_refl.
  - apply enter_attempt_phase.
Qed.

Lemma downloadAsset_store_url (asset : nstr) (lp fp : str) (response : Response)
  (w : World) :
  r_url (fst (downloadAsset_store asset lp fp response w)) = asset.
Proof. unfold downloadAsset_store. now destruct (endsWith (lit ".css") lp). Qed.

Lemma task_wf_set_phase (log : list nstr) (id : nat) (ph : Phase) (l : list Task)
  (t : Task) :
  Forall (task_wf log) l -> In t l -> t_id t = id -> phase_for (t_url t) ph ->
  Forall (task_wf log) (set_phase id ph l).
Proof.
  intros Hall Hin Hid Hph. unfold set_phase. apply Forall_map.
  rewrite Forall_forall in *. intros x Hx.
  destruct (t_id x =? id) eqn:E; [|now apply Hall].
  apply Nat.eqb_eq in E.
  destruct (Hall x Hx) as [Hnx _]. destruct (Hall t Hin) as [Hnt _].
  assert (Hu : t_url x = t_url t) by congruence.
  split; simpl.
  - congruence.
  - destruct ph as [| |[r|]]; auto. simpl in Hph. congruence.
Qed.

(** Changing the phase of a call keeps the invariant. *)
Lemma Inv_update (assets : list nstr) (s : Sched) (id : nat) (ph : Phase)
  (w : World) (t : Task) :
  Inv assets s -> find_task id (inProgress s) = Some t ->
  phase_for (t_url t) ph -> Inv assets (update s id ph w).
Proof.
  intros [] Hf Hph. apply find_task_In in Hf as [Hin Hid].
  constructor; simpl; auto.
  - now rewrite set_phase_length.
  - now rewrite set_phase_ids.
  - eapply task_wf_set_phase; eauto.
  - unfold accounted in *. simpl. now rewrite set_phase_urls.
  - unfold accounted in *. simpl. now rewrite set_phase_urls.
Qed.

Lemma task_id_bound (log : list nstr) (l : list Task) :
  Forall (task_wf log) l -> forall id, In id (map t_id l) -> id < length log.
Proof.
  intros Hall id Hin. apply in_map_iff in Hin as (t & <- & Ht).
  rewrite Forall_forall in Hall. destruct (Hall t Ht) as [Hn _].
  apply nth_error_Some. congruence.
Qed.

Lemma task_wf_grow (log : list nstr) (asset : nstr) (t : Task) :
  task_wf log t -> task_wf (log ++ [asset]) t.
Proof.
  intros [Hn Hp]. split; [|exact Hp].
  rewrite nth_error_app1; [exact Hn|]. apply nth_error_Some. congruence.
Qed.

(** An iteration of the inner loop keeps the invariant. *)
Lemma Inv_fill (assets : list nstr) (s s' : Sched) :
  Inv assets s -> step_ s Fill = Some s' -> Inv assets s'.
Proof.
  intros [] Hstep. cbn [step] in Hstep.
  destruct (queue s) as [|asset rest] eqn:Eq; [discriminate|].
  destruct (length (inProgress s) <? concurrentDownloads cfg) eqn:Ecap;
    [|discriminate].
  apply Nat.ltb_lt in Ecap.
  destruct (set_has asset (downloaded s)) eqn:Ehas.
  - injection Hstep as <-. apply set_has_In in Ehas.
    constructor; simpl; auto.
    + intros u Hu. destruct (inv_frontier0 u Hu) as [[<-|H]|H]; auto.
      right. now apply inv_downloaded0.
    + intros r l a Hr Hl Ha Ht.
      destruct (inv_discovered0 r l a Hr Hl Ha Ht) as [[<-|H]|H]; auto.
      right. now apply inv_downloaded0.
  - assert (Hnew : ~ In asset (started s)).
    { intros H. apply inv_downloaded0 in H. apply set_has_In in H. congruence. }
    pose proof (start_call_phase asset (world s)) as Hph.
    destruct (start_ asset (world s)) as [ph w1]. cbn [fst] in Hph.
    injection Hstep as <-.
    constructor; simpl.
    + rewrite length_app. simpl. lia.
    + apply NoDup_app; [assumption | repeat constructor; simpl; tauto |].
      intros u Hu [<-|[]]. contradiction.
    + intros u. rewrite set_add_In, in_app_iff, inv_downloaded0. simpl.
      intuition congruence.
    + intros u Hu. rewrite in_app_iff. simpl.
      destruct (inv_frontier0 u Hu) as [[<-|H]|H]; auto.
    + intros r l a Hr Hl Ha Ht. rewrite in_app_iff. simpl.
      destruct (inv_discovered0 r l a Hr Hl Ha Ht) as [[<-|H]|H]; auto.
    + rewrite map_app. simpl.
      apply NoDup_app; [assumption | repeat constructor; simpl; tauto |].
      intros id Hid [<-|[]].
      pose proof (task_id_bound inv_tasks0 _ Hid). lia.
    + apply Forall_app. split.
      * eapply Forall_impl; [|exact inv_tasks0]. intros t. apply task_wf_grow.
      * repeat constructor; simpl.
        -- rewrite nth_error_app2 by lia. now rewrite Nat.sub_diag.
        -- destruct ph as [| |[r|]]; auto.
    + unfold accounted in *. simpl. rewrite map_app, app_assoc. simpl.
      apply NoDup_app; [assumption | repeat constructor; simpl; tauto |].
      intros u Hu [<-|[]]. apply Hnew. now apply inv_known0.
    + unfold accounted in *. simpl. rewrite map_app, app_assoc. simpl.
      intros u Hu. apply in_app_iff in Hu as [Hu|Hu].
      * apply in_or_app. left. now apply inv_known0.
      * apply in_or_app. now right.
Qed.

(** Running a [then] callback keeps the invariant. *)
Lemma Inv_then (assets : list nstr) (s s' : Sched) (id : nat) :
  Inv assets s -> step_ s (Then id) = Some s' -> Inv assets s'.
Proof.
  intros [] Hstep. cbn [step] in Hstep.
  destruct (find_task id (inProgress s)) as [[tid asset ph]|] eqn:Ef; [|discriminate].
  destruct ph as [| |result]; try discriminate.
  injection Hstep as <-.
  destruct (remove_task_split id (inProgress s) inv_ids0 Ef)
    as (l1 & l2 & Hl & Hrem).
  assert (Hwf : task_wf (started s)
                  {| t_id := tid; t_url := asset; t_phase := Settled result |}).
  { rewrite Forall_forall in inv_tasks0. apply inv_tasks0.
    rewrite Hl. apply in_or_app. right. now left. }
  destruct Hwf as [_ Hurl]. cbn [t_phase t_url] in Hurl.
  unfold accounted in *. rewrite Hl in *. rewrite map_app in *.
  cbn [map t_url t_id] in *.
  assert (Hids : NoDup (map t_id (l1 ++ l2))).
  { rewrite map_app. eapply NoDup_remove_1. exact inv_ids0. }
  assert (Htasks : Forall (task_wf (started s)) (l1 ++ l2)).
  { apply Forall_app in inv_tasks0 as [H1 H2]. inversion H2; subst.
    apply Forall_app. auto. }
  assert (Hcap : length (l1 ++ l2) <= concurrentDownloads cfg).
  { rewrite length_app in *. simpl in inv_cap0. lia. }
  destruct result as [r|]; cbn [on_result].
  - subst asset. constructor; cbn [queue inProgress downloaded results started world];
      try rewrite Hrem; auto.
    + intros u Hu. rewrite in_app_iff. destruct (inv_frontier0 u Hu); auto.
    + intros r' l a Hr' Hl' Ha Ht. rewrite in_app_iff.
      apply in_app_iff in Hr' as [Hr'|[<-|[]]].
      * destruct (inv_discovered0 r' l a Hr' Hl' Ha Ht); auto.
      * rewrite Hl'.
        destruct (set_has a (downloaded s)) eqn:Ehas.
        -- right. apply inv_downloaded0. now apply set_has_In.
        -- left. right. apply filter_In. split; [exact Ha|].
           now rewrite Ht, Ehas.
    + unfold accounted. cbn [results inProgress]. rewrite ?Hrem, !map_app.
      cbn [map]. eapply Permutation_NoDup; [|exact inv_accounted0].
      rewrite <- app_assoc. apply Permutation_app_head. cbn [app].
      symmetry. apply Permutation_middle.
    + unfold accounted. cbn [results inProgress]. rewrite ?Hrem, !map_app.
      cbn [map]. intros u Hu. apply inv_known0.
      rewrite !in_app_iff in *. simpl in *. intuition.
  - constructor; cbn [queue inProgress downloaded results started world];
      try rewrite Hrem; auto.
    + unfold accounted. cbn [results inProgress]. rewrite ?Hrem, map_app.
      rewrite app_assoc. eapply NoDup_remove_1. rewrite <- app_assoc.
      exact inv_accounted0.
    + unfold accounted. cbn [results inProgress]. rewrite ?Hrem, map_app.
      intros u Hu. apply inv_known0.
      rewrite !in_app_iff in *. simpl in *. intuition.
Qed.

(** Every event keeps the invariant. *)
Lemma Inv_step (assets : list nstr) (s s' : Sched) (e : Event) :
  Inv assets s -> step_ s e = Some s' -> Inv assets s'.
Proof.
  intros HI Hstep. destruct e as [|id|id|id].
  - eapply Inv_fill; eauto.
  - cbn [step] in Hstep.
    destruct (find_task id (inProgress s)) as [[tid asset ph]|] eqn:Ef;
      [|discriminate].
    destruct ph as [lp fp i call| |]; try discriminate.
    destruct (net call (url_text asset)) as [response|message].
    + pose proof (downloadAsset_store_url asset lp fp response (world s)) as Hu.
      destruct (downloadAsset_store asset lp fp response (world s)) as [r w1].
      injection Hstep as <-. eapply Inv_update; eauto.
    + destruct (i =? maxRetries cfg - 1); injection Hstep as <-;
        eapply Inv_update; eauto; exact I || reflexivity.
  - cbn [step] in Hstep.
    destruct (find_task id (inProgress s)) as [[tid asset ph]|] eqn:Ef;
      [|discriminate].
    destruct ph as [|lp fp i|]; try discriminate.
    pose proof (enter_attempt_phase asset lp fp (i + 1) (world s)) as Hph.
    destruct (enter_attempt cfg asset lp fp (i + 1) (world s)) as [ph w1].
    injection Hstep as <-. eapply Inv_update; eauto.
  - eapply Inv_then; eauto.
Qed.

Lemma Inv_run (assets : list nstr) (evs : list Event) :
  forall s s', Inv assets s -> run_ s evs = Some s' -> Inv assets s'.
Proof.
  induction evs as [|e evs IH]; intros s s' HI Hrun; simpl in Hrun.
  - now injection Hrun as <-.
  - destruct (step_ s e) as [s1|] eqn:E; [|discriminate].
    eapply IH; [|exact Hrun]. eapply Inv_step; eauto.
Qed.

Lemma in_flight_le (s : Sched) : in_flight s <= length (inProgress s).
Proof. unfold in_flight. apply filter_length_le. Qed.

End SchedulerFacts.


(* ------------------------------------------------------------------ *)
(** ** Cached assets and a second run *)
(* ------------------------------------------------------------------ *)

Section DiskFacts.

Lemma grows_refl (w : World) : grows w w.
Proof. intros p H. exact H. Qed.

Lemma grows_trans (w1 w2 w3 : World) : grows w1 w2 -> grows w2 w3 -> grows w1 w3.
Proof. intros H1 H2 p H. auto. Qed.

Lemma existsSync_touch_same (p : str) (w : World) : existsSync p (touch p w) = true.
Proof.
  unfold touch. destruct (existsSync p w) eqn:E; [exact E|].
  unfold existsSync. simpl. rewrite existsb_app. simpl.
  now rewrite str_eqb_refl, orb_true_r.
Qed.

Lemma grows_touch (q : str) (w : World) : grows w (touch q w).
Proof.
  intros p H. unfold touch. destruct (existsSync q w); [exact H|].
  unfold existsSync in *. simpl. rewrite existsb_app, H. reflexivity.
Qed.

Lemma grows_fold_touch (l : list str) (w : World) :
  grows w (fold_left (fun w' d => touch d w') l w).
Proof.
  revert w. induction l as [|d l IH]; intros w; simpl; [apply grows_refl|].
  eapply grows_trans; [apply grows_touch | apply IH].
Qed.

Lemma grows_ensureDir (d : str) (w : World) : grows w (ensureDir d w).
Proof.
  unfold ensureDir. destruct (existsSync d w); [apply grows_refl|].
  apply grows_fold_touch.
Qed.

Lemma grows_sleep (ms : N) (w : World) : grows w (sleep ms w).
Proof. intros p H. exact H. Qed.

Lemma grows_issue (u : str) (w : World) : grows w (snd (issue u w)).
Proof. intros p H. exact H. Qed.

End DiskFacts.

Section RerunFacts.

Context {rt : Runtime}.
Variable cfg : Config.
Variable net : Net.
Variables outputDir baseUrl : str.

#[local] Abbreviation step_ := (step cfg net outputDir baseUrl).
#[local] Abbreviation run_ := (run cfg net outputDir baseUrl).
#[local] Abbreviation begin_ := (downloadAsset_begin outputDir baseUrl).
#[local] Abbreviation settles_at_once := (settles_at_once outputDir baseUrl).

Lemma begin_quiet (asset : nstr) (w : World) (result : option Result) :
  begin_ asset w = Finished result -> quiet result.
Proof.
  cbv beta zeta delta [downloadAsset_begin].
  destruct (getLocalPath (url_text asset) baseUrl) as [[|c lp]|].
  - intros H. injection H as <-. exact I.
  - match goal with |- context [existsSync ?p w] => destruct (existsSync p w) end.
    + intros H. injection H as <-. split; reflexivity.
    + discriminate.
  - intros H. injection H as <-. exact I.
Qed.

Lemma Idle_step (assets : list nstr) (w0 : World) (s s' : Sched) (e : Event) :
  forallb (fun a => settles_at_once a w0) assets = true ->
  Idle assets w0 s -> step_ s e = Some s' -> Idle assets w0 s'.
Proof.
  intros Hall [] Hstep. rewrite forallb_forall in Hall.
  destruct e as [|id|id|id]; cbn [step] in Hstep.
  - destruct (queue s) as [|asset rest] eqn:Eq; [discriminate|].
    destruct (length (inProgress s) <? concurrentDownloads cfg); [|discriminate].
    assert (Hrest : incl rest assets).
    { intros u Hu. apply idle_queue0. now right. }
    destruct (set_has asset (downloaded s)).
    + injection Hstep as <-. constructor; auto.
    + assert (Hin : In asset assets) by (apply idle_queue0; now left).
      specialize (Hall _ Hin). unfold settles_at_once in Hall.
      unfold start_call in Hstep. rewrite idle_world0 in Hstep.
      destruct (begin_ asset w0) as [result|] eqn:Eb; [|discriminate].
      injection Hstep as <-. constructor; cbn; auto.
      apply Forall_app. split; [assumption|].
      repeat constructor. exists result. split; [reflexivity|].
      eapply begin_quiet; eauto.
  - destruct (find_task id (inProgress s)) as [[tid asset ph]|] eqn:Ef;
      [|discriminate].
    apply find_task_In in Ef as [Hin _].
    rewrite Forall_forall in idle_tasks0.
    destruct (idle_tasks0 _ Hin) as (result & Hph & _). cbn in Hph. subst ph.
    discriminate.
  - destruct (find_task id (inProgress s)) as [[tid asset ph]|] eqn:Ef;
      [|discriminate].
    apply find_task_In in Ef as [Hin _].
    rewrite Forall_forall in idle_tasks0.
    destruct (idle_tasks0 _ Hin) as (result & Hph & _). cbn in Hph. subst ph.
    discriminate.
  - destruct (find_task id (inProgress s)) as [[tid asset ph]|] eqn:Ef;
      [|discriminate].
    destruct ph as [| |result]; try discriminate.
    apply find_task_In in Ef as [Hin _].
    assert (Hq : quiet result).
    { rewrite Forall_forall in idle_tasks0.
      destruct (idle_tasks0 _ Hin) as (result' & Hph & Hq). cbn in Hph.
      now injection Hph as <-. }
    assert (Hrem : Forall (fun t => exists result, t_phase t = Settled result
                                                   /\ quiet result)
                     (remove_task id (inProgress s))).
    { rewrite Forall_forall in *. intros t Ht. apply idle_tasks0.
      eapply remove_task_In; eauto. }
    injection Hstep as <-. destruct result as [r|]; cbn [on_result].
    + destruct Hq as [Hc Ha]. rewrite Ha. constructor; cbn; auto.
      * now rewrite app_nil_r.
      * apply Forall_app. split; [assumption|]. repeat constructor; assumption.
    + constructor; cbn; auto.
Qed.

Lemma Idle_run (assets : list nstr) (w0 : World) (evs : list Event) :
  forallb (fun a => settles_at_once a w0) assets = true ->
  forall s s', Idle assets w0 s -> run_ s evs = Some s' -> Idle assets w0 s'.
Proof.
  intros Hall. induction evs as [|e evs IH]; intros s s' HI Hrun; simpl in Hrun.
  - now injection Hrun as <-.
  - destruct (step_ s e) as [s1|] eqn:E; [|discriminate].
    eapply IH; [|exact Hrun]. eapply Idle_step; eauto.
Qed.

End RerunFacts.

Section StoredFacts.

Context {rt : Runtime}.
Variable cfg : Config.
Variable net : Net.
Variables outputDir baseUrl : str.

#[local] Abbreviation step_ := (step cfg net outputDir baseUrl).
#[local] Abbreviation run_ := (run cfg net outputDir baseUrl).
#[local] Abbreviation classified := (classified baseUrl).
#[local] Abbreviation unclassified := (unclassified baseUrl).
#[local] Abbreviation stored := (stored outputDir baseUrl).
#[local] Abbreviation phase_stored := (phase_stored outputDir baseUrl).
#[local] Abbreviation Kept := (Kept outputDir baseUrl).

Lemma stored_grows (w w' : World) (r : Result) :
  grows w w' -> stored w r -> stored w' r.
Proof.
  intros Hg [H|(lp & Hc & He)]; [now left|]. right. exists lp. auto.
Qed.

Lemma phase_stored_grows (w w' : World) (asset : nstr) (ph : Phase) :
  grows w w' -> phase_stored w asset ph -> phase_stored w' asset ph.
Proof.
  intros Hg. destruct ph as [| |[r|]]; simpl; auto.
  intros [Hu Hs]. split; [exact Hu|]. eapply stored_grows; eauto.
Qed.

Lemma Kept_init (assets : list nstr) (w : World) : Kept (init assets w).
Proof. constructor; simpl; auto; intros u []. Qed.

Lemma enter_attempt_stored (asset : nstr) (lp : str) (i : nat) (w : World) :
  classified asset lp ->
  phase_stored (snd (enter_attempt cfg asset lp (Path.join [outputDir; lp]) i w))
    asset (fst (enter_attempt cfg asset lp (Path.join [outputDir; lp]) i w))
  /\ grows w (snd (enter_attempt cfg asset lp (Path.join [outputDir; lp]) i w)).
Proof.
  intros Hc. unfold enter_attempt. destruct (i <? maxRetries cfg); simpl.
  - split; [auto|]. apply grows_issue.
  - split; [|apply grows_refl]. split; [reflexivity|]. now left.
Qed.

Lemma start_call_stored (asset : nstr) (w : World) :
  phase_stored (snd (start_call cfg outputDir baseUrl asset w)) asset
    (fst (start_call cfg outputDir baseUrl asset w))
  /\ grows w (snd (start_call cfg outputDir baseUrl asset w)).
Proof.
  cbv beta zeta delta [start_call downloadAsset_begin].
  destruct (getLocalPath (url_text asset) baseUrl) as [[|c lp]|] eqn:Eg.
  - split; [|apply grows_refl]. unfold phase_stored, unclassified. cbn [fst].
    now rewrite Eg.
  - match goal with |- context [existsSync ?p w] =>
      destruct (existsSync p w) eqn:Ee end.
    + split; [|apply grows_refl]. cbn [fst snd phase_stored r_url].
      split; [reflexivity|]. right. exists (c :: lp).
      split; [split; [exact Eg | discriminate] | exact Ee].
    + apply enter_attempt_stored. split; [exact Eg | discriminate].
  - split; [|apply grows_refl]. unfold phase_stored, unclassified. cbn [fst].
    now rewrite Eg.
Qed.

Lemma downloadAsset_store_stored (asset : nstr) (lp : str) (response : Response)
  (w : World) :
  classified asset lp ->
  phase_stored
    (snd (downloadAsset_store asset lp (Path.join [outputDir; lp]) response w))
    asset
    (Settled (Some (fst (downloadAsset_store asset lp (Path.join [outputDir; lp])
                           response w))))
  /\ grows w
       (snd (downloadAsset_store asset lp (Path.join [outputDir; lp]) response w)).
Proof.
  intros Hc. unfold downloadAsset_store.
  assert (Hg : grows w (writeFileSync (Path.join [outputDir; lp])
                          (ensureDir (Path.dirname (Path.join [outputDir; lp])) w))).
  { eapply grows_trans; [apply grows_ensureDir | apply grows_touch]. }
  destruct (endsWith (lit ".css") lp); cbn [fst snd phase_stored r_url];
    (split; [split; [reflexivity|] | exact Hg]);
    right; exists lp; (split; [exact Hc | apply existsSync_touch_same]).
Qed.

Lemma Kept_update (assets : list nstr) (s : Sched) (id : nat) (ph : Phase)
  (w' : World) (t : Task) :
  Inv cfg assets s -> Kept s -> find_task id (inProgress s) = Some t ->
  grows (world s) w' -> phase_stored w' (t_url t) ph ->
  Kept (update s id ph w').
Proof.
  intros [] [] Hf Hg Hph. apply find_task_In in Hf as [Hin Hid].
  constructor; cbn [update world inProgress results started].
  - unfold set_phase. apply Forall_map. rewrite Forall_forall in *.
    intros x Hx. destruct (t_id x =? id) eqn:E.
    + apply Nat.eqb_eq in E. cbn [t_url t_phase].
      destruct (inv_tasks0 x Hx) as [Hnx _]. destruct (inv_tasks0 t Hin) as [Hnt _].
      assert (Hu : t_url x = t_url t) by congruence.
      now rewrite Hu.
    + eapply phase_stored_grows; eauto.
  - eapply Forall_impl; [|exact kept_results0]. intros r. now apply stored_grows.
  - intros u Hu. unfold accounted. cbn [update results inProgress].
    rewrite set_phase_urls. now apply kept_started0.
Qed.

Lemma Kept_step (assets : list nstr) (s s' : Sched) (e : Event) :
  Inv cfg assets s -> Kept s -> step_ s e = Some s' -> Kept s'.
Proof.
  intros HI HK Hstep. destruct e as [|id|id|id]; cbn [step] in Hstep.
  - destruct HK.
    destruct (queue s) as [|asset rest] eqn:Eq; [discriminate|].
    destruct (length (inProgress s) <? concurrentDownloads cfg); [|discriminate].
    destruct (set_has asset (downloaded s)).
    + injection Hstep as <-. constructor; auto.
    + destruct (start_call_stored asset (world s)) as [Hph Hg].
      destruct (start_call cfg outputDir baseUrl asset (world s)) as [ph w1].
      cbn [fst snd] in Hph, Hg. injection Hstep as <-.
      constructor; cbn [world inProgress results started].
      * apply Forall_app. split.
        -- eapply Forall_impl; [|exact kept_tasks0].
           intros t. now apply phase_stored_grows.
        -- constructor; [exact Hph | constructor].
      * eapply Forall_impl; [|exact kept_results0]. intros r. now apply stored_grows.
      * intros u Hu. unfold accounted in *. cbn [results inProgress].
        rewrite map_app. cbn [map t_url].
        apply in_app_iff in Hu as [Hu|[<-|[]]].
        -- destruct (kept_started0 u Hu) as [H|H]; [now left|].
           right. rewrite !in_app_iff in *. tauto.
        -- right. rewrite !in_app_iff. simpl. tauto.
  - destruct (find_task id (inProgress s)) as [[tid asset ph]|] eqn:Ef;
      [|discriminate].
    destruct ph as [lp fp i call| |]; try discriminate.
    assert (Hp : phase_stored (world s) asset (Fetching lp fp i call)).
    { destruct HK. rewrite Forall_forall in kept_tasks0.
      apply find_task_In in Ef as [Hin _]. exact (kept_tasks0 _ Hin). }
    destruct Hp as [Hc ->].
    destruct (net call (url_text asset)) as [response|message].
    + destruct (@downloadAsset_store_stored asset lp response (world s) Hc) as [Hph Hg].
      destruct (downloadAsset_store asset lp (Path.join [outputDir; lp]) response
                  (world s)) as [r w1].
      cbn [fst snd] in Hph, Hg. injection Hstep as <-.
      eapply Kept_update; eauto.
    + destruct (i =? maxRetries cfg - 1); injection Hstep as <-;
        eapply Kept_update; eauto.
      * apply grows_refl.
      * split; [reflexivity|]. now left.
      * apply grows_sleep.
      * split; [exact Hc | reflexivity].
  - destruct (find_task id (inProgress s)) as [[tid asset ph]|] eqn:Ef;
      [|discriminate].
    destruct ph as [|lp fp i|]; try discriminate.
    assert (Hp : phase_stored (world s) asset (Sleeping lp fp i)).
    { destruct HK. rewrite Forall_forall in kept_tasks0.
      apply find_task_In in Ef as [Hin _]. exact (kept_tasks0 _ Hin). }
    destruct Hp as [Hc ->].
    destruct (@enter_attempt_stored asset lp (i + 1) (world s) Hc) as [Hph Hg].
    destruct (enter_attempt cfg asset lp (Path.join [outputDir; lp]) (i + 1)
                (world s)) as [ph w1].
    cbn [fst snd] in Hph, Hg. injection Hstep as <-.
    eapply Kept_update; eauto.
  - destruct HI, HK.
    destruct (find_task id (inProgress s)) as [[tid asset ph]|] eqn:Ef;
      [|discriminate].
    destruct ph as [| |result]; try discriminate.
    injection Hstep as <-.
    destruct (remove_task_split id (inProgress s) inv_ids0 Ef)
      as (l1 & l2 & Hl & Hrem).
    assert (Hp : phase_stored (world s) asset (Settled result)).
    { rewrite Forall_forall in kept_tasks0.
      apply find_task_In in Ef as [Hin _]. exact (kept_tasks0 _ Hin). }
    assert (Hrest : Forall (fun t => phase_stored (world s) (t_url t) (t_phase t))
                      (l1 ++ l2)).
    { rewrite Hl in kept_tasks0. apply Forall_app in kept_tasks0 as [H1 H2].
      inversion H2; subst. apply Forall_app. auto. }
    assert (Hold : forall u, In u (started s) ->
              unclassified u \/ u = asset
              \/ In u (map r_url (results s) ++ map t_url (l1 ++ l2))).
    { intros u Hu. destruct (kept_started0 u Hu) as [H|H]; [now left|].
      right. unfold accounted in H. rewrite Hl in H.
      rewrite !map_app, !in_app_iff in *. cbn [map t_url In] in H.
      intuition auto. }
    destruct result as [r|]; cbn [on_result].
    + destruct Hp as [Hu Hs].
      constructor; cbn [world inProgress results started]; rewrite ?Hrem.
      * exact Hrest.
      * apply Forall_app. split; [assumption|]. constructor; [exact Hs | constructor].
      * intros u Hin. unfold accounted. cbn [results inProgress].
        rewrite ?Hrem. destruct (Hold u Hin) as [H|[H|H]]; [now left| |].
        -- right. rewrite map_app, !in_app_iff. left. right. simpl. left.
           congruence.
        -- right. rewrite !map_app, !in_app_iff in *. tauto.
    + constructor; cbn [world inProgress results started]; rewrite ?Hrem.
      * exact Hrest.
      * assumption.
      * intros u Hin. unfold accounted. cbn [results inProgress].
        rewrite ?Hrem. destruct (Hold u Hin) as [H|[H|H]]; [now left| |].
        -- left. subst u. exact Hp.
        -- now right.
Qed.

Lemma Inv_Kept_run (assets : list nstr) (evs : list Event) :
  forall s s', Inv cfg assets s -> Kept s -> run_ s evs = Some s' ->
    Inv cfg assets s' /\ Kept s'.
Proof.
  induction evs as [|e evs IH]; intros s s' HI HK Hrun; simpl in Hrun.
  - injection Hrun as <-. auto.
  - destruct (step_ s e) as [s1|] eqn:E; [|discriminate].
    eapply IH; [| |exact Hrun].
    + eapply Inv_step; eauto.
    + eapply Kept_step; eauto.
Qed.

End StoredFacts.

Section SchedulerTheorem.

Context {rt : Runtime}.
Variable cfg : Config.
Variable net : Net.
Variables outputDir baseUrl : str.

#[local] Abbreviation step_ := (step cfg net outputDir baseUrl).
#[local] Abbreviation run_ := (run cfg net outputDir baseUrl).
#[local] Abbreviation fill_ := (fill cfg net outputDir baseUrl).
#[local] Abbreviation loop_ := (main_loop cfg net outputDir baseUrl).

Lemma run_app (a b : list Event) :
  forall s, run_ s (a ++ b)
            = match run_ s a with Some s' => run_ s' b | None => None end.
Proof.
  induction a as [|e a IH]; intros s; simpl; [reflexivity|].
  destruct (step_ s e) as [s1|]; [apply IH | reflexivity].
Qed.

(** The inner loop is a run of [Fill] events. *)
Lemma fill_run (n : nat) :
  forall s, exists k, run_ s (repeat Fill k) = Some (fill_ n s).
Proof.
  induction n as [|n IH]; intros s.
  - exists 0. reflexivity.
  - cbn [fill]. destruct (step_ s Fill) as [s1|] eqn:E.
    + destruct (IH s1) as [k Hk]. exists (S k). cbn [repeat run]. now rewrite E.
    + exists 0. reflexivity.
Qed.

Lemma loop_test_final (s : Sched) : loop_test s = false -> final s.
Proof.
  unfold loop_test, final. intros H. apply orb_false_iff in H as [Hq Hp].
  apply negb_false_iff, Nat.eqb_eq in Hq, Hp.
  split; now apply length_zero_iff_nil.
Qed.

(** Where the outer loop ends is a state of a run of the machine, and the
    test of the loop fails there. *)
Lemma main_loop_run (rounds : list (list Event)) :
  forall s s', loop_ rounds s = Some s' ->
    (exists evs, run_ s evs = Some s') /\ final s'.
Proof.
  induction rounds as [|evs rest IH]; intros s s' H; cbn [main_loop] in H;
    (destruct (loop_test s) eqn:Et;
     [|injection H as <-; split; [now exists []|now apply loop_test_final]]);
    destruct (fill_run (length (queue s)) s) as [k Hk];
    destruct (inProgress (fill_ (length (queue s)) s)) as [|t l];
    try discriminate;
    try (destruct (loop_test (fill_ (length (queue s)) s)) eqn:Et1;
         [discriminate|]; injection H as <-;
         split; [now exists (repeat Fill k) | now apply loop_test_final]).
  destruct (forallb awaited evs && existsb is_then evs); [|discriminate].
  destruct (run_ (fill_ (length (queue s)) s) evs) as [s2|] eqn:Er; [|discriminate].
  destruct (IH _ _ H) as [[evs' He] Hf]. split; [|exact Hf].
  exists (repeat Fill k ++ evs ++ evs').
  now rewrite run_app, Hk, run_app, Er.
Qed.

(** What [downloadAssetsWithConcurrency] returns is read off the state
    its loop ends in. *)
Lemma downloadAssetsWithConcurrency_loop (assets : list nstr)
  (rounds : list (list Event)) (w : World) (res : list Result) (w' : World) :
  downloadAssetsWithConcurrency cfg net outputDir baseUrl assets rounds w
  = Some (res, w') ->
  exists s, loop_ rounds (init assets w) = Some s
            /\ res = results s /\ w' = world s.
Proof.
  unfold downloadAssetsWithConcurrency.
  destruct (loop_ rounds (init assets w)) as [s|]; [|discriminate].
  intros H. injection H as <- <-. now exists s.
Qed.


End SchedulerTheorem.


Section RerunTheorem.

Context {rt : Runtime}.
Variable cfg : Config.
Variable net : Net.
Variables outputDir baseUrl : str.

#[local] Abbreviation run_ := (run cfg net outputDir baseUrl).

Lemma begin_classified (asset : nstr) (lp : str) (w : World) :
  classified baseUrl asset lp ->
  existsSync (Path.join [outputDir; lp]) w = true ->
  downloadAsset_begin outputDir baseUrl asset w
  = Finished (Some (cached_result asset lp)).
Proof.
  intros [Hg Hne] He. cbv beta zeta delta [downloadAsset_begin].
  rewrite Hg. destruct lp as [|c lp]; [congruence|]. now rewrite He.
Qed.

Lemma begin_unclassified (asset : nstr) (w : World) :
  unclassified baseUrl asset ->
  downloadAsset_begin outputDir baseUrl asset w = Finished None.
Proof.
  unfold unclassified. cbv beta zeta delta [downloadAsset_begin].
  destruct (getLocalPath (url_text asset) baseUrl) as [[|c lp]|];
    simpl; congruence.
Qed.

(** After a run that ended without a failure, every asset of the frontier
    settles at once against the folder the run left. *)
Lemma frontier_settles (assets : list nstr) (w0 w1 : World) (evs : list Event)
  (s : Sched) :
  run_ (init assets w0) evs = Some s -> final s ->
  Forall (fun r => r_status r <> Failed) (results s) ->
  grows (world s) w1 ->
  forallb (fun a => settles_at_once outputDir baseUrl a w1) assets = true.
Proof.
  intros Hrun [Hq Hp] Hok Hg.
  destruct (Inv_Kept_run net evs (Inv_init cfg assets w0)
              (Kept_init outputDir baseUrl assets w0) Hrun) as [[] []].
  apply forallb_forall. intros a Ha. unfold settles_at_once.
  destruct (inv_frontier0 a Ha) as [H|Hst]; [rewrite Hq in H; destruct H|].
  destruct (kept_started0 a Hst) as [Hu|Hacc].
  - now rewrite begin_unclassified.
  - unfold accounted in Hacc. rewrite Hp in Hacc. cbn [map] in Hacc.
    rewrite app_nil_r in Hacc. apply in_map_iff in Hacc as (r & <- & Hr).
    rewrite Forall_forall in kept_results0, Hok.
    destruct (kept_results0 r Hr) as [Hf|(lp & Hc & He)].
    + now apply Hok in Hf.
    + rewrite (begin_classified w1 Hc); [reflexivity|]. now apply Hg.
Qed.

(** C5, as amended.  An asset whose local path exists under the output
    directory is reported [cached] by [downloadAsset] and the world is left
    as it was: no request is sent.  Consequently a run of the scheduler
    over a frontier whose assets all settle this way sends no request and
    reports nothing but cache hits; and that is the case for a second run
    over the same frontier against the folder left by a first run in which
    no asset failed. *)
Theorem cached_assets_need_no_fetch :
  (forall asset lp w,
     classified baseUrl asset lp ->
     existsSync (Path.join [outputDir; lp]) w = true ->
     downloadAsset cfg net outputDir baseUrl asset w
     = (Some (cached_result asset lp), w))
  /\ (forall assets w0 evs s,
        forallb (fun a => settles_at_once outputDir baseUrl a w0) assets = true ->
        run_ (init assets w0) evs = Some s ->
        world s = w0 /\ Forall (fun r => r_status r = Cached) (results s))
  /\ (forall assets w0 evs1 s1 w1 evs2 s2,
        run_ (init assets w0) evs1 = Some s1 -> final s1 ->
        Forall (fun r => r_status r <> Failed) (results s1) ->
        grows (world s1) w1 ->
        run_ (init assets w1) evs2 = Some s2 ->
        world s2 = w1 /\ Forall (fun r => r_status r = Cached) (results s2)).
Proof.
  assert (Hidle : forall assets w0 evs s,
            forallb (fun a => settles_at_once outputDir baseUrl a w0) assets = true ->
            run_ (init assets w0) evs = Some s ->
            world s = w0 /\ Forall (fun r => r_status r = Cached) (results s)).
  { intros assets w0 evs s Hall Hrun.
    assert (H0 : Idle assets w0 (init assets w0)).
    { constructor; simpl; auto. apply incl_refl. }
    destruct (Idle_run cfg net outputDir baseUrl evs Hall H0 Hrun) as [].
    split; [assumption|].
    eapply Forall_impl; [|exact idle_results0]. intros r [H _]. exact H. }
  split; [|split; [exact Hidle|]].
  - intros asset lp w Hc He. unfold downloadAsset.
    now rewrite (begin_classified w Hc He).
  - intros assets w0 evs1 s1 w1 evs2 s2 Hrun1 Hfin Hok Hg Hrun2.
    eapply Hidle; [|exact Hrun2].
    eapply frontier_settles; [exact Hrun1 | exact Hfin | exact Hok | exact Hg].
Qed.

End RerunTheorem.

Lemma cached_assets_need_no_fetch_witness :
  final demo_second
  /\ requests (world demo_second) = requests (world demo_first)
  /\ Forall (fun r => r_status r = Cached) (results demo_second).
Proof.
  destruct (@cached_assets_need_no_fetch node demo_config demo_net (lit "out")
              example_base) as (_ & _ & Hrerun).
  destruct (Hrerun demo_assets empty_world demo_events demo_first
              (world demo_first) cached_events demo_second) as [Hw Hc].
  - vm_compute. reflexivity.
  - split; reflexivity.
  - vm_compute. repeat constructor; discriminate.
  - apply grows_refl.
  - vm_compute. reflexivity.
  - split; [split; reflexivity|]. split; [now rewrite Hw | exact Hc].
Defined.

(** C5, as stated, fails: an asset the origin refuses is not on disk after
    the first run, and the second run, against the same origin and the same
    folder, sends three more requests for it. *)
Lemma rerun_fetches_failed_asset_again :
  length (requests (world failing_first)) = 3
  /\ length (requests (world failing_second)) = 6
  /\ ~ (forall assets evs1 s1 evs2 s2,
          run CONFIG unreachable (lit "out") example_base
            (init assets empty_world) evs1 = Some s1 ->
          final s1 ->
          run CONFIG unreachable (lit "out") example_base
            (init assets (world s1)) evs2 = Some s2 ->
          final s2 ->
          requests (world s2) = requests (world s1)).
Proof.
  split; [reflexivity|]. split; [reflexivity|].
  intros H.
  specialize (H [demo_img1] failing_events failing_first failing_events
                failing_second).
  assert (E : requests (world failing_second) = requests (world failing_first)).
  { apply H.
    - vm_compute. reflexivity.
    - split; reflexivity.
    - vm_compute. reflexivity.
    - split; reflexivity. }
  apply (f_equal (@length str)) in E. vm_compute in E. discriminate E.
Qed.

(* ------------------------------------------------------------------ *)
(** ** The outcome of the retry wrapper *)
(* ------------------------------------------------------------------ *)

Section RetryOutcomes.

Variable cfg : Config.
Variable net : Net.

#[local] Abbreviation backoff := (backoff cfg).

Lemma retry_from_first_success (retries : nat) (targetUrl : str)
  (response : Response) :
  forall k i left w,
    i + left = retries -> k < left ->
    (forall j, j < k -> exists e, net (length (requests w) + j) targetUrl = inr e) ->
    net (length (requests w) + k) targetUrl = inl response ->
    retry_from cfg net retries i left targetUrl w
    = (Returned (Some response),
       {| requests := requests w ++ repeat targetUrl (S k);
          delays := delays w ++ map backoff (seq (i + 1) k);
          disk := disk w |}).
Proof.
  induction k as [|k IH]; intros i left w Hsum Hlt Hfail Hok;
    (destruct left as [|left]; [lia|]); cbn [retry_from fetchUrl issue].
  - rewrite Nat.add_0_r in Hok. rewrite Hok. cbn [repeat seq map].
    now rewrite app_nil_r.
  - destruct (Hfail 0 ltac:(lia)) as [e He]. rewrite Nat.add_0_r in He.
    rewrite He.
    replace (i =? retries - 1) with false by (symmetry; apply Nat.eqb_neq; lia).
    rewrite (IH (i + 1) left); cbn [requests delays disk sleep].
    + f_equal. f_equal.
      * rewrite <- app_assoc. reflexivity.
      * rewrite <- app_assoc. cbn [seq map app].
        now replace (i + 1 + 1) with (S (i + 1)) by lia.
    + lia.
    + lia.
    + intros j Hj. rewrite length_app. cbn [length].
      replace (length (requests w) + 1 + j) with (length (requests w) + S j) by lia.
      apply Hfail. lia.
    + rewrite length_app. cbn [length].
      now replace (length (requests w) + 1 + k) with (length (requests w) + S k) by lia.
Qed.


Lemma retry_from_exhausted (retries : nat) (targetUrl : str) (errors : nat -> str) :
  forall left i w,
    i + left = retries -> 0 < left ->
    (forall j, j < left ->
       net (length (requests w) + j) targetUrl = inr (errors (i + j))) ->
    retry_from cfg net retries i left targetUrl w
    = (Thrown (errors (retries - 1)),
       {| requests := requests w ++ repeat targetUrl left;
          delays := delays w ++ map backoff (seq (i + 1) (left - 1));
          disk := disk w |}).
Proof.
  induction left as [|left IH]; intros i w Hsum Hpos Herr; [lia|].
  cbn [retry_from fetchUrl issue].
  pose proof (Herr 0 ltac:(lia)) as H0. rewrite !Nat.add_0_r in H0. rewrite H0.
  destruct (i =? retries - 1) eqn:Elast.
  - apply Nat.eqb_eq in Elast. assert (left = 0) by lia. subst left.
    cbn [repeat Nat.sub seq map]. rewrite app_nil_r.
    now replace (retries - 1) with i by lia.
  - apply Nat.eqb_neq in Elast. destruct left as [|left]; [lia|].
    rewrite (IH (i + 1)); cbn [requests delays disk sleep].
    + f_equal. f_equal.
      * rewrite <- app_assoc. reflexivity.
      * rewrite <- app_assoc. cbn [Nat.sub seq map app].
        rewrite Nat.sub_0_r.
        now replace (i + 1 + 1) with (S (i + 1)) by lia.
    + lia.
    + lia.
    + intros j Hj. rewrite length_app. cbn [length].
      replace (length (requests w) + 1 + j) with (length (requests w) + S j) by lia.
      replace (i + 1 + j) with (i + S j) by lia.
      apply Herr. lia.
Qed.


End RetryOutcomes.



(* ------------------------------------------------------------------ *)
(** ** The prober against any network *)
(* ------------------------------------------------------------------ *)

Section ProberBounds.

Context {rt : Runtime}.
Variable cfg : Config.
Variable net : Net.
Variables baseUrl outputDir : str.

(** The file of a page template is on disk. *)
#[local] Abbreviation on_disk p w :=
  (exists lp, getLocalPath p baseUrl = Some lp
              /\ existsSync (Path.join [outputDir; lp]) w = true).

Lemma try_pattern_any (p : str) (w : World) :
  requests (snd (try_pattern cfg net baseUrl outputDir p w)) = requests w ++ [p]
  /\ delays (snd (try_pattern cfg net baseUrl outputDir p w)) = delays w
  /\ grows w (snd (try_pattern cfg net baseUrl outputDir p w))
  /\ (fst (try_pattern cfg net baseUrl outputDir p w) = true ->
      on_disk p (snd (try_pattern cfg net baseUrl outputDir p w))).
Proof.
  unfold try_pattern, fetchWithRetry. cbn [retry_from fetchUrl issue].
  destruct (net (length (requests w)) p) as [response|message].
  - destruct (getLocalPath p baseUrl) as [lp|]; cbn [fst snd].
    + unfold writeFileSync.
      rewrite touch_requests, ensureDir_requests, touch_delays, ensureDir_delays.
      split; [reflexivity|]. split; [reflexivity|]. split.
      * eapply grows_trans; [|apply grows_touch].
        eapply grows_trans; [|apply grows_ensureDir].
        apply (grows_issue p w).
      * intros _. exists lp. split; [reflexivity|]. apply existsSync_touch_same.
    + split; [reflexivity|]. split; [reflexivity|].
      split; [apply (grows_issue p w) | discriminate].
  - cbn [Nat.eqb Nat.sub fst snd].
    split; [reflexivity|]. split; [reflexivity|].
    split; [apply (grows_issue p w) | discriminate].
Qed.

Lemma on_disk_grows (p : str) (w w' : World) :
  grows w w' -> on_disk p w -> on_disk p w'.
Proof. intros G (lp & E & H). exists lp. split; [exact E | now apply G]. Qed.

Lemma try_patterns_any (ps : list str) :
  forall w,
    exists new,
      requests (snd (try_patterns cfg net baseUrl outputDir ps w)) = requests w ++ new
      /\ length new <= length ps /\ incl new ps
      /\ delays (snd (try_patterns cfg net baseUrl outputDir ps w)) = delays w
      /\ grows w (snd (try_patterns cfg net baseUrl outputDir ps w))
      /\ (forall p, fst (try_patterns cfg net baseUrl outputDir ps w) = Some p ->
            In p new
            /\ on_disk p (snd (try_patterns cfg net baseUrl outputDir ps w))).
Proof.
  induction ps as [|p ps IH]; intros w; cbn [try_patterns].
  - exists []. cbn [fst snd]. rewrite app_nil_r.
    split; [reflexivity|]. split; [lia|]. split; [intros x []|].
    split; [reflexivity|]. split; [apply grows_refl | discriminate].
  - destruct (try_pattern_any p w) as (Hr & Hd & Hg & Hs).
    destruct (try_pattern cfg net baseUrl outputDir p w) as [[|] w1];
      cbn [fst snd] in *.
    + exists [p].
      split; [exact Hr|]. split; [simpl; lia|].
      split; [intros x [<-|[]]; now left|].
      split; [exact Hd|]. split; [exact Hg|].
      intros q E. injection E as <-. split; [now left | now apply Hs].
    + destruct (IH w1) as (new & Hr' & Hl & Hi & Hd' & Hg' & Hs').
      exists (p :: new). rewrite Hr', Hr, <- app_assoc.
      split; [reflexivity|]. split; [simpl; lia|].
      split; [intros x [<-|Hx]; [now left | right; now apply Hi]|].
      split; [congruence|]. split; [eapply grows_trans; eassumption|].
      intros q E. destruct (Hs' q E) as [Hin Hdisk].
      split; [now right | exact Hdisk].
Qed.

Lemma patterns_length (n : nat) : length (patterns baseUrl n) = 6.
Proof. reflexivity. Qed.

Lemma probe_from_any :
  forall left pageNum pages w,
    exists more new,
      fst (probe_from cfg net baseUrl outputDir pageNum left pages w) = pages ++ more
      /\ length more <= left
      /\ requests (snd (probe_from cfg net baseUrl outputDir pageNum left pages w))
         = requests w ++ new
      /\ length new <= 6 * Nat.min (S (length more)) left
      /\ Forall (fun u => exists i,
                   pageNum <= i < pageNum + Nat.min (S (length more)) left
                   /\ In u (patterns baseUrl i)) new
      /\ delays (snd (probe_from cfg net baseUrl outputDir pageNum left pages w))
         = delays w
      /\ grows w (snd (probe_from cfg net baseUrl outputDir pageNum left pages w))
      /\ (forall i p, nth_error more i = Some p ->
            In p (patterns baseUrl (pageNum + i))
            /\ In p new
            /\ on_disk p
                 (snd (probe_from cfg net baseUrl outputDir pageNum left pages w))).
Proof.
  induction left as [|left IH]; intros pageNum pages w; cbn [probe_from].
  - exists [], []. cbn [fst snd length]. rewrite !app_nil_r.
    split; [reflexivity|]. split; [lia|]. split; [reflexivity|].
    split; [lia|]. split; [constructor|]. split; [reflexivity|].
    split; [apply grows_refl|]. intros [|i] p H; discriminate H.
  - destruct (try_patterns_any (patterns baseUrl pageNum) w)
      as (new0 & Hr & Hl & Hi & Hd & Hg & Hs).
    rewrite patterns_length in Hl.
    destruct (try_patterns cfg net baseUrl outputDir (patterns baseUrl pageNum) w)
      as [[p|] w1]; cbn [fst snd] in *.
    + destruct (Hs p eq_refl) as (Hin & Hdisk).
      destruct (IH (pageNum + 1) (pages ++ [p]) w1)
        as (more & new & Hf' & Hm' & Hr' & Hl' & Ha' & Hd' & Hg' & Hs').
      exists (p :: more), (new0 ++ new).
      rewrite Hf', Hr', Hr, Hd', Hd, <- !app_assoc. cbn [length app].
      split; [reflexivity|]. split; [lia|]. split; [reflexivity|].
      split; [rewrite length_app; lia|].
      split.
      { apply Forall_app. split.
        - apply Forall_forall. intros u Hu. exists pageNum. split; [lia|].
          now apply Hi.
        - eapply Forall_impl; [|exact Ha']. cbv beta.
          intros u (i & Hb & Hu). exists i. split; [lia | exact Hu]. }
      split; [reflexivity|]. split; [eapply grows_trans; eassumption|].
      intros [|i] q H; cbn [nth_error] in H.
      * injection H as <-. rewrite Nat.add_0_r.
        split; [now apply Hi|]. split; [apply in_or_app; now left|].
        eapply on_disk_grows; eassumption.
      * replace (pageNum + S i) with (pageNum + 1 + i) by lia.
        destruct (Hs' i q H) as (H1 & H2 & H3).
        split; [exact H1|]. split; [apply in_or_app; now right | exact H3].
    + exists [], new0. cbn [length]. rewrite app_nil_r.
      split; [reflexivity|]. split; [lia|]. split; [exact Hr|].
      split; [lia|].
      split.
      { apply Forall_forall. intros u Hu. exists pageNum. split; [lia|].
        now apply Hi. }
      split; [exact Hd|]. split; [exact Hg|].
      intros [|i] q H; discriminate H.
Qed.


(** X4.  Whatever the network answers, the entry [i] of the list
    [downloadBookPages] returns is one of the six templates of page
    [i + 1], it was requested, the classifier gives it a local path, and the
    file at that path under the output folder exists when the prober
    returns.  The prober deletes nothing. *)
Theorem downloadBookPages_pages_on_disk (w : World) (i : nat) (p : str) :
  let pages := fst (downloadBookPages cfg net baseUrl outputDir w) in
  let w' := snd (downloadBookPages cfg net baseUrl outputDir w) in
  nth_error pages i = Some p ->
  In p (patterns baseUrl (S i))
  /\ In p (requests w')
  /\ (exists lp, getLocalPath p baseUrl = Some lp
                 /\ existsSync (Path.join [outputDir; lp]) w' = true)
  /\ grows w w'.
Proof.
  intros pages w'. subst pages w'. unfold downloadBookPages.
  destruct (probe_from_any maxPages 1 []
              (ensureDir (Path.join [outputDir; lit "files"; lit "mobile"]) w))
    as (more & new & Hf & _ & Hr & _ & _ & _ & Hg & Hs).
  rewrite Hf, Hr. cbn [app]. intros H.
  destruct (Hs i p H) as (H1 & H2 & H3).
  split; [exact H1|]. split; [apply in_or_app; now right|].
  split; [exact H3|].
  eapply grows_trans; [apply grows_ensureDir | exact Hg].
Qed.

End ProberBounds.

Section ProberCeiling.

Context {rt : Runtime}.
Variable cfg : Config.
Variable origin : str -> Response + str.
Variables baseUrl outputDir : str.

#[local] Abbreviation steady := (steady origin).
#[local] Abbreviation served := (served origin).
#[local] Abbreviation classifiable := (classifiable baseUrl).
#[local] Abbreviation tried := (tried origin).
#[local] Abbreviation first_served := (first_served origin).

Lemma probe_from_all_served :
  forall N pageNum pages w,
    forallb (fun i => existsb served (patterns baseUrl i)) (seq pageNum N) = true ->
    forallb (fun i => forallb classifiable (patterns baseUrl i)) (seq pageNum N)
    = true ->
    fst (probe_from cfg steady baseUrl outputDir pageNum N pages w)
    = pages ++ map (fun i => first_served (patterns baseUrl i)) (seq pageNum N)
    /\ requests (snd (probe_from cfg steady baseUrl outputDir pageNum N pages w))
       = requests w ++ flat_map (fun i => tried (patterns baseUrl i)) (seq pageNum N)
    /\ delays (snd (probe_from cfg steady baseUrl outputDir pageNum N pages w))
       = delays w.
Proof.
  induction N as [|N IH]; intros pageNum pages w Hs Hc; cbn [probe_from].
  - cbn [fst snd seq map flat_map]. now rewrite !app_nil_r.
  - cbn [seq forallb] in Hs, Hc.
    apply andb_true_iff in Hs as [Hs0 Hs]. apply andb_true_iff in Hc as [Hc0 Hc].
    destruct (@try_patterns_spec rt cfg origin baseUrl outputDir
                (patterns baseUrl pageNum) w Hc0) as (Hf & Hr & Hd).
    destruct (try_patterns cfg steady baseUrl outputDir (patterns baseUrl pageNum) w)
      as [found w1].
    cbn [fst snd] in Hf, Hr, Hd.
    destruct (@existsb_find origin _ Hs0) as [p Hp].
    rewrite Hp in Hf. subst found.
    replace (pageNum + 1) with (S pageNum) by lia.
    destruct (IH (S pageNum) (pages ++ [p]) w1 Hs Hc) as (Hf' & Hr' & Hd').
    rewrite Hf', Hr', Hr, Hd', Hd.
    cbn [seq map flat_map]. unfold first_served at 2. rewrite Hp.
    rewrite <- !app_assoc. auto.
Qed.


End ProberCeiling.

Lemma downloadBookPages_pages_on_disk_witness :
  In (lit "https://site.example/a/b/5.jpg") (patterns example_base 5)
  /\ existsSync (lit "out/a/b/5.jpg")
       (snd (downloadBookPages CONFIG (steady five_page_origin) example_base
               (lit "out") empty_world)) = true.
Proof.
  destruct (@downloadBookPages_pages_on_disk node CONFIG (steady five_page_origin)
              example_base (lit "out") empty_world 4
              (lit "https://site.example/a/b/5.jpg"))
    as (Hin & _ & (lp & Hlp & Hdisk) & _).
  - vm_compute. reflexivity.
  - split; [exact Hin|].
    assert (E : lp = lit "a/b/5.jpg").
    { vm_compute in Hlp. now injection Hlp as <-. }
    subst lp. exact Hdisk.
Defined.


(* ------------------------------------------------------------------ *)
(** ** Directories *)
(* ------------------------------------------------------------------ *)

Section EnsureDirFacts.

Lemma ancestors_self (fuel : nat) (d : str) : In d (ancestors fuel d).
Proof.
  destruct fuel as [|fuel]; cbn [ancestors]; [now left|].
  destruct (str_eqb (Path.dirname d) d); [now left|].
  apply in_or_app. right. now left.
Qed.

Lemma existsSync_touch_inv (p q : str) (w : World) :
  existsSync p (touch q w) = true -> existsSync p w = true \/ p = q.
Proof.
  unfold touch. destruct (existsSync q w); [auto|].
  unfold existsSync. cbn [disk]. rewrite existsb_app. cbn [existsb].
  rewrite orb_false_r. intros H. apply orb_true_iff in H as [H|H]; [auto|].
  right. now apply str_eqb_eq.
Qed.

Lemma existsSync_fold_touch (l : list str) :
  forall w p,
    existsSync p (fold_left (fun w' d => touch d w') l w) = true
    <-> existsSync p w = true \/ In p l.
Proof.
  induction l as [|d l IH]; intros w p; cbn [fold_left In]; [tauto|].
  rewrite IH. split.
  - intros [H|H]; [|auto]. apply existsSync_touch_inv in H as [H| ->]; auto.
  - intros [H|[<-|H]]; auto.
    + left. now apply grows_touch.
    + left. apply existsSync_touch_same.
Qed.


End EnsureDirFacts.

(* ------------------------------------------------------------------ *)
(** ** The components of a path *)
(* ------------------------------------------------------------------ *)

Module SplitFacts.

Import Path PathFacts.

Lemma split_slash_aux_parts (s : str) :
  forall cur, slashless cur -> Forall slashless (split_slash_aux cur s).
Proof.
  induction s as [|c s IH]; intros cur Hcur; cbn [split_slash_aux].
  - constructor; [now apply slashless_rev | constructor].
  - destruct (is_slash c) eqn:E.
    + constructor; [now apply slashless_rev|]. apply IH. constructor.
    + apply IH. now constructor.
Qed.

End SplitFacts.

(* ------------------------------------------------------------------ *)
(** ** The book URL *)
(* ------------------------------------------------------------------ *)

Section BookUrlFacts.

Context {rt : Runtime}.

Import Path PathFacts JoinFacts SplitFacts.

Lemma path_parts_plain (pathname : str) :
  Forall (fun p => p <> [] /\ slashless p) (path_parts pathname).
Proof.
  unfold path_parts. apply Forall_forall. intros p Hp.
  apply filter_In in Hp as [Hin Hne]. split.
  - intros ->. discriminate Hne.
  - pose proof (split_slash_aux_parts pathname (cur := [])
                  ltac:(constructor)) as H.
    rewrite Forall_forall in H. now apply H.
Qed.

Lemma path_parts_two (a b : str) :
  a <> [] -> slashless a -> b <> [] -> slashless b ->
  path_parts (lit "/" ++ a ++ lit "/" ++ b ++ lit "/") = [a; b].
Proof.
  intros Ha Sa Hb Sb. unfold path_parts, split_slash.
  replace (lit "/" ++ a ++ lit "/" ++ b ++ lit "/")
    with ((([] ++ "/"%char :: a) ++ "/"%char :: b) ++ "/"%char :: [])
    by (cbn [lit String.list_ascii_of_string app]; now rewrite <- !app_assoc).
  rewrite split_slash_aux_snoc by constructor.
  rewrite split_slash_aux_snoc by exact Sb.
  rewrite split_slash_aux_snoc by exact Sa.
  cbn [split_slash_aux rev app filter str_eqb negb].
  destruct a as [|x a]; [congruence|]. destruct b as [|y b]; [congruence|].
  reflexivity.
Qed.

Lemma parseFlipHTML5Url_book_parts (bookUrl : str) (b : BookInfo) :
  parseFlipHTML5Url bookUrl = Book b ->
  exists urlObj,
    new_URL bookUrl None = Some urlObj
    /\ b_host b = host urlObj
    /\ b_protocol b = protocol urlObj
    /\ firstn 2 (path_parts (pathname urlObj)) = [bookId1 b; bookId2 b]
    /\ bookId1 b <> [] /\ slashless (bookId1 b)
    /\ bookId2 b <> [] /\ slashless (bookId2 b)
    /\ b_baseUrl b
       = protocol urlObj ++ lit "//" ++ host urlObj
         ++ lit "/" ++ bookId1 b ++ lit "/" ++ bookId2 b ++ lit "/".
Proof.
  unfold parseFlipHTML5Url.
  destruct (new_URL bookUrl None) as [urlObj|]; [|discriminate].
  pose proof (path_parts_plain (pathname urlObj)) as Hparts.
  destruct (path_parts (pathname urlObj)) as [|p0 [|p1 rest]] eqn:Ep;
    try discriminate.
  intros E. injection E as <-. exists urlObj. rewrite Ep. cbn.
  inversion Hparts as [|? ? [H0 S0] Hrest]; subst.
  inversion Hrest as [|? ? [H1 S1] _]; subst.
  repeat split; auto.
Qed.

(** X7.  When [parseFlipHTML5Url] returns a book, the URL parsed, the two
    book identifiers are the first two non-empty segments of its path,
    neither is empty and neither holds a slash, and [baseUrl] is the
    protocol, the host and the two identifiers, each followed by a slash.
    Whatever follows the second segment, and the query string and the
    fragment, play no part. *)
Theorem parseFlipHTML5Url_book (bookUrl : str) (b : BookInfo) :
  parseFlipHTML5Url bookUrl = Book b ->
  exists urlObj,
    new_URL bookUrl None = Some urlObj
    /\ b_host b = host urlObj
    /\ b_protocol b = protocol urlObj
    /\ firstn 2 (path_parts (pathname urlObj)) = [bookId1 b; bookId2 b]
    /\ bookId1 b <> [] /\ slashless (bookId1 b)
    /\ bookId2 b <> [] /\ slashless (bookId2 b)
    /\ b_baseUrl b
       = protocol urlObj ++ lit "//" ++ host urlObj
         ++ lit "/" ++ bookId1 b ++ lit "/" ++ bookId2 b ++ lit "/".
Proof. apply parseFlipHTML5Url_book_parts. Qed.

(** X8.  The base URL of a book names the same book: when the runtime
    parses [baseUrl] back to the protocol, the host and the path
    [/id1/id2/] it was built from, [parseFlipHTML5Url(baseUrl)] returns the
    very object that [baseUrl] came from. *)
Theorem parseFlipHTML5Url_baseUrl (bookUrl : str) (b : BookInfo) (again : URL) :
  parseFlipHTML5Url bookUrl = Book b ->
  new_URL (b_baseUrl b) None = Some again ->
  protocol again = b_protocol b ->
  host again = b_host b ->
  pathname again = lit "/" ++ bookId1 b ++ lit "/" ++ bookId2 b ++ lit "/" ->
  parseFlipHTML5Url (b_baseUrl b) = Book b.
Proof.
  intros Hb Hu Hp Hh Hn.
  destruct (@parseFlipHTML5Url_book_parts bookUrl b Hb)
    as (urlObj & _ & Eh & Ep & _ & H1 & S1 & H2 & S2 & Eb).
  unfold parseFlipHTML5Url. rewrite Hu, Hn.
  rewrite path_parts_two by assumption.
  rewrite Hp, Hh. f_equal. destruct b as [bh bp b1 b2 bb]. cbn in *.
  subst. now rewrite Eh, Ep.
Qed.

End BookUrlFacts.

Lemma parseFlipHTML5Url_book_witness :
  exists urlObj,
    new_URL (lit "https://online.fliphtml5.com/abcde/fghij/index.html?p=3#top") None
    = Some urlObj
    /\ firstn 2 (path_parts (pathname urlObj)) = [lit "abcde"; lit "fghij"].
Proof.
  destruct (@parseFlipHTML5Url_book node
              (lit "https://online.fliphtml5.com/abcde/fghij/index.html?p=3#top")
              {| b_host := lit "online.fliphtml5.com"; b_protocol := lit "https:";
                 bookId1 := lit "abcde"; bookId2 := lit "fghij";
                 b_baseUrl := lit "https://online.fliphtml5.com/abcde/fghij/" |})
    as (urlObj & Hu & _ & _ & Hp & _).
  - vm_compute. reflexivity.
  - exists urlObj. split; [exact Hu | exact Hp].
Defined.

Lemma parseFlipHTML5Url_baseUrl_witness :
  parseFlipHTML5Url (lit "https://online.fliphtml5.com/abcde/fghij/")
  = Book {| b_host := lit "online.fliphtml5.com"; b_protocol := lit "https:";
            bookId1 := lit "abcde"; bookId2 := lit "fghij";
            b_baseUrl := lit "https://online.fliphtml5.com/abcde/fghij/" |}.
Proof.
  apply (@parseFlipHTML5Url_baseUrl node
           (lit "https://online.fliphtml5.com/abcde/fghij/index.html?p=3#top")
           {| b_host := lit "online.fliphtml5.com"; b_protocol := lit "https:";
              bookId1 := lit "abcde"; bookId2 := lit "fghij";
              b_baseUrl := lit "https://online.fliphtml5.com/abcde/fghij/" |}
           {| protocol := lit "https:"; host := lit "online.fliphtml5.com";
              pathname := lit "/abcde/fghij/"; search := []; hash := [];
              href := lit "https://online.fliphtml5.com/abcde/fghij/" |});
    vm_compute; reflexivity.
Defined.

(* ------------------------------------------------------------------ *)
(** ** The references of a configuration file *)
(* ------------------------------------------------------------------ *)

Section ConfigExtractorFacts.

Context {rt : Runtime}.

(** What a matched reference contributes to the set. *)
#[local] Abbreviation contributes baseUrl assetPath a :=
  ((startsWith (lit "http") assetPath = true /\ a = Some assetPath)
   \/ (startsWith (lit "http") assetPath = false
       /\ startsWith (lit "data:") assetPath = false
       /\ resolveUrl assetPath baseUrl = a /\ truthy a = true)).

Lemma addConfigPath_NoDup (baseUrl : str) (assets : list nstr) (assetPath : str) :
  NoDup assets -> NoDup (addConfigPath baseUrl assets assetPath).
Proof.
  intros H. unfold addConfigPath.
  destruct (negb (startsWith (lit "data:") assetPath)
            && negb (startsWith (lit "http") assetPath)).
  - destruct (resolveUrl assetPath baseUrl) as [[|c r]|]; try exact H.
    now apply set_add_NoDup.
  - destruct (startsWith (lit "http") assetPath); [|exact H].
    now apply set_add_NoDup.
Qed.

Lemma addConfigPath_In (baseUrl : str) (assets : list nstr) (assetPath : str)
  (a : nstr) :
  In a (addConfigPath baseUrl assets assetPath)
  <-> In a assets \/ contributes baseUrl assetPath a.
Proof.
  unfold addConfigPath.
  destruct (startsWith (lit "data:") assetPath) eqn:Ed;
    destruct (startsWith (lit "http") assetPath) eqn:Eh; cbn [negb andb].
  - rewrite set_add_In. intuition congruence.
  - intuition congruence.
  - rewrite set_add_In. intuition congruence.
  - destruct (resolveUrl assetPath baseUrl) as [[|c r]|] eqn:Er.
    + split; [auto|]. intros [H|[[H _]|(_ & _ & <- & H)]]; auto; discriminate.
    + rewrite set_add_In. split.
      * intros [H| ->]; auto. right. right. auto.
      * intros [H|[[H _]|(_ & _ & <- & H)]]; auto. discriminate.
    + split; [auto|]. intros [H|[[H _]|(_ & _ & <- & H)]]; auto; discriminate.
Qed.

Lemma contributes_truthy (baseUrl assetPath : str) (a : nstr) :
  contributes baseUrl assetPath a -> truthy a = true.
Proof.
  intros [[H ->]|(_ & _ & _ & H)]; [|exact H].
  destruct assetPath; [discriminate H | reflexivity].
Qed.

Lemma collectConfig_NoDup (content baseUrl : str) (assets : list nstr)
  (pattern : Regex.regexp) :
  NoDup assets -> NoDup (collectConfig content baseUrl assets pattern).
Proof.
  unfold collectConfig. generalize (Regex.matchAll pattern content). intros l.
  revert assets. induction l as [|[whole caps] l IH]; intros assets H; simpl;
    [exact H|].
  apply IH. now apply addConfigPath_NoDup.
Qed.

Lemma collectConfig_In (content baseUrl : str) (pattern : Regex.regexp) (a : nstr) :
  forall assets,
    In a (collectConfig content baseUrl assets pattern)
    <-> In a assets
        \/ exists whole caps,
             In (whole, caps) (Regex.matchAll pattern content)
             /\ contributes baseUrl (Regex.group 1 caps) a.
Proof.
  unfold collectConfig. generalize (Regex.matchAll pattern content). intros l.
  induction l as [|[whole caps] l IH]; intros assets; cbn [fold_left].
  - split; [auto|]. intros [H|(whole & caps & [] & _)]. exact H.
  - rewrite IH, addConfigPath_In. split.
    + intros [[H|H]|(whole' & caps' & Hin & H)]; auto.
      * right. exists whole, caps. split; [now left | exact H].
      * right. exists whole', caps'. split; [now right | exact H].
    + intros [H|(whole' & caps' & [E|Hin] & H)]; auto.
      * injection E as <- <-. auto.
      * right. eauto.
Qed.

Lemma extractBookConfigAssets_In (content baseUrl : str) (a : nstr) :
  In a (extractBookConfigAssets content baseUrl)
  <-> exists pattern whole caps,
        In pattern pathPatterns
        /\ In (whole, caps) (Regex.matchAll pattern content)
        /\ contributes baseUrl (Regex.group 1 caps) a.
Proof.
  unfold extractBookConfigAssets.
  assert (G : forall ps assets,
             In a (fold_left (collectConfig content baseUrl) ps assets)
             <-> In a assets
                 \/ exists pattern whole caps,
                      In pattern ps
                      /\ In (whole, caps) (Regex.matchAll pattern content)
                      /\ contributes baseUrl (Regex.group 1 caps) a).
  { induction ps as [|re ps IH]; intros assets; cbn [fold_left].
    - split; [auto|]. intros [H|(re & whole & caps & [] & _)]. exact H.
    - rewrite IH, collectConfig_In. split.
      + intros [[H|(whole & caps & Hin & H)]|(re' & whole & caps & Hre & Hin & H)];
          auto.
        * right. exists re, whole, caps. split; [now left | auto].
        * right. exists re', whole, caps. split; [now right | auto].
      + intros [H|(re' & whole & caps & [<-|Hre] & Hin & H)]; auto.
        * left. right. eauto.
        * right. exists re', whole, caps. auto. }
  rewrite G. cbn [In]. split.
  - intros [[]|H]. exact H.
  - intros H. right. exact H.
Qed.

Lemma extractBookConfigAssets_NoDup (content baseUrl : str) :
  NoDup (extractBookConfigAssets content baseUrl).
Proof.
  unfold extractBookConfigAssets. generalize (@nil nstr) (NoDup_nil nstr).
  induction pathPatterns as [|re ps IH]; intros assets H; cbn [fold_left];
    [exact H|].
  apply IH. now apply collectConfig_NoDup.
Qed.

Lemma extractBookConfigAssets_strings (content baseUrl : str) :
  Forall (fun a => exists c url, a = Some (c :: url))
    (extractBookConfigAssets content baseUrl).
Proof.
  apply Forall_forall. intros a Ha.
  apply extractBookConfigAssets_In in Ha as (re & whole & caps & _ & _ & H).
  apply contributes_truthy in H.
  destruct a as [[|c url]|]; try discriminate H. eauto.
Qed.

(** X9.  The list [extractBookConfigAssets] returns holds exactly what the
    matches of its six path patterns contribute: a matched path that starts
    with [http] is reported as written, without being resolved; a matched
    path that starts neither with [http] nor with [data:] is reported as
    its resolution against the base URL when that is a non-empty string;
    nothing else is reported. *)
Theorem extractBookConfigAssets_entries (content baseUrl : str) (a : nstr) :
  In a (extractBookConfigAssets content baseUrl)
  <-> exists pattern whole caps,
        In pattern pathPatterns
        /\ In (whole, caps) (Regex.matchAll pattern content)
        /\ let assetPath := Regex.group 1 caps in
           (startsWith (lit "http") assetPath = true /\ a = Some assetPath)
           \/ (startsWith (lit "http") assetPath = false
               /\ startsWith (lit "data:") assetPath = false
               /\ resolveUrl assetPath baseUrl = a /\ truthy a = true).
Proof. apply extractBookConfigAssets_In. Qed.

(** X10.  [extractBookConfigAssets] returns no entry twice, and every
    entry is a non-empty string: unlike the HTML and CSS extractors it
    never reports [null]. *)
Theorem extractBookConfigAssets_no_null (content baseUrl : str) :
  NoDup (extractBookConfigAssets content baseUrl)
  /\ Forall (fun a => exists c url, a = Some (c :: url))
       (extractBookConfigAssets content baseUrl).
Proof.
  split; [apply extractBookConfigAssets_NoDup | apply extractBookConfigAssets_strings].
Qed.

End ConfigExtractorFacts.

Example extractBookConfigAssets_config_text :
  extractBookConfigAssets config_text (lit "https://site.example/a/b/config.json")
  = [ Some (lit "https://site.example/a/b/files/mobile/1.jpg");
      Some (lit "https://cdn.example/2.jpg") ].
Proof. vm_compute. reflexivity. Qed.

(* ------------------------------------------------------------------ *)
(** ** The configuration files *)
(* ------------------------------------------------------------------ *)

Section ConfigFilesFacts.

Context {rt : Runtime}.
Variable cfg : Config.
Variable net : Net.
Variables baseUrl outputDir : str.

#[local] Abbreviation try_ := (try_config cfg net baseUrl outputDir).

(** A string that is not empty. *)
#[local] Abbreviation is_string a := (exists c url, a = Some (c :: url)).

(** The URL of a candidate, when [new URL] accepts it. *)
#[local] Abbreviation candidate configPath :=
  (match new_URL configPath (Some baseUrl) with
   | Some u => [href u]
   | None => []
   end).

Lemma fold_set_add_NoDup (l acc : list nstr) :
  NoDup acc -> NoDup (fold_left set_add l acc).
Proof.
  revert acc. induction l as [|x l IH]; intros acc H; cbn [fold_left]; [exact H|].
  apply IH. now apply set_add_NoDup.
Qed.

Lemma fold_set_add_In (l : list nstr) (a : nstr) :
  forall acc, In a (fold_left set_add l acc) <-> In a acc \/ In a l.
Proof.
  induction l as [|x l IH]; intros acc; cbn [fold_left In]; [tauto|].
  rewrite IH, set_add_In. intuition congruence.
Qed.

Lemma try_config_spec (assets : list nstr) (w : World) (configPath : str) :
  requests (snd (try_ (assets, w) configPath)) = requests w ++ candidate configPath
  /\ delays (snd (try_ (assets, w) configPath)) = delays w
  /\ grows w (snd (try_ (assets, w) configPath))
  /\ (NoDup assets -> NoDup (fst (try_ (assets, w) configPath)))
  /\ (Forall (fun a => is_string a) assets ->
      Forall (fun a => is_string a) (fst (try_ (assets, w) configPath)))
  /\ incl assets (fst (try_ (assets, w) configPath)).
Proof.
  unfold try_config.
  destruct (new_URL configPath (Some baseUrl)) as [u|]; cbn [fst snd].
  2:{ rewrite app_nil_r. repeat split; auto using grows_refl, incl_refl. }
  unfold fetchWithRetry. cbn [retry_from fetchUrl issue].
  destruct (net (length (requests w)) (href u)) as [response|message].
  - destruct (getLocalPath (href u) baseUrl) as [lp|]; cbn [fst snd].
    + unfold writeFileSync.
      rewrite touch_requests, ensureDir_requests, touch_delays, ensureDir_delays.
      split; [reflexivity|]. split; [reflexivity|]. split.
      { eapply grows_trans; [|apply grows_touch].
        eapply grows_trans; [|apply grows_ensureDir].
        apply (grows_issue (href u) w). }
      split; [apply fold_set_add_NoDup|]. split.
      * intros H. apply Forall_forall. intros a Ha.
        apply fold_set_add_In in Ha as [Ha|Ha].
        -- rewrite Forall_forall in H. now apply H.
        -- pose proof (extractBookConfigAssets_strings
                         (data response) (href u)) as Hn.
           rewrite Forall_forall in Hn. now apply Hn.
      * intros a Ha. apply fold_set_add_In. now left.
    + repeat split; auto using incl_refl. apply (grows_issue (href u) w).
  - cbn [Nat.eqb Nat.sub fst snd].
    repeat split; auto using incl_refl. apply (grows_issue (href u) w).
Qed.

Lemma fold_try_config_spec (ps : list str) :
  forall assets w,
    requests (snd (fold_left try_ ps (assets, w)))
    = requests w ++ flat_map (fun configPath => candidate configPath) ps
    /\ delays (snd (fold_left try_ ps (assets, w))) = delays w
    /\ grows w (snd (fold_left try_ ps (assets, w)))
    /\ (NoDup assets -> NoDup (fst (fold_left try_ ps (assets, w))))
    /\ (Forall (fun a => is_string a) assets ->
        Forall (fun a => is_string a) (fst (fold_left try_ ps (assets, w))))
    /\ incl assets (fst (fold_left try_ ps (assets, w))).
Proof.
  induction ps as [|p ps IH]; intros assets w; cbn [fold_left flat_map].
  - rewrite app_nil_r. repeat split; auto using grows_refl, incl_refl.
  - destruct (try_config_spec assets w p) as (Hr & Hd & Hg & Hn & Hs & Hi).
    destruct (try_ (assets, w) p) as [assets1 w1]. cbn [fst snd] in *.
    destruct (IH assets1 w1) as (Hr' & Hd' & Hg' & Hn' & Hs' & Hi').
    rewrite Hr', Hr, Hd', Hd, <- app_assoc.
    repeat split; auto.
    + eapply grows_trans; eassumption.
    + eapply incl_tran; eassumption.
Qed.


(** X12.  The list [downloadFlipbookConfigs] returns holds no entry twice
    and no [null]: every entry is a non-empty string. *)
Theorem downloadFlipbookConfigs_no_null (w : World) :
  NoDup (fst (downloadFlipbookConfigs cfg net baseUrl outputDir w))
  /\ Forall (fun a => exists c url, a = Some (c :: url))
       (fst (downloadFlipbookConfigs cfg net baseUrl outputDir w)).
Proof.
  unfold downloadFlipbookConfigs.
  destruct (fold_try_config_spec configPaths [] w) as (_ & _ & _ & Hn & Hs & _).
  split; [apply Hn; constructor | apply Hs; constructor].
Qed.

End ConfigFilesFacts.

Section ConfigFilesSteady.

Context {rt : Runtime}.
Variable cfg : Config.
Variable origin : str -> Response + str.
Variables baseUrl outputDir : str.

#[local] Abbreviation steady := (steady origin).
#[local] Abbreviation try_ := (try_config cfg steady baseUrl outputDir).

Lemma try_config_served (assets : list nstr) (w : World) (configPath : str)
  (u : URL) (response : Response) (lp : str) :
  new_URL configPath (Some baseUrl) = Some u ->
  origin (href u) = inl response ->
  getLocalPath (href u) baseUrl = Some lp ->
  existsSync (Path.join [outputDir; lp]) (snd (try_ (assets, w) configPath)) = true
  /\ incl (extractBookConfigAssets (data response) (href u))
       (fst (try_ (assets, w) configPath)).
Proof.
  intros Hu Ho Hl. unfold try_config. rewrite Hu.
  unfold fetchWithRetry. cbn [retry_from fetchUrl issue]. unfold steady.
  rewrite Ho, Hl. cbn [fst snd]. split.
  - apply existsSync_touch_same.
  - intros a Ha. apply fold_set_add_In. now right.
Qed.

Lemma try_config_missing (assets : list nstr) (w : World) (configPath : str) :
  (forall u, new_URL configPath (Some baseUrl) = Some u ->
             exists e, origin (href u) = inr e) ->
  fst (try_ (assets, w) configPath) = assets
  /\ disk (snd (try_ (assets, w) configPath)) = disk w.
Proof.
  intros H. unfold try_config.
  destruct (new_URL configPath (Some baseUrl)) as [u|]; [|auto].
  destruct (H u eq_refl) as [e He].
  unfold fetchWithRetry. cbn [retry_from fetchUrl issue]. unfold steady.
  rewrite He. cbn [Nat.eqb Nat.sub fst snd]. auto.
Qed.


(** X14.  Against an origin that serves none of the candidates,
    [downloadFlipbookConfigs] returns the empty list and leaves the disk as
    it was: a missing configuration file is skipped, not an error. *)
Theorem downloadFlipbookConfigs_none_served (w : World) :
  (forall configPath u,
     In configPath configPaths ->
     new_URL configPath (Some baseUrl) = Some u ->
     exists e, origin (href u) = inr e) ->
  let r := downloadFlipbookConfigs cfg steady baseUrl outputDir w in
  fst r = [] /\ disk (snd r) = disk w.
Proof.
  intros H r. subst r. unfold downloadFlipbookConfigs.
  generalize (@nil nstr). revert w H.
  induction configPaths as [|p ps IH]; intros w H assets; [auto|].
  cbn [fold_left].
  destruct (@try_config_missing assets w p) as [Ha Hd].
  { intros u Hu. apply (H p u); [now left | exact Hu]. }
  destruct (try_ (assets, w) p) as [assets1 w1]. cbn [fst snd] in *. subst assets1.
  destruct (IH w1) with (l := assets) as [Ha' Hd'].
  { intros q u Hq. apply H. now right. }
  split; [exact Ha' | congruence].
Qed.

End ConfigFilesSteady.


Lemma downloadFlipbookConfigs_none_served_witness :
  let r := downloadFlipbookConfigs CONFIG (steady empty_origin) example_base
             (lit "out") empty_world in
  fst r = [] /\ disk (snd r) = [].
Proof.
  apply (@downloadFlipbookConfigs_none_served node CONFIG empty_origin
           example_base (lit "out") empty_world).
  intros configPath u _ _. eexists. reflexivity.
Defined.

(* ------------------------------------------------------------------ *)
(** ** The report *)
(* ------------------------------------------------------------------ *)

Section ReportFacts.

Context {rt : Runtime}.
Variable cfg : Config.
Variable net : Net.
Variables outputDir baseUrl : str.

#[local] Abbreviation step_ := (step cfg net outputDir baseUrl).
#[local] Abbreviation run_ := (run cfg net outputDir baseUrl).
#[local] Abbreviation shaped := (shaped baseUrl).
#[local] Abbreviation phase_shaped := (phase_shaped baseUrl).
#[local] Abbreviation Shaped := (Shaped baseUrl).

Lemma Shaped_init (assets : list nstr) (w : World) : Shaped (init assets w).
Proof. constructor; simpl; constructor. Qed.

Lemma enter_attempt_shaped (asset : nstr) (lp fp : str) (i : nat) (w : World) :
  getLocalPath (url_text asset) baseUrl = Some lp -> lp <> [] ->
  phase_shaped asset (fst (enter_attempt cfg asset lp fp i w)).
Proof.
  intros Hg Hne. unfold enter_attempt.
  destruct (i <? maxRetries cfg); simpl; [auto | reflexivity].
Qed.

Lemma start_call_shaped (asset : nstr) (w : World) :
  phase_shaped asset (fst (start_call cfg outputDir baseUrl asset w)).
Proof.
  cbv beta zeta delta [start_call downloadAsset_begin].
  destruct (getLocalPath (url_text asset) baseUrl) as [[|c lp]|] eqn:Eg.
  - exact I.
  - match goal with |- context [existsSync ?p w] =>
      destruct (existsSync p w) eqn:Ee end.
    + cbn. rewrite Eg. auto.
    + apply enter_attempt_shaped; [exact Eg | discriminate].
  - exact I.
Qed.

Lemma downloadAsset_store_shaped (asset : nstr) (lp fp : str) (response : Response)
  (w : World) :
  getLocalPath (url_text asset) baseUrl = Some lp -> lp <> [] ->
  shaped (fst (downloadAsset_store asset lp fp response w)).
Proof.
  intros Hg Hne. unfold downloadAsset_store.
  destruct (endsWith (lit ".css") lp); cbn; rewrite Hg;
    (split; [reflexivity|]); (destruct lp; [congruence | reflexivity]).
Qed.

Lemma Shaped_update (assets : list nstr) (s : Sched) (id : nat) (ph : Phase)
  (w' : World) (t : Task) :
  Inv cfg assets s -> Shaped s -> find_task id (inProgress s) = Some t ->
  phase_shaped (t_url t) ph ->
  Shaped (update s id ph w').
Proof.
  intros [_ _ _ _ _ _ inv_tasks0 _ _] [shaped_tasks0 shaped_results0] Hf Hph.
  apply find_task_In in Hf as [Hin Hid].
  constructor; cbn [update inProgress results]; [|assumption].
  unfold set_phase. apply Forall_map. rewrite Forall_forall in *.
  intros x Hx. destruct (t_id x =? id) eqn:E.
  - apply Nat.eqb_eq in E. cbn [t_url t_phase].
    destruct (inv_tasks0 x Hx) as [Hnx _]. destruct (inv_tasks0 t Hin) as [Hnt _].
    assert (Hu : t_url x = t_url t) by congruence.
    now rewrite Hu.
  - now apply shaped_tasks0.
Qed.

Lemma Shaped_step (assets : list nstr) (s s' : Sched) (e : Event) :
  Inv cfg assets s -> Shaped s -> step_ s e = Some s' -> Shaped s'.
Proof.
  intros HI HS Hstep. destruct e as [|id|id|id]; cbn [step] in Hstep.
  - destruct HS as [shaped_tasks0 shaped_results0].
    destruct (queue s) as [|asset rest] eqn:Eq; [discriminate|].
    destruct (length (inProgress s) <? concurrentDownloads cfg); [|discriminate].
    destruct (set_has asset (downloaded s)).
    + injection Hstep as <-. constructor; auto.
    + pose proof (start_call_shaped asset (world s)) as Hph.
      destruct (start_call cfg outputDir baseUrl asset (world s)) as [ph w1].
      cbn [fst] in Hph. injection Hstep as <-.
      constructor; cbn [inProgress results]; [|assumption].
      apply Forall_app. split; [assumption|]. constructor; [exact Hph | constructor].
  - destruct (find_task id (inProgress s)) as [[tid asset ph]|] eqn:Ef;
      [|discriminate].
    destruct ph as [lp fp i call| |]; try discriminate.
    assert (Hp : phase_shaped asset (Fetching lp fp i call)).
    { destruct HS as [shaped_tasks0 _]. rewrite Forall_forall in shaped_tasks0.
      apply find_task_In in Ef as [Hin _]. exact (shaped_tasks0 _ Hin). }
    destruct Hp as [Hg Hne].
    destruct (net call (url_text asset)) as [response|message].
    + pose proof (@downloadAsset_store_shaped asset lp fp response (world s) Hg Hne)
        as Hph.
      destruct (downloadAsset_store asset lp fp response (world s)) as [r w1].
      cbn [fst] in Hph. injection Hstep as <-.
      eapply Shaped_update; eauto.
    + destruct (i =? maxRetries cfg - 1); injection Hstep as <-;
        eapply Shaped_update; eauto.
      * reflexivity.
      * split; assumption.
  - destruct (find_task id (inProgress s)) as [[tid asset ph]|] eqn:Ef;
      [|discriminate].
    destruct ph as [|lp fp i|]; try discriminate.
    assert (Hp : phase_shaped asset (Sleeping lp fp i)).
    { destruct HS as [shaped_tasks0 _]. rewrite Forall_forall in shaped_tasks0.
      apply find_task_In in Ef as [Hin _]. exact (shaped_tasks0 _ Hin). }
    destruct Hp as [Hg Hne].
    pose proof (@enter_attempt_shaped asset lp fp (i + 1) (world s) Hg Hne) as Hph.
    destruct (enter_attempt cfg asset lp fp (i + 1) (world s)) as [ph w1].
    cbn [fst] in Hph. injection Hstep as <-.
    eapply Shaped_update; eauto.
  - destruct HS as [shaped_tasks0 shaped_results0].
    destruct (find_task id (inProgress s)) as [[tid asset ph]|] eqn:Ef;
      [|discriminate].
    destruct ph as [| |result]; try discriminate.
    injection Hstep as <-.
    assert (Hp : phase_shaped asset (Settled result)).
    { rewrite Forall_forall in shaped_tasks0.
      apply find_task_In in Ef as [Hin _]. exact (shaped_tasks0 _ Hin). }
    assert (Hrest : Forall (fun t => phase_shaped (t_url t) (t_phase t))
                      (remove_task id (inProgress s))).
    { unfold remove_task. rewrite Forall_forall in *. intros x Hx.
      apply filter_In in Hx as [Hx _]. now apply shaped_tasks0. }
    destruct result as [r|]; cbn [on_result].
    + constructor; cbn [inProgress results]; [exact Hrest|].
      apply Forall_app. split; [assumption|]. constructor; [exact Hp | constructor].
    + constructor; cbn [inProgress results]; assumption.
Qed.

Lemma Shaped_run (assets : list nstr) (evs : list Event) :
  forall s s', Inv cfg assets s -> Shaped s -> run_ s evs = Some s' -> Shaped s'.
Proof.
  induction evs as [|e evs IH]; intros s s' HI HS Hrun; simpl in Hrun.
  - now injection Hrun as <-.
  - destruct (step_ s e) as [s1|] eqn:E; [|discriminate].
    eapply IH; [| |exact Hrun].
    + eapply Inv_step; eauto.
    + eapply Shaped_step; eauto.
Qed.

Lemma count_status_total (results : list Result) :
  count_status Downloaded results + count_status Cached results
  + count_status Failed results = length results.
Proof.
  unfold count_status. induction results as [|r l IH]; [reflexivity|].
  cbn [filter length]. destruct (r_status r); cbn [status_eqb length]; lia.
Qed.

Lemma listed_files_length (results : list Result) :
  Forall shaped results ->
  length (listed_files results)
  = count_status Downloaded results + count_status Cached results.
Proof.
  unfold listed_files, count_status. rewrite length_map.
  induction 1 as [|r l Hr _ IH]; [reflexivity|].
  cbn [filter]. unfold shaped in Hr.
  destruct (r_status r); cbn [status_eqb length].
  - destruct Hr as [_ ->]. cbn [length]. lia.
  - destruct Hr as [_ ->]. cbn [length]. lia.
  - rewrite Hr. cbn [truthy falsy negb]. lia.
Qed.


End ReportFacts.


(* ------------------------------------------------------------------ *)
(** ** The keys of a rewritten object *)
(* ------------------------------------------------------------------ *)

Section ObjectFacts.

Context {rt : Runtime}.

Lemma obj_has_In (fields : list (str * JSON)) (k : str) :
  obj_has fields k = true <-> In k (map fst fields).
Proof.
  unfold obj_has. rewrite existsb_exists, in_map_iff. split.
  - intros ([k' v] & Hin & E). apply str_eqb_eq in E. subst k'.
    now exists (k, v).
  - intros ([k' v] & E & Hin). cbn in E. subst k'.
    exists (k, v). split; [exact Hin | apply str_eqb_refl].
Qed.

Lemma obj_replace_keys (fields : list (str * JSON)) (k : str) (v : JSON) :
  map fst (obj_replace fields k v) = map fst fields.
Proof.
  induction fields as [|[k' v'] fields IH]; cbn [obj_replace map]; [reflexivity|].
  destruct (str_eqb k' k); cbn [map fst]; [reflexivity | now rewrite IH].
Qed.

Lemma obj_replace_values (P : JSON -> Prop) (fields : list (str * JSON)) (k : str)
  (v : JSON) :
  P v -> Forall (fun kv => P (snd kv)) fields ->
  Forall (fun kv => P (snd kv)) (obj_replace fields k v).
Proof.
  intros Hv. induction 1 as [|[k' v'] fields Hx Hl IH]; cbn [obj_replace];
    [constructor|].
  destruct (str_eqb k' k); constructor; cbn [snd] in *; auto.
Qed.

Lemma obj_insert_index_perm (fields : list (str * JSON)) (n : N) (k : str)
  (v : JSON) :
  Permutation ((k, v) :: fields) (obj_insert_index fields n k v).
Proof.
  induction fields as [|[k' v'] fields IH]; cbn [obj_insert_index]; [reflexivity|].
  destruct (array_index k') as [n'|]; [|reflexivity].
  destruct (n <? n')%N; [reflexivity|].
  etransitivity; [apply perm_swap|]. now apply perm_skip.
Qed.

Lemma plain_keys_object (fields : list (str * JSON)) :
  plain_keys (JObject fields)
  <-> NoDup (map fst fields)
      /\ ~ In (lit "__proto__") (map fst fields)
      /\ Forall (fun kv => plain_keys (snd kv)) fields.
Proof.
  cbn [plain_keys].
  assert (G : fold_right (fun '(_, x) acc => plain_keys x /\ acc) True fields
              <-> Forall (fun kv => plain_keys (snd kv)) fields).
  { induction fields as [|[k x] fields IH]; cbn [fold_right].
    - split; [constructor | auto].
    - rewrite IH. split.
      + intros [H1 H2]. now constructor.
      + intros H. inversion H; subst. auto. }
  now rewrite G.
Qed.

Lemma obj_assign_plain (fields : list (str * JSON)) (k : str) (v : JSON) :
  plain_keys (JObject fields) -> plain_keys v ->
  plain_keys (JObject (obj_assign fields k v)).
Proof.
  rewrite !plain_keys_object. intros (Hn & Hp & Hv) Hplain.
  unfold obj_assign. destruct (str_eqb_spec k (lit "__proto__")) as [->|Hk];
    [auto|].
  unfold obj_define. destruct (obj_has fields k) eqn:Eh.
  - rewrite obj_replace_keys. auto using obj_replace_values.
  - assert (Hnew : ~ In k (map fst fields)).
    { intros Hin. apply obj_has_In in Hin. congruence. }
    assert (G : forall l, Permutation ((k, v) :: fields) l ->
                NoDup (map fst l) /\ ~ In (lit "__proto__") (map fst l)
                /\ Forall (fun kv => plain_keys (snd kv)) l).
    { intros l Hperm. split; [|split].
      - eapply Permutation_NoDup; [apply Permutation_map; exact Hperm|].
        cbn [map fst]. now constructor.
      - intros Hin. eapply Permutation_in in Hin;
          [|apply Permutation_sym, Permutation_map; exact Hperm].
        cbn [map fst] in Hin. destruct Hin as [E|Hin]; [congruence | auto].
      - eapply Permutation_Forall; [exact Hperm|]. now constructor. }
    destruct (array_index k) as [n|].
    + apply G, obj_insert_index_perm.
    + apply G. apply Permutation_cons_append.
Qed.

Lemma rewriteObject_keys (bookBaseUrl : str) :
  forall v, plain_keys (rewriteObject bookBaseUrl v).
Proof.
  fix IH 1. intros [ |b|n|s|items|fields]; cbn [rewriteObject].
  - exact I.
  - exact I.
  - exact I.
  - unfold rewriteValue.
    destruct (startsWith (lit "http://") s || startsWith (lit "https://") s);
      [|exact I].
    destruct (getLocalPath s bookBaseUrl) as [[|c p]|]; exact I.
  - cbn [plain_keys]. induction items as [|x items IHl]; cbn [map fold_right];
      [exact I|].
    split; [apply IH | exact IHl].
  - assert (H0 : plain_keys (JObject [])).
    { apply plain_keys_object. repeat split; [constructor | intros [] | constructor]. }
    revert H0. generalize (@nil (str * JSON)).
    induction fields as [|[k x] fields IHl]; intros acc Hacc; cbn [fold_left];
      [exact Hacc|].
    apply IHl. apply obj_assign_plain; [exact Hacc | apply IH].
Qed.

(** X16.  When the content parses, what [rewriteJsonUrls] returns is the
    serialization of a value in which every object has distinct keys, none
    of them [__proto__]: the pass rebuilds each object by assignment to
    [{}], and the assignment [result['__proto__'] = value] defines no own
    property, so a [__proto__] member of the input is dropped. *)
Theorem rewriteJsonUrls_drops_proto (content baseUrl bookBaseUrl : str) (json : JSON) :
  JSON_parse content = Some json ->
  rewriteJsonUrls content baseUrl bookBaseUrl
  = stringify2 (rewriteObject bookBaseUrl json)
  /\ plain_keys (rewriteObject bookBaseUrl json).
Proof.
  intros H. split.
  - unfold rewriteJsonUrls. now rewrite H.
  - apply rewriteObject_keys.
Qed.

End ObjectFacts.

Lemma rewriteJsonUrls_drops_proto_witness :
  rewriteJsonUrls proto_text (lit "https://h/a/b/x.json") (lit "https://h/a/b/")
  = stringify2 (JObject [(lit "a", JNumber (lit "2"))])
  /\ plain_keys (JObject [(lit "a", JNumber (lit "2"))]).
Proof.
  apply (@rewriteJsonUrls_drops_proto node proto_text
           (lit "https://h/a/b/x.json") (lit "https://h/a/b/")
           (JObject [(lit "__proto__", JNumber (lit "1"));
                     (lit "a", JNumber (lit "2"))])).
  vm_compute. reflexivity.
Defined.

Example rewriteJsonUrls_proto_text :
  rewriteJsonUrls proto_text (lit "https://h/a/b/x.json") (lit "https://h/a/b/")
  = lit "{" ++ [newline] ++ lit "  " ++ [dq] ++ lit "a" ++ [dq] ++ lit ": 2"
    ++ [newline] ++ lit "}".
Proof. vm_compute. reflexivity. Qed.

(* ------------------------------------------------------------------ *)
(** ** Local paths are relative references *)
(* ------------------------------------------------------------------ *)

Module RelativeFacts.

Import Path PathFacts JoinFacts SplitFacts.

(** The text does not begin with a slash. *)
#[local] Abbreviation relative s := (startsWith (lit "/") s = false).

Lemma relative_cons (c : ascii) (s : str) : relative (c :: s) <-> is_slash c = false.
Proof.
  cbn [lit String.list_ascii_of_string startsWith]. rewrite andb_true_r.
  unfold is_slash. now rewrite Ascii.eqb_sym.
Qed.

Lemma relative_nil : relative [].
Proof. reflexivity. Qed.

Lemma relative_app (a b : str) : a <> [] -> relative a -> relative (a ++ b).
Proof.
  destruct a as [|c a]; [congruence|]. intros _ H.
  change ((c :: a) ++ b) with (c :: (a ++ b)).
  apply relative_cons. now apply relative_cons in H.
Qed.

Lemma drop_while_relative (s : str) : relative (drop_while is_slash s).
Proof.
  destruct (drop_while is_slash s) as [|c r] eqn:E; [reflexivity|].
  apply relative_cons. now apply drop_while_head in E.
Qed.

Lemma slashless_relative (s : str) : slashless s -> relative s.
Proof.
  destruct s as [|c s]; [reflexivity|]. intros H. apply relative_cons.
  now inversion H.
Qed.

Lemma dirname_relative (p : str) : relative p -> relative (dirname p).
Proof.
  destruct p as [|c0 p]; [reflexivity|]. intros H.
  apply relative_cons in H. unfold dirname. rewrite H.
  pose proof (take_drop_while is_slash (rev (c0 :: p))) as E1.
  pose proof (take_drop_while not_slash (drop_while is_slash (rev (c0 :: p)))) as E2.
  destruct (drop_while not_slash (drop_while is_slash (rev (c0 :: p))))
    as [|s [|b0 bf]]; try reflexivity.
  cbn [andb].
  rewrite <- E2 in E1. apply (f_equal (@rev ascii)) in E1.
  rewrite rev_involutive, !rev_app_distr in E1.
  change (rev (s :: b0 :: bf)) with (rev (b0 :: bf) ++ [s]) in E1.
  rewrite <- !app_assoc in E1.
  destruct (rev (b0 :: bf)) as [|x r] eqn:Er.
  - apply (f_equal (@length ascii)) in Er. rewrite length_rev in Er.
    discriminate Er.
  - cbn [app] in E1. injection E1 as E1 _. subst x.
    apply relative_cons. exact H.
Qed.

Lemma push_component_parts (allow : bool) (stack : list str) (c : str) :
  slashless c ->
  Forall (fun x => x <> [] /\ slashless x) stack ->
  Forall (fun x => x <> [] /\ slashless x) (push_component allow stack c).
Proof.
  intros Hc Hs. unfold push_component.
  destruct (str_eqb_spec c []) as [->|Hne]; [exact Hs|]. cbn [orb].
  destruct (str_eqb c (lit ".")); [exact Hs|].
  destruct (str_eqb c (lit "..")).
  - destruct stack as [|top below].
    + destruct allow; [|constructor]. now repeat constructor.
    + inversion Hs; subst. destruct (str_eqb top (lit "..")); [|assumption].
      destruct allow; [|exact Hs]. now constructor.
  - now constructor.
Qed.

Lemma normalized_parts (allow : bool) (dir : str) :
  Forall (fun x => x <> [] /\ slashless x)
    (rev (fold_left (push_component allow) (split_slash dir) [])).
Proof.
  apply Forall_rev.
  assert (Hparts : Forall slashless (split_slash dir)).
  { unfold split_slash. apply split_slash_aux_parts. constructor. }
  revert Hparts. generalize (split_slash dir). intros l.
  assert (H0 : Forall (fun x : str => x <> [] /\ slashless x) []) by constructor.
  revert H0. generalize (@nil str).
  induction l as [|c l IH]; intros stack Hs Hl; cbn [fold_left]; [exact Hs|].
  inversion Hl; subst. apply IH; [|assumption].
  now apply push_component_parts.
Qed.

Lemma join_prefix_relative (l : list str) :
  Forall (fun x => x <> [] /\ slashless x) l ->
  join_prefix l = [] \/ (join_prefix l <> [] /\ relative (join_prefix l)).
Proof.
  destruct l as [|a l]; [now left|]. intros H. right.
  inversion H as [|? ? [Hne Hsl] _]; subst. split.
  - unfold join_prefix. intros E. apply app_eq_nil in E as [_ E]. discriminate.
  - unfold join_prefix. destruct a as [|c a]; [congruence|].
    destruct l as [|b l]; cbn [join_slash app]; apply relative_cons;
      now inversion Hsl.
Qed.

Lemma dir_prefix_relative (dir : str) :
  relative dir ->
  dir_prefix dir = [] \/ (dir_prefix dir <> [] /\ relative (dir_prefix dir)).
Proof.
  destruct dir as [|c0 dir]; [now left|]. intros H.
  apply relative_cons in H. unfold dir_prefix. rewrite H. cbn [app negb].
  apply join_prefix_relative, normalized_parts.
Qed.

Lemma hashedPath_relative {rt : Runtime} (localPath search : str) :
  relative localPath -> relative (hashedPath localPath search).
Proof.
  intros H. rewrite hashedPath_shape.
  assert (Hname : relative (basename localPath (extname localPath)
                            ++ lit "_" ++ queryHash search ++ extname localPath)).
  { apply slashless_relative.
    apply (underscore_name_plain (a := basename localPath (extname localPath))
             (b := queryHash search ++ extname localPath)).
    - apply basename_extname_slashless.
    - apply slashless_app; [apply queryHash_slashless | apply extname_slashless]. }
  destruct (@dir_prefix_relative (dirname localPath)
              (@dirname_relative localPath H)) as [E|[Hne Hr]].
  - rewrite E. exact Hname.
  - now apply relative_app.
Qed.

End RelativeFacts.

Section LocalPathFacts.

Context {rt : Runtime}.

Import Path PathFacts RelativeFacts.


(** X18.  An asset of another host than the book is classified to
    [external/<host><pathname>]; its query string and fragment play no
    part, so two such URLs with the same host and path get the same local
    path, whatever their query strings. *)
Theorem getLocalPath_external (a1 a2 baseUrl : str) (u1 u2 ub : URL) :
  new_URL a1 None = Some u1 ->
  new_URL a2 None = Some u2 ->
  new_URL baseUrl None = Some ub ->
  host u1 <> host ub ->
  host u2 = host u1 ->
  pathname u2 = pathname u1 ->
  getLocalPath a1 baseUrl = Some (lit "external/" ++ host u1 ++ pathname u1)
  /\ getLocalPath a2 baseUrl = getLocalPath a1 baseUrl.
Proof.
  intros P1 P2 Pb Hne Hh Hp.
  assert (G : forall a u, new_URL a None = Some u -> host u = host u1 ->
              pathname u = pathname u1 ->
              getLocalPath a baseUrl
              = Some (lit "external/" ++ host u1 ++ pathname u1)).
  { intros a u Pa Eh Ep. unfold getLocalPath. rewrite Pa, Pb, Eh, Ep.
    destruct (str_eqb_spec (host u1) (host ub)) as [E|_]; [contradiction|].
    reflexivity. }
  rewrite (G a1 u1 P1 eq_refl eq_refl), (G a2 u2 P2 Hh Hp). auto.
Qed.

End LocalPathFacts.


Lemma getLocalPath_external_witness :
  getLocalPath (lit "https://cdn.example/lib/x.js?v=1") example_base
  = Some (lit "external/cdn.example/lib/x.js")
  /\ getLocalPath (lit "https://cdn.example/lib/x.js?v=2") example_base
     = getLocalPath (lit "https://cdn.example/lib/x.js?v=1") example_base.
Proof.
  apply (@getLocalPath_external node
           (lit "https://cdn.example/lib/x.js?v=1")
           (lit "https://cdn.example/lib/x.js?v=2") example_base
           {| protocol := lit "https:"; host := lit "cdn.example";
              pathname := lit "/lib/x.js"; search := lit "?v=1"; hash := [];
              href := lit "https://cdn.example/lib/x.js?v=1" |}
           {| protocol := lit "https:"; host := lit "cdn.example";
              pathname := lit "/lib/x.js"; search := lit "?v=2"; hash := [];
              href := lit "https://cdn.example/lib/x.js?v=2" |}
           {| protocol := lit "https:"; host := lit "site.example";
              pathname := lit "/a/b/"; search := []; hash := [];
              href := lit "https://site.example/a/b/" |});
    try (vm_compute; reflexivity).
  vm_compute. discriminate.
Defined.

(* ------------------------------------------------------------------ *)
(** ** The query hash is safe in a file name *)
(* ------------------------------------------------------------------ *)

Section QueryHashFacts.

Context {rt : Runtime}.

Lemma digit_cases (n : nat) :
  In (Base64.digit n) ("="%char :: Base64.alphabet).
Proof.
  unfold Base64.digit.
  destruct (nth_in_or_default n Base64.alphabet "="%char) as [H|H].
  - now right.
  - left. now symmetry.
Qed.

Lemma encode_fuel_chars (fuel : nat) :
  forall bytes,
    Forall (fun c => In c ("="%char :: Base64.alphabet))
      (Base64.encode_fuel fuel bytes).
Proof.
  induction fuel as [|fuel IH]; intros bytes; cbn [Base64.encode_fuel];
    [constructor|].
  destruct bytes as [|a [|b [|c rest]]].
  - constructor.
  - repeat (constructor; [first [apply digit_cases | now left]|]). constructor.
  - repeat (constructor; [first [apply digit_cases | now left]|]). constructor.
  - repeat (constructor; [apply digit_cases|]). apply IH.
Qed.

Lemma In_firstn (A : Type) (n : nat) (x : A) :
  forall l, In x (firstn n l) -> In x l.
Proof.
  induction n as [|n IH]; intros [|y l]; cbn [firstn In]; try tauto.
  intros [H|H]; auto.
Qed.

Lemma encode_nonempty (bytes : list nat) :
  bytes <> [] -> Base64.encode bytes <> [].
Proof.
  unfold Base64.encode. destruct bytes as [|a [|b [|c rest]]]; [congruence| | |];
    intros _; cbn [length Base64.encode_fuel]; discriminate.
Qed.

Lemma utf8_nonempty (s : str) : s <> [] -> Base64.utf8 s <> [].
Proof.
  destruct s as [|c s]; [congruence|]. intros _. unfold Base64.utf8.
  cbn [flat_map]. destruct (nat_of_ascii c <? 128); discriminate.
Qed.

(** X19.  The hash [getLocalPath] puts into a file name is safe there: at
    most eight characters, each an ASCII letter, a digit or an underscore
    (the base64 digits [+] and [/] and the padding [=] are replaced), and
    not empty when the query string is not. *)
Theorem queryHash_safe (search : str) :
  length (queryHash search) <= 8
  /\ forallb word_char (queryHash search) = true
  /\ (search <> [] -> queryHash search <> []).
Proof.
  unfold queryHash, slice0. split; [|split].
  - rewrite length_map. apply firstn_le_length.
  - apply forallb_forall. intros c Hc.
    apply in_map_iff in Hc as (x & <- & Hx).
    apply In_firstn in Hx.
    pose proof (encode_fuel_chars (S (length (Base64.utf8 search)))
                  (Base64.utf8 search)) as Hall.
    rewrite Forall_forall in Hall. specialize (Hall x Hx).
    assert (G : forallb (fun y => word_char
                           (if Regex.one_of ["/"; "+"; "="]%char y
                            then "_"%char else y))
                  ("="%char :: Base64.alphabet) = true) by reflexivity.
    rewrite forallb_forall in G. exact (G x Hall).
  - intros Hne E. apply map_eq_nil in E.
    pose proof (encode_nonempty (utf8_nonempty Hne)) as Hn.
    destruct (Base64.encode (Base64.utf8 search)); [congruence | discriminate E].
Qed.

End QueryHashFacts.

(* ------------------------------------------------------------------ *)
(** ** The CSS pass of the rewriter *)
(* ------------------------------------------------------------------ *)

Section CssPassFacts.

Context {rt : Runtime}.

(** X20.  The CSS pass fails open, as the HTML pass does: a style sheet
    in which every [url(...)] reference is a data URI, or does not resolve
    to an absolute URL, or resolves to one the classifier rejects, comes
    back code unit for code unit. *)
Theorem rewriteUrls_css_fail_open (content baseUrl : str) :
  (forall whole caps,
     In (whole, caps) (Regex.matchAll cssUrlPattern content) ->
     let urlValue := Regex.group 1 caps in
     startsWith (lit "data:") urlValue = true
     \/ resolveUrl urlValue baseUrl = None
     \/ exists a, resolveUrl urlValue baseUrl = Some a
                  /\ getLocalPath a baseUrl = None) ->
  rewriteUrls content baseUrl false = content.
Proof.
  intros H. unfold rewriteUrls. apply RegexFacts.replace_same.
  intros whole caps Hin. unfold rewriteCssMatch.
  destruct (H whole caps Hin) as [E|[E|(a & E1 & E2)]].
  - now rewrite E.
  - rewrite E. now destruct (startsWith (lit "data:") (Regex.group 1 caps)).
  - rewrite E1. destruct (startsWith (lit "data:") (Regex.group 1 caps));
      [reflexivity|].
    destruct a; [reflexivity|]. now rewrite E2.
Qed.

End CssPassFacts.

Lemma rewriteUrls_css_fail_open_witness :
  rewriteUrls inert_css (lit "https://site.example/a/b/c.css") false = inert_css.
Proof.
  apply (@rewriteUrls_css_fail_open node).
  intros whole caps Hin. vm_compute in Hin.
  destruct Hin as [E|[E|[]]]; injection E as <- <-.
  - left. reflexivity.
  - right. left. reflexivity.
Defined.

(* ------------------------------------------------------------------ *)
(** ** The outcome of one download *)
(* ------------------------------------------------------------------ *)

Section DownloadAssetFacts.

Context {rt : Runtime}.
Variable cfg : Config.
Variable net : Net.
Variables outputDir baseUrl : str.

#[local] Abbreviation classified := (classified baseUrl).
#[local] Abbreviation unclassified := (unclassified baseUrl).


End DownloadAssetFacts.

(* ------------------------------------------------------------------ *)
(** ** The JavaScript pass *)
(* ------------------------------------------------------------------ *)

Module SchemeFacts.

Import Regex RegexFacts CaptureFacts.

Lemma startsWith_app_same (p b : str) : startsWith p (p ++ b) = true.
Proof.
  induction p as [|c p IH]; [reflexivity|].
  cbn [app startsWith]. now rewrite Ascii.eqb_refl.
Qed.

Lemma includes_nonempty (p : str) (c : ascii) (s : str) :
  includes p (c :: s) = startsWith p (c :: s) || includes p s.
Proof. reflexivity. Qed.

Lemma includes_app_l (p a s : str) :
  includes p s = true -> includes p (a ++ s) = true.
Proof.
  intros H. induction a as [|c a IH]; [exact H|].
  cbn [app]. rewrite includes_nonempty, IH. apply orb_true_r.
Qed.

Lemma includes_here (p b : str) : includes p (p ++ b) = true.
Proof.
  destruct (p ++ b) as [|c s] eqn:E.
  - destruct p; [reflexivity | discriminate E].
  - rewrite includes_nonempty, <- E, startsWith_app_same. reflexivity.
Qed.

Lemma chr_match_colon (x : ascii) : chr_match true ":" x = true -> x = ":"%char.
Proof. destruct x as [[] [] [] [] [] [] [] []]; cbv; congruence. Qed.

Lemma chr_match_slash (x : ascii) : chr_match true "/" x = true -> x = "/"%char.
Proof. destruct x as [[] [] [] [] [] [] [] []]; cbv; congruence. Qed.

Lemma run_Chr_inv (icase : bool) (c : ascii) (s rest : str) (c0 caps : captures) :
  In (rest, caps) (run icase (Chr c) s c0) ->
  exists x, s = x :: rest /\ chr_match icase c x = true.
Proof.
  cbn [run]. destruct s as [|x s]; [intros []|].
  destruct (chr_match icase c x) eqn:E; [|intros []].
  intros [H|[]]. injection H as <- _. now exists x.
Qed.

(** What follows a match of [:\/\/] in its subject. *)
Lemma run_separator (s rest : str) (c0 caps : captures) :
  In (rest, caps) (run true (w "://") s c0) -> s = lit "://" ++ rest.
Proof.
  change (w "://") with (Cat (Chr ":") (Cat (Chr "/") (Chr "/"))). intros H.
  apply run_Cat_inv in H as (s1 & c1 & H1 & H).
  apply run_Cat_inv in H as (s2 & c2 & H2 & H3).
  apply run_Chr_inv in H1 as (x1 & -> & E1).
  apply run_Chr_inv in H2 as (x2 & -> & E2).
  apply run_Chr_inv in H3 as (x3 & -> & E3).
  apply chr_match_colon in E1. apply chr_match_slash in E2, E3. now subst.
Qed.

(** A match of a pattern that begins with [https?:\/\/] lies in a subject
    that holds [://]. *)
Lemma run_scheme (r : Regex.t) (s rest : str) (c0 caps : captures) :
  In (rest, caps) (run true (Cat httpScheme r) s c0) ->
  includes (lit "://") s = true.
Proof.
  intros H. apply run_Cat_inv in H as (s1 & c1 & H1 & _).
  unfold httpScheme in H1.
  apply run_Cat_inv in H1 as (sa & ca & Ha & H1).
  apply run_Cat_inv in H1 as (sb & cb & Hb & H1).
  destruct (run_suffix _ _ _ _ _ _ Ha) as [wa ->].
  destruct (run_suffix _ _ _ _ _ _ Hb) as [wb ->].
  apply run_separator in H1 as ->.
  apply includes_app_l, includes_app_l, includes_here.
Qed.

(** Every hit of a scan is the text one attempt consumed, at a suffix of
    the subject. *)
Lemma scan_fuel_hit_at (re : regexp) (m : str) (caps : captures) :
  forall fuel s, In (Hit m caps) (scan_fuel fuel re s) ->
    exists pre s' rest,
      s = pre ++ s' /\ attempt re s' = Some (rest, caps) /\ m = consumed s' rest.
Proof.
  induction fuel as [|fuel IH]; intros s H; [destruct H|].
  assert (Hskip : In (Hit m caps)
            match s with
            | [] => []
            | c :: s' => Gap c :: scan_fuel fuel re s'
            end -> exists pre s' rest,
              s = pre ++ s' /\ attempt re s' = Some (rest, caps)
              /\ m = consumed s' rest).
  { destruct s as [|c s']; [intros []|]. intros [E|Hin]; [discriminate|].
    destruct (IH _ Hin) as (pre & s'' & rest & -> & Ha & Hm).
    exists (c :: pre), s'', rest. auto. }
  simpl in H. destruct (attempt re s) as [[rest caps']|] eqn:E; [|auto].
  pose proof (attempt_suffix _ _ E) as Hs.
  destruct (consumed s rest) as [|c m'] eqn:Ec.
  - destruct H as [Eh|H]; [|auto].
    injection Eh as <- <-. exists [], s, rest. now rewrite Ec.
  - destruct H as [Eh|H].
    + injection Eh as <- <-. exists [], s, rest. now rewrite Ec.
    + destruct (IH _ H) as (pre & s'' & rest' & Hr & Ha & Hm).
      exists ((c :: m') ++ pre), s'', rest'. rewrite <- app_assoc, <- Hr.
      auto.
Qed.

(** A pattern that begins with [https?:\/\/] finds nothing in a subject
    without [://], and replacing leaves the subject as it is. *)
Lemma replace_scheme (r : Regex.t) (f : str -> captures -> str) (s : str) :
  includes (lit "://") s = false ->
  replace (gi (Cat httpScheme r)) f s = s.
Proof.
  intros Hno. apply replace_same. intros m caps Hin. exfalso.
  unfold matchAll in Hin. apply hits_In in Hin.
  apply scan_fuel_hit_at in Hin as (pre & s' & rest & -> & Ha & _).
  unfold attempt in Ha. cbn [gi source ignoreCase] in Ha.
  destruct (run true (Cat httpScheme r) s' []) as [|x l] eqn:E; [discriminate|].
  injection Ha as ->.
  assert (Hinc : includes (lit "://") s' = true).
  { apply (@run_scheme r s' rest [] caps). rewrite E. now left. }
  apply (includes_app_l (lit "://") pre) in Hinc. congruence.
Qed.

End SchemeFacts.

Section JsPassFacts.

Context {rt : Runtime}.

(** X22.  For a host whose pattern is modelled, [rewriteJsUrls] returns a
    script that holds no [://] as it is: each of its three patterns begins
    with [https?://], so none of them finds a match there. *)
Theorem rewriteJsUrls_without_urls (content baseUrl host bookBaseUrl out : str) :
  rewriteJsUrls content baseUrl host bookBaseUrl = Some out ->
  includes (lit "://") content = false ->
  out = content.
Proof.
  unfold rewriteJsUrls, domainPatterns.
  destruct (hostSource host) as [h|]; [|discriminate].
  intros E Hno. injection E as <-. cbn [fold_left].
  do 3 rewrite (@SchemeFacts.replace_scheme _ _ content Hno). reflexivity.
Qed.

End JsPassFacts.

Lemma rewriteJsUrls_without_urls_witness :
  rewriteJsUrls (lit "var page = 'files/mobile/1.jpg';")
    (lit "https://site.example/a/b/js/x.js") (lit "site.example") example_base
  = Some (lit "var page = 'files/mobile/1.jpg';").
Proof.
  assert (E : exists out,
             rewriteJsUrls (lit "var page = 'files/mobile/1.jpg';")
               (lit "https://site.example/a/b/js/x.js") (lit "site.example")
               example_base = Some out).
  { eexists. vm_compute. reflexivity. }
  destruct E as [out E]. rewrite E. f_equal.
  apply (@rewriteJsUrls_without_urls node _ _ _ _ _ E).
  vm_compute. reflexivity.
Defined.

Example rewriteJsUrls_same_host :
  rewriteJsUrls (lit "load('https://site.example/a/b/js/x.js')")
    (lit "https://site.example/a/b/js/main.js") (lit "site.example") example_base
  = Some (lit "load('a/b/js/x.js')").
Proof. vm_compute. reflexivity. Qed.

(* ------------------------------------------------------------------ *)
(** ** Every reported reference is written in the document *)
(* ------------------------------------------------------------------ *)

Module InfixFacts.

Import Regex RegexFacts CaptureFacts SchemeFacts.

(** The text occurs in the subject. *)
#[local] Abbreviation infix v s := (exists a b, s = a ++ v ++ b).

Lemma infix_includes (v s : str) : infix v s -> includes v s = true.
Proof. intros (a & b & ->). apply includes_app_l, includes_here. Qed.

Lemma consumed_split (s1 rest w1 w2 : str) :
  s1 = w2 ++ rest ->
  consumed (w1 ++ s1) rest = consumed (w1 ++ s1) s1 ++ consumed s1 rest.
Proof.
  intros ->. rewrite consumed_app.
  rewrite app_assoc, !consumed_app. reflexivity.
Qed.

(** The groups a pattern sets hold text of what it consumed. *)
Lemma run_caps_infix (icase : bool) (r : Regex.t) :
  forall s c0 rest caps,
    In (rest, caps) (run icase r s c0) ->
    exists new,
      caps = new ++ c0
      /\ Forall (fun kv => infix (snd kv) (consumed s rest)) new.
Proof.
  induction r as [ |c|p|a IHa b IHb|a IHa b IHb|p|p|p|n a IHa];
    intros s c0 rest caps H.
  - destruct H as [E|[]]. injection E as <- <-. now exists [].
  - apply run_Chr_inv in H as H'. cbn [run] in H.
    destruct s as [|x s]; [destruct H|].
    destruct (chr_match icase c x); [|destruct H].
    destruct H as [E|[]]. injection E as <- <-. now exists [].
  - pose proof (run_Cls_caps _ _ _ _ _ _ H) as ->. now exists [].
  - apply run_Cat_inv in H as (s1 & c1 & H1 & H2).
    destruct (IHa _ _ _ _ H1) as (n1 & -> & F1).
    destruct (IHb _ _ _ _ H2) as (n2 & -> & F2).
    exists (n2 ++ n1). split; [now rewrite app_assoc|].
    destruct (run_suffix _ _ _ _ _ _ H1) as [w1 ->].
    destruct (run_suffix _ _ _ _ _ _ H2) as [w2 E2].
    rewrite (@consumed_split s1 rest w1 w2 E2).
    apply Forall_app. split.
    + eapply Forall_impl; [|exact F2]. cbv beta.
      intros kv (x & y & E). rewrite E.
      exists (consumed (w1 ++ s1) s1 ++ x), y. now rewrite <- !app_assoc.
    + eapply Forall_impl; [|exact F1]. cbv beta.
      intros kv (x & y & E). rewrite E.
      exists x, (y ++ consumed s1 rest). now rewrite <- !app_assoc.
  - cbn [run] in H. apply in_app_or in H as [H|H]; eauto.
  - cbn [run] in H. apply in_map_iff in H as (r' & E & _).
    injection E as <- <-. now exists [].
  - pose proof (run_Plus_caps _ _ _ _ _ _ H) as ->. now exists [].
  - cbn [run] in H. apply in_map_iff in H as (r' & E & _).
    injection E as <- <-. now exists [].
  - apply run_Grp_inv in H as (c1 & H & ->).
    destruct (IHa _ _ _ _ H) as (n1 & -> & F1).
    exists ((n, consumed s rest) :: n1). split; [reflexivity|].
    constructor; [|exact F1]. exists [], []. cbn [snd app]. now rewrite app_nil_r.
Qed.

Lemma group_infix (n : nat) (m : str) (caps : captures) :
  Forall (fun kv => infix (snd kv) m) caps -> infix (group n caps) m.
Proof.
  induction 1 as [|[k v] caps Hkv _ IH]; cbn [group].
  - exists [], m. reflexivity.
  - destruct (k =? n); [exact Hkv | exact IH].
Qed.

(** A group of a match of a scan is text of the subject. *)
Lemma matchAll_group (re : regexp) (s m : str) (caps : captures) (n : nat) :
  In (m, caps) (matchAll re s) -> includes (group n caps) s = true.
Proof.
  intros Hin. unfold matchAll in Hin. apply hits_In in Hin.
  apply scan_fuel_hit_at in Hin as (pre & s' & rest & -> & Ha & ->).
  pose proof (attempt_suffix _ _ Ha) as Hs.
  unfold attempt in Ha.
  destruct (run (ignoreCase re) (source re) s' []) as [|x l] eqn:E; [discriminate|].
  injection Ha as ->.
  destruct (@run_caps_infix (ignoreCase re) (source re) s' [] rest caps)
    as (new & -> & F); [rewrite E; now left|].
  rewrite app_nil_r.
  destruct (@group_infix n _ _ F) as (a & b & Hg).
  apply infix_includes. exists (pre ++ a), (b ++ rest).
  rewrite Hs at 1. rewrite Hg. now rewrite <- !app_assoc.
Qed.

End InfixFacts.

Section ProvenanceFacts.

Context {rt : Runtime}.

Lemma collect_In (re : Regex.regexp) (keep : str -> bool) (text baseUrl : str)
  (a : nstr) :
  forall assets,
    In a (collect re keep text baseUrl assets) ->
    In a assets
    \/ exists v, includes v text = true /\ a = resolveUrl v baseUrl.
Proof.
  unfold collect.
  assert (G : forall l,
             (forall m caps, In (m, caps) l -> In (m, caps) (Regex.matchAll re text)) ->
             forall assets,
               In a (fold_left
                       (fun acc '(_, caps) =>
                          let m1 := Regex.group 1 caps in
                          if keep m1 then set_add acc (resolveUrl m1 baseUrl) else acc)
                       l assets) ->
               In a assets
               \/ exists v, includes v text = true /\ a = resolveUrl v baseUrl).
  { induction l as [|[m caps] l IH]; intros Hl assets H; cbn [fold_left] in H;
      [now left|].
    apply IH in H; [|intros; apply Hl; now right].
    destruct H as [H|H]; [|now right].
    destruct (keep (Regex.group 1 caps)); [|now left].
    apply set_add_In in H as [H| ->]; [now left|].
    right. exists (Regex.group 1 caps). split; [|reflexivity].
    apply (@InfixFacts.matchAll_group re text m caps 1). apply Hl. now left. }
  apply G. auto.
Qed.

(** X23.  The extractors invent nothing: every entry of the list
    [extractAssets] or [extractCssAssets] returns is what [resolveUrl]
    answers, against the base URL, for a text that occurs in the document;
    and every entry [extractBookConfigAssets] returns is such a text
    itself or its resolution. *)
Theorem extractors_report_written_references :
  (forall html baseUrl a,
     In a (extractAssets html baseUrl) ->
     exists v, includes v html = true /\ a = resolveUrl v baseUrl)
  /\ (forall css baseUrl a,
        In a (extractCssAssets css baseUrl) ->
        exists v, includes v css = true /\ a = resolveUrl v baseUrl)
  /\ (forall content baseUrl a,
        In a (extractBookConfigAssets content baseUrl) ->
        exists v, includes v content = true
                  /\ (a = Some v \/ a = resolveUrl v baseUrl)).
Proof.
  split; [|split].
  - intros html baseUrl a H. unfold extractAssets in H.
    repeat (apply collect_In in H as [H|H]; [|exact H]). destruct H.
  - intros css baseUrl a H. unfold extractCssAssets in H.
    repeat (apply collect_In in H as [H|H]; [|exact H]). destruct H.
  - intros content baseUrl a H.
    apply extractBookConfigAssets_In in H
      as (re & whole & caps & _ & Hin & H).
    exists (Regex.group 1 caps).
    split; [apply (@InfixFacts.matchAll_group re content whole caps 1 Hin)|].
    destruct H as [[_ ->]|(_ & _ & <- & _)]; auto.
Qed.

End ProvenanceFacts.

(* ------------------------------------------------------------------ *)
(** ** The scheduler: saturation and the request budget *)
(* ------------------------------------------------------------------ *)

Section SchedulerExtras.

Context {rt : Runtime}.
Variable cfg : Config.
Variable net : Net.
Variables outputDir baseUrl : str.

#[local] Abbreviation step_ := (step cfg net outputDir baseUrl).
#[local] Abbreviation run_ := (run cfg net outputDir baseUrl).
#[local] Abbreviation fill_ := (fill cfg net outputDir baseUrl).
#[local] Abbreviation slack := (slack cfg).
#[local] Abbreviation Budget := (Budget cfg).

Lemma step_Fill_None (s : Sched) :
  step_ s Fill = None ->
  queue s = [] \/ concurrentDownloads cfg <= length (inProgress s).
Proof.
  cbn [step]. destruct (queue s) as [|asset rest]; [now left|].
  destruct (length (inProgress s) <? concurrentDownloads cfg) eqn:E.
  - destruct (set_has asset (downloaded s)); [discriminate|].
    destruct (start_call cfg outputDir baseUrl asset (world s)). discriminate.
  - intros _. right. apply Nat.ltb_ge in E. exact E.
Qed.

Lemma step_Fill_queue (s s' : Sched) :
  step_ s Fill = Some s' -> exists asset, queue s = asset :: queue s'.
Proof.
  cbn [step]. destruct (queue s) as [|asset rest]; [discriminate|].
  destruct (length (inProgress s) <? concurrentDownloads cfg); [|discriminate].
  destruct (set_has asset (downloaded s)).
  - intros E. injection E as <-. now exists asset.
  - destruct (start_call cfg outputDir baseUrl asset (world s)).
    intros E. injection E as <-. now exists asset.
Qed.

Lemma fill_saturates_from (n : nat) :
  forall s, length (queue s) <= n ->
    queue (fill_ n s) = []
    \/ concurrentDownloads cfg <= length (inProgress (fill_ n s)).
Proof.
  induction n as [|n IH]; intros s Hlen; cbn [fill].
  - left. destruct (queue s); [reflexivity | simpl in Hlen; lia].
  - destruct (step_ s Fill) as [s1|] eqn:E.
    + apply IH. apply step_Fill_queue in E as [asset Eq].
      rewrite Eq in Hlen. simpl in Hlen. lia.
    + now apply step_Fill_None.
Qed.

(** X24.  The inner loop of [downloadAssetsWithConcurrency] saturates
    the pool: when it ends, and the outer loop goes on to await, either no
    URL is waiting in the queue or [CONFIG.concurrentDownloads] calls are
    in progress.  So with a cap of at least one the outer loop never goes
    round without awaiting: if nothing is in progress after the inner
    loop, nothing is queued either, and the loop ends. *)
Theorem fill_saturates (s : Sched) :
  let s' := fill_ (length (queue s)) s in
  (queue s' = [] \/ concurrentDownloads cfg <= length (inProgress s'))
  /\ (0 < concurrentDownloads cfg -> inProgress s' = [] -> loop_test s' = false).
Proof.
  intros s'.
  assert (H : queue s' = [] \/ concurrentDownloads cfg <= length (inProgress s'))
    by (apply fill_saturates_from; lia).
  split; [exact H|]. intros HK Hp. unfold loop_test. rewrite Hp in *.
  destruct H as [->|H]; [reflexivity | simpl in H; lia].
Qed.

Lemma set_phase_split (id : nat) (ph : Phase) (l : list Task) (t : Task) :
  NoDup (map t_id l) -> find_task id l = Some t ->
  exists l1 l2,
    l = l1 ++ t :: l2
    /\ set_phase id ph l
       = l1 ++ {| t_id := id; t_url := t_url t; t_phase := ph |} :: l2.
Proof.
  induction l as [|x l IH]; intros Hnd Hf; [discriminate|].
  simpl in Hnd. inversion Hnd as [|? ? Hnotin Hnd']; subst.
  unfold find_task in Hf. simpl in Hf. cbn [set_phase map].
  destruct (t_id x =? id) eqn:E.
  - injection Hf as <-. exists [], l. split; [reflexivity|].
    cbn [app]. f_equal. apply Nat.eqb_eq in E.
    rewrite <- (map_id l) at 2. apply map_ext_in. intros y Hy.
    destruct (t_id y =? id) eqn:Ey; [|reflexivity].
    apply Nat.eqb_eq in Ey. exfalso. apply Hnotin. rewrite E, <- Ey.
    now apply in_map.
  - destruct (IH Hnd' Hf) as (l1 & l2 & -> & Hr).
    exists (x :: l1), l2. split; [reflexivity|].
    cbn [app]. f_equal. exact Hr.
Qed.

Lemma slack_sum_split (l1 l2 : list Task) (t : Task) :
  list_sum (map slack (l1 ++ t :: l2))
  = slack t + list_sum (map slack (l1 ++ l2)).
Proof.
  rewrite !map_app, !list_sum_app. simpl. lia.
Qed.

Lemma Budget_init (assets : list nstr) (w : World) : Budget w (init assets w).
Proof.
  constructor; simpl; [lia|].
  exists []. rewrite app_nil_r. split; [reflexivity | intros x []].
Qed.

(** Changing the phase of one call, with the requests and the slack it
    trades. *)
Lemma Budget_update (assets : list nstr) (w0 : World) (s : Sched) (id : nat)
  (ph : Phase) (w' : World) (t : Task) (sent : list str) :
  Inv cfg assets s -> Budget w0 s -> find_task id (inProgress s) = Some t ->
  requests w' = requests (world s) ++ sent ->
  incl sent [url_text (t_url t)] ->
  length sent
  + slack {| t_id := id; t_url := t_url t; t_phase := ph |}
  <= slack t ->
  Budget w0 (update s id ph w').
Proof.
  intros [_ _ _ _ _ Hids Htasks _ _] [Htot (new & Hnew & Hincl)] Hf Hreq Hsent Hle.
  destruct (@set_phase_split id ph (inProgress s) t Hids Hf)
    as (l1 & l2 & Hl & Hset).
  constructor; cbn [update world inProgress started].
  - rewrite Hset, Hreq, length_app, slack_sum_split.
    rewrite Hl, slack_sum_split in Htot. lia.
  - exists (new ++ sent). rewrite Hreq, Hnew, app_assoc. split; [reflexivity|].
    apply incl_app; [exact Hincl|].
    intros u Hu. apply Hsent in Hu as [<-|[]].
    apply find_task_In in Hf as [Hin _].
    rewrite Forall_forall in Htasks. destruct (Htasks t Hin) as [Hnth _].
    apply nth_error_In in Hnth. now apply in_map.
Qed.

Lemma Budget_step (assets : list nstr) (w0 : World) (s s' : Sched) (e : Event) :
  Inv cfg assets s -> Budget w0 s -> step_ s e = Some s' -> Budget w0 s'.
Proof.
  intros HI HB Hstep. destruct e as [|id|id|id]; cbn [step] in Hstep.
  - destruct HB as [Htot (new & Hnew & Hincl)].
    destruct (queue s) as [|asset rest] eqn:Eq; [discriminate|].
    destruct (length (inProgress s) <? concurrentDownloads cfg); [|discriminate].
    destruct (set_has asset (downloaded s)).
    + injection Hstep as <-. constructor; cbn [world inProgress started]; eauto.
    + cbv beta zeta delta [start_call downloadAsset_begin enter_attempt] in Hstep.
      assert (Hgrow : incl (map url_text (started s))
                        (map url_text (started s ++ [asset]))).
      { rewrite map_app. now apply incl_appl, incl_refl. }
      assert (Hquiet : forall ph,
                slack {| t_id := length (started s);
                                       t_url := asset; t_phase := ph |} = 0 ->
                Budget w0 {| queue := rest;
                            inProgress := inProgress s
                              ++ [{| t_id := length (started s); t_url := asset;
                                     t_phase := ph |}];
                            downloaded := set_add (downloaded s) asset;
                            results := results s;
                            started := started s ++ [asset];
                            world := world s |}).
      { intros ph E0. constructor; cbn [world inProgress started].
        - rewrite map_app, list_sum_app, length_app. cbn [map].
          rewrite E0. simpl. lia.
        - exists new. split; [exact Hnew|]. eapply incl_tran; eassumption. }
      destruct (getLocalPath (url_text asset) baseUrl) as [[|c lp]|].
      * cbv beta iota zeta in Hstep. injection Hstep as <-. now apply Hquiet.
      * match type of Hstep with context [existsSync ?p (world s)] =>
          destruct (existsSync p (world s)) end.
        -- cbv beta iota zeta in Hstep. injection Hstep as <-. now apply Hquiet.
        -- destruct (0 <? maxRetries cfg) eqn:E0.
           ++ cbn [issue] in Hstep. cbv beta iota zeta in Hstep.
              injection Hstep as <-. apply Nat.ltb_lt in E0.
              constructor; cbn [world inProgress started requests].
              ** rewrite map_app, list_sum_app, !length_app.
                 unfold slack at 2. simpl. lia.
              ** exists (new ++ [url_text asset]).
                 rewrite Hnew, app_assoc. split; [reflexivity|].
                 apply incl_app; [eapply incl_tran; eassumption|].
                 intros u [<-|[]]. rewrite map_app. apply in_or_app. right.
                 now left.
           ++ cbv beta iota zeta in Hstep. injection Hstep as <-. now apply Hquiet.
      * cbv beta iota zeta in Hstep. injection Hstep as <-. now apply Hquiet.
  - destruct (find_task id (inProgress s)) as [[tid asset ph]|] eqn:Ef;
      [|discriminate].
    destruct ph as [lp fp i call| |]; try discriminate.
    destruct (net call (url_text asset)) as [response|message].
    + unfold downloadAsset_store, writeFileSync in Hstep.
      destruct (endsWith (lit ".css") lp); injection Hstep as <-;
        (eapply Budget_update with (sent := []); eauto;
         first [ solve [intros x []]
               | solve [unfold slack; cbn; lia]
               | solve [now rewrite touch_requests, ensureDir_requests,
                          app_nil_r] ]).
    + destruct (i =? maxRetries cfg - 1); injection Hstep as <-;
        (eapply Budget_update with (sent := []); eauto;
         first [ solve [intros x []]
               | solve [unfold slack; cbn; lia]
               | solve [cbn; now rewrite app_nil_r] ]).
  - destruct (find_task id (inProgress s)) as [[tid asset ph]|] eqn:Ef;
      [|discriminate].
    destruct ph as [|lp fp i|]; try discriminate.
    unfold enter_attempt in Hstep.
    destruct (i + 1 <? maxRetries cfg) eqn:E1.
    + cbn [issue] in Hstep. cbv beta iota zeta in Hstep.
      injection Hstep as <-. apply Nat.ltb_lt in E1.
      eapply Budget_update with (sent := [url_text asset]); eauto;
        first [ solve [intros x Hx; exact Hx]
              | solve [unfold slack; cbn; lia]
              | solve [reflexivity] ].
    + cbv beta iota zeta in Hstep. injection Hstep as <-.
      eapply Budget_update with (sent := []); eauto;
        first [ solve [intros x []]
              | solve [unfold slack; cbn; lia]
              | solve [now rewrite app_nil_r] ].
  - destruct HI as [_ _ _ _ _ Hids _ _ _].
    destruct HB as [Htot (new & Hnew & Hincl)].
    destruct (find_task id (inProgress s)) as [[tid asset ph]|] eqn:Ef;
      [|discriminate].
    destruct ph as [| |result]; try discriminate.
    injection Hstep as <-.
    destruct (@remove_task_split id (inProgress s) _ Hids Ef)
      as (l1 & l2 & Hl & Hrem).
    rewrite Hl, slack_sum_split in Htot.
    destruct result as [r|]; cbn [on_result];
      (constructor; cbn [world inProgress started]; rewrite ?Hrem; [lia | eauto]).
Qed.

Lemma Budget_run (assets : list nstr) (w0 : World) (evs : list Event) :
  forall s s', Inv cfg assets s -> Budget w0 s -> run_ s evs = Some s' ->
    Budget w0 s'.
Proof.
  induction evs as [|e evs IH]; intros s s' HI HB Hrun; simpl in Hrun.
  - now injection Hrun as <-.
  - destruct (step_ s e) as [s1|] eqn:E; [|discriminate].
    eapply IH; [| |exact Hrun].
    + eapply Inv_step; eauto.
    + eapply Budget_step; eauto.
Qed.


End SchedulerExtras.


(* ------------------------------------------------------------------ *)
(** ** The scheduler downloads what it was given or what it found *)
(* ------------------------------------------------------------------ *)

Section SourcedFacts.

Context {rt : Runtime}.
Variable cfg : Config.
Variable net : Net.
Variables outputDir baseUrl : str.

#[local] Abbreviation step_ := (step cfg net outputDir baseUrl).
#[local] Abbreviation run_ := (run cfg net outputDir baseUrl).

Lemma sourced_more (assets : list nstr) (rs : list Result) (r : Result) (u : nstr) :
  sourced assets rs u -> sourced assets (rs ++ [r]) u.
Proof.
  intros [H|(r0 & l & Hr & Hl & Hu & Ht)]; [now left|].
  right. exists r0, l. split; [apply in_or_app; now left | auto].
Qed.

Lemma Sourced_init (assets : list nstr) (w : World) : Sourced assets (init assets w).
Proof. constructor; cbn [init queue started]; [now left | intros u []]. Qed.

Lemma Sourced_step (assets : list nstr) (s s' : Sched) (e : Event) :
  Sourced assets s -> step_ s e = Some s' -> Sourced assets s'.
Proof.
  intros [Hq Hs] Hstep. destruct e as [|id|id|id]; cbn [step] in Hstep.
  - destruct (queue s) as [|asset rest] eqn:Eq; [discriminate|].
    destruct (length (inProgress s) <? concurrentDownloads cfg); [|discriminate].
    destruct (set_has asset (downloaded s)).
    + injection Hstep as <-. constructor; cbn [queue started results]; [|exact Hs].
      intros u Hu. apply Hq. now right.
    + destruct (start_call cfg outputDir baseUrl asset (world s)) as [ph w1].
      injection Hstep as <-. constructor; cbn [queue started results].
      * intros u Hu. apply Hq. now right.
      * intros u Hu. apply in_app_or in Hu as [Hu|[<-|[]]]; [now apply Hs|].
        apply Hq. now left.
  - destruct (find_task id (inProgress s)) as [[tid asset ph]|]; [|discriminate].
    destruct ph as [lp fp i call| |]; try discriminate.
    destruct (net call (url_text asset)) as [response|message].
    + destruct (downloadAsset_store asset lp fp response (world s)) as [r w1].
      injection Hstep as <-. constructor; assumption.
    + destruct (i =? maxRetries cfg - 1); injection Hstep as <-;
        constructor; assumption.
  - destruct (find_task id (inProgress s)) as [[tid asset ph]|]; [|discriminate].
    destruct ph as [|lp fp i|]; try discriminate.
    destruct (enter_attempt cfg asset lp fp (i + 1) (world s)) as [ph w1].
    injection Hstep as <-. constructor; assumption.
  - destruct (find_task id (inProgress s)) as [[tid asset ph]|]; [|discriminate].
    destruct ph as [| |result]; try discriminate.
    injection Hstep as <-. destruct result as [r|]; cbn [on_result].
    + constructor; cbn [queue started results].
      * intros u Hu. apply in_app_or in Hu as [Hu|Hu].
        -- apply sourced_more. now apply Hq.
        -- right. destruct (r_additionalAssets r) as [l|] eqn:El; [|destruct Hu].
           apply filter_In in Hu as [Hin Ht].
           apply andb_true_iff in Ht as [Ht _].
           exists r, l. split; [apply in_or_app; right; now left | auto].
      * intros u Hu. apply sourced_more. now apply Hs.
    + constructor; assumption.
Qed.

Lemma Sourced_run (assets : list nstr) (evs : list Event) :
  forall s s', Sourced assets s -> run_ s evs = Some s' -> Sourced assets s'.
Proof.
  induction evs as [|e evs IH]; intros s s' HS Hrun; simpl in Hrun.
  - now injection Hrun as <-.
  - destruct (step_ s e) as [s1|] eqn:E; [|discriminate].
    eapply IH; [|exact Hrun]. eapply Sourced_step; eauto.
Qed.

(** X26.  The scheduler downloads nothing of its own: every URL it gives
    to [downloadAsset], under any schedule, is a URL of the frontier it was
    called with, or a truthy entry of the [additionalAssets] of a result
    already recorded; a [null] that a style sheet yields is never
    admitted. *)
Theorem scheduler_downloads_only_sourced (assets : list nstr) (w0 : World)
  (evs : list Event) (s : Sched) (u : nstr) :
  run_ (init assets w0) evs = Some s ->
  In u (started s) ->
  In u assets
  \/ exists r l, In r (results s) /\ r_additionalAssets r = Some l
                 /\ In u l /\ truthy u = true.
Proof.
  intros Hrun Hu.
  destruct (Sourced_run evs (Sourced_init assets w0) Hrun) as [_ Hs].
  exact (Hs u Hu).
Qed.

End SourcedFacts.

Lemma scheduler_downloads_only_sourced_witness :
  In demo_img3 demo_assets
  \/ exists r l, In r (results demo_first) /\ r_additionalAssets r = Some l
                 /\ In demo_img3 l /\ truthy demo_img3 = true.
Proof.
  apply (@scheduler_downloads_only_sourced node demo_config demo_net (lit "out")
           example_base demo_assets empty_world demo_events demo_first demo_img3).
  - vm_compute. reflexivity.
  - vm_compute. tauto.
Defined.

(* ------------------------------------------------------------------ *)
(** ** What the origin serves is mirrored *)
(* ------------------------------------------------------------------ *)

Section MirrorFacts.

Context {rt : Runtime}.
Variable cfg : Config.
Variable origin : str -> Response + str.
Variables outputDir baseUrl : str.

#[local] Abbreviation steady := (steady origin).
#[local] Abbreviation step_ := (step cfg steady outputDir baseUrl).
#[local] Abbreviation run_ := (run cfg steady outputDir baseUrl).
#[local] Abbreviation loop_ := (main_loop cfg steady outputDir baseUrl).
#[local] Abbreviation rejected := (rejected origin).
#[local] Abbreviation honest := (honest origin).
#[local] Abbreviation phase_honest := (phase_honest origin).
#[local] Abbreviation Honest := (Honest origin).

Hypothesis attempts : 0 < maxRetries cfg.

Lemma Honest_init (assets : list nstr) (w : World) : Honest (init assets w).
Proof. constructor; simpl; constructor. Qed.

Lemma enter_attempt_honest (asset : nstr) (lp fp : str) (i : nat) (w : World) :
  (i = 0 \/ rejected asset) ->
  phase_honest asset (fst (enter_attempt cfg asset lp fp i w)).
Proof.
  intros H. unfold enter_attempt. destruct (i <? maxRetries cfg) eqn:E; simpl.
  - exact I.
  - intros _. destruct H as [->|H]; [|exact H].
    apply Nat.ltb_ge in E. lia.
Qed.

Lemma start_call_honest (asset : nstr) (w : World) :
  phase_honest asset (fst (start_call cfg outputDir baseUrl asset w)).
Proof.
  cbv beta zeta delta [start_call downloadAsset_begin].
  destruct (getLocalPath (url_text asset) baseUrl) as [[|c lp]|].
  - exact I.
  - match goal with |- context [existsSync ?p w] =>
      destruct (existsSync p w) end.
    + cbn. discriminate.
    + apply enter_attempt_honest. now left.
  - exact I.
Qed.

Lemma Honest_update (assets : list nstr) (s : Sched) (id : nat) (ph : Phase)
  (w' : World) (t : Task) :
  Inv cfg assets s -> Honest s -> find_task id (inProgress s) = Some t ->
  phase_honest (t_url t) ph ->
  Honest (update s id ph w').
Proof.
  intros [_ _ _ _ _ _ Htasks _ _] [Ht Hr] Hf Hph.
  apply find_task_In in Hf as [Hin Hid].
  constructor; cbn [update inProgress results]; [|assumption].
  unfold set_phase. apply Forall_map. rewrite Forall_forall in *.
  intros x Hx. destruct (t_id x =? id) eqn:E.
  - apply Nat.eqb_eq in E. cbn [t_url t_phase].
    destruct (Htasks x Hx) as [Hnx _]. destruct (Htasks t Hin) as [Hnt _].
    assert (Hu : t_url x = t_url t) by congruence.
    now rewrite Hu.
  - now apply Ht.
Qed.

Lemma Honest_step (assets : list nstr) (s s' : Sched) (e : Event) :
  Inv cfg assets s -> Honest s -> step_ s e = Some s' -> Honest s'.
Proof.
  intros HI HH Hstep. destruct e as [|id|id|id]; cbn [step] in Hstep.
  - destruct HH as [Ht Hr].
    destruct (queue s) as [|asset rest] eqn:Eq; [discriminate|].
    destruct (length (inProgress s) <? concurrentDownloads cfg); [|discriminate].
    destruct (set_has asset (downloaded s)).
    + injection Hstep as <-. constructor; auto.
    + pose proof (start_call_honest asset (world s)) as Hph.
      destruct (start_call cfg outputDir baseUrl asset (world s)) as [ph w1].
      cbn [fst] in Hph. injection Hstep as <-.
      constructor; cbn [inProgress results]; [|assumption].
      apply Forall_app. split; [assumption|]. constructor; [exact Hph | constructor].
  - destruct (find_task id (inProgress s)) as [[tid asset ph]|] eqn:Ef;
      [|discriminate].
    destruct ph as [lp fp i call| |]; try discriminate.
    unfold steady in Hstep.
    destruct (origin (url_text asset)) as [response|message] eqn:Eo.
    + unfold downloadAsset_store in Hstep.
      destruct (endsWith (lit ".css") lp); injection Hstep as <-;
        (eapply Honest_update; eauto; cbn; discriminate).
    + destruct (i =? maxRetries cfg - 1); injection Hstep as <-;
        eapply Honest_update; eauto.
      * cbn. intros _. now exists message.
      * cbn. now exists message.
  - destruct (find_task id (inProgress s)) as [[tid asset ph]|] eqn:Ef;
      [|discriminate].
    destruct ph as [|lp fp i|]; try discriminate.
    assert (Hp : rejected asset).
    { destruct HH as [Ht _]. rewrite Forall_forall in Ht.
      apply find_task_In in Ef as [Hin _]. exact (Ht _ Hin). }
    pose proof (@enter_attempt_honest asset lp fp (i + 1) (world s) (or_intror Hp))
      as Hph.
    destruct (enter_attempt cfg asset lp fp (i + 1) (world s)) as [ph w1].
    cbn [fst] in Hph. injection Hstep as <-.
    eapply Honest_update; eauto.
  - destruct HH as [Ht Hr].
    destruct (find_task id (inProgress s)) as [[tid asset ph]|] eqn:Ef;
      [|discriminate].
    destruct ph as [| |result]; try discriminate.
    injection Hstep as <-.
    assert (Hp : phase_honest asset (Settled result)).
    { rewrite Forall_forall in Ht.
      apply find_task_In in Ef as [Hin _]. exact (Ht _ Hin). }
    assert (Hrest : Forall (fun t => phase_honest (t_url t) (t_phase t))
                      (remove_task id (inProgress s))).
    { unfold remove_task. rewrite Forall_forall in *. intros x Hx.
      apply filter_In in Hx as [Hx _]. now apply Ht. }
    destruct result as [r|]; cbn [on_result].
    + constructor; cbn [inProgress results]; [exact Hrest|].
      apply Forall_app. split; [assumption|]. constructor; [exact Hp | constructor].
    + constructor; cbn [inProgress results]; assumption.
Qed.

Lemma Honest_run (assets : list nstr) (evs : list Event) :
  forall s s', Inv cfg assets s -> Honest s -> run_ s evs = Some s' -> Honest s'.
Proof.
  induction evs as [|e evs IH]; intros s s' HI HH Hrun; simpl in Hrun.
  - now injection Hrun as <-.
  - destruct (step_ s e) as [s1|] eqn:E; [|discriminate].
    eapply IH; [| |exact Hrun].
    + eapply Inv_step; eauto.
    + eapply Honest_step; eauto.
Qed.


End MirrorFacts.


(* ------------------------------------------------------------------ *)
(** ** The probers do not look at the disk *)
(* ------------------------------------------------------------------ *)

Section NoCacheFacts.

Context {rt : Runtime}.
Variable cfg : Config.
Variable net : Net.
Variables baseUrl outputDir : str.

Lemma try_pattern_same (p : str) (w1 w2 : World) :
  requests w1 = requests w2 ->
  fst (try_pattern cfg net baseUrl outputDir p w1)
  = fst (try_pattern cfg net baseUrl outputDir p w2)
  /\ requests (snd (try_pattern cfg net baseUrl outputDir p w1))
     = requests (snd (try_pattern cfg net baseUrl outputDir p w2)).
Proof.
  intros E.
  destruct (try_pattern_any cfg net baseUrl outputDir p w1) as (H1 & _).
  destruct (try_pattern_any cfg net baseUrl outputDir p w2) as (H2 & _).
  split; [|now rewrite H1, H2, E].
  unfold try_pattern, fetchWithRetry. cbn [retry_from fetchUrl issue]. rewrite E.
  destruct (net (length (requests w2)) p) as [response|message].
  - now destruct (getLocalPath p baseUrl).
  - reflexivity.
Qed.

Lemma try_patterns_same (ps : list str) :
  forall w1 w2, requests w1 = requests w2 ->
    fst (try_patterns cfg net baseUrl outputDir ps w1)
    = fst (try_patterns cfg net baseUrl outputDir ps w2)
    /\ requests (snd (try_patterns cfg net baseUrl outputDir ps w1))
       = requests (snd (try_patterns cfg net baseUrl outputDir ps w2)).
Proof.
  induction ps as [|p ps IH]; intros w1 w2 E; cbn [try_patterns]; [auto|].
  destruct (try_pattern_same p w1 w2 E) as [Hf Hr].
  destruct (try_pattern cfg net baseUrl outputDir p w1) as [f1 v1].
  destruct (try_pattern cfg net baseUrl outputDir p w2) as [f2 v2].
  cbn [fst snd] in Hf, Hr. subst f2.
  destruct f1; [cbn [fst snd]; auto | now apply IH].
Qed.

Lemma probe_from_same :
  forall left pageNum pages w1 w2, requests w1 = requests w2 ->
    fst (probe_from cfg net baseUrl outputDir pageNum left pages w1)
    = fst (probe_from cfg net baseUrl outputDir pageNum left pages w2)
    /\ requests (snd (probe_from cfg net baseUrl outputDir pageNum left pages w1))
       = requests (snd (probe_from cfg net baseUrl outputDir pageNum left pages w2)).
Proof.
  induction left as [|left IH]; intros pageNum pages w1 w2 E; cbn [probe_from];
    [auto|].
  destruct (try_patterns_same (patterns baseUrl pageNum) w1 w2 E) as [Hf Hr].
  destruct (try_patterns cfg net baseUrl outputDir (patterns baseUrl pageNum) w1)
    as [f1 v1].
  destruct (try_patterns cfg net baseUrl outputDir (patterns baseUrl pageNum) w2)
    as [f2 v2].
  cbn [fst snd] in Hf, Hr. subst f2.
  destruct f1 as [p|]; [now apply IH | cbn [fst snd]; auto].
Qed.

Lemma try_config_same (assets : list nstr) (w1 w2 : World) (configPath : str) :
  requests w1 = requests w2 ->
  fst (try_config cfg net baseUrl outputDir (assets, w1) configPath)
  = fst (try_config cfg net baseUrl outputDir (assets, w2) configPath)
  /\ requests (snd (try_config cfg net baseUrl outputDir (assets, w1) configPath))
     = requests (snd (try_config cfg net baseUrl outputDir (assets, w2) configPath)).
Proof.
  intros E.
  destruct (try_config_spec cfg net baseUrl outputDir assets w1 configPath)
    as (H1 & _).
  destruct (try_config_spec cfg net baseUrl outputDir assets w2 configPath)
    as (H2 & _).
  split; [|now rewrite H1, H2, E].
  unfold try_config.
  destruct (new_URL configPath (Some baseUrl)) as [u|]; [|reflexivity].
  unfold fetchWithRetry. cbn [retry_from fetchUrl issue]. rewrite E.
  destruct (net (length (requests w2)) (href u)) as [response|message].
  - now destruct (getLocalPath (href u) baseUrl).
  - reflexivity.
Qed.

Lemma fold_try_config_same (ps : list str) :
  forall assets w1 w2, requests w1 = requests w2 ->
    fst (fold_left (try_config cfg net baseUrl outputDir) ps (assets, w1))
    = fst (fold_left (try_config cfg net baseUrl outputDir) ps (assets, w2))
    /\ requests (snd (fold_left (try_config cfg net baseUrl outputDir) ps
                        (assets, w1)))
       = requests (snd (fold_left (try_config cfg net baseUrl outputDir) ps
                          (assets, w2))).
Proof.
  induction ps as [|p ps IH]; intros assets w1 w2 E; cbn [fold_left]; [auto|].
  destruct (try_config_same assets w1 w2 p E) as [Hf Hr].
  destruct (try_config cfg net baseUrl outputDir (assets, w1) p) as [a1 v1].
  destruct (try_config cfg net baseUrl outputDir (assets, w2) p) as [a2 v2].
  cbn [fst snd] in Hf, Hr. subst a2. now apply IH.
Qed.


End NoCacheFacts.

